(** * Tagalog stemmer: a shallow embedding of [tglstemmer] and its properties

    The development follows the Python sources:
    - [helpers/validation.py]   ([is_valid], [is_acceptable], [is_vowel], [is_consonant])
    - [helpers/manipulation.py] ([replace_letter], [swap_letters])
    - [stem.py]                 (class [Stem], a [str] carrying annotations)
    - [stemmer.py]              (the rule cascade and the selector)

    Python strings are lists of characters (code points 0..255), integers
    are [Z], an [IndexError] is an explicit error result, and a Python [set]
    of [Stem] is a list without two elements of equal text whose iteration
    order is an arbitrary permutation. *)

From Stdlib Require Import List ZArith Lia Bool Ascii String Permutation Sorted.
Import ListNotations.
Local Open Scope Z_scope.
Local Open Scope list_scope.

Set Implicit Arguments.

(** ** Exceptions as results *)

Inductive exn : Type := IndexError.

Inductive result (A : Type) : Type :=
| Ok (a : A)
| Raise (e : exn).
Arguments Ok {A} a.
Arguments Raise {A} e.

Definition bind {A B : Type} (m : result A) (k : A -> result B) : result B :=
  match m with
  | Ok a => k a
  | Raise e => Raise e
  end.

Notation "x <- m ;; k" := (bind m (fun x => k))
  (at level 61, m at next level, right associativity).

(** Python's short-circuit [a and b] when [b] may raise. *)
Definition and_then (a : bool) (b : result bool) : result bool :=
  if a then b else Ok false.

Notation "a &&& b" := (and_then a b) (at level 40, left associativity).

(** [for x in xs: acc = f(acc, x)], stopping at the first exception. *)
Fixpoint foldM {A B : Type} (f : A -> B -> result A) (acc : A) (xs : list B)
  : result A :=
  match xs with
  | [] => Ok acc
  | x :: xs' => acc' <- f acc x ;; foldM f acc' xs'
  end.

(** ** Python strings *)

Module PyStr.

Definition str : Type := list ascii.

Definition py (s : string) : str := list_ascii_of_string s.

Definition len (s : str) : Z := Z.of_nat (List.length s).

Definition ch_eqb (a b : ascii) : bool := Ascii.eqb a b.

Fixpoint str_eqb (a b : str) : bool :=
  match a, b with
  | [], [] => true
  | x :: a', y :: b' => ch_eqb x y && str_eqb a' b'
  | _, _ => false
  end.

(** [s[i]] for an integer [i]: negative indices count from the end, an
    index out of range raises [IndexError]. *)
Definition getitem (s : str) (i : Z) : result ascii :=
  let j := if i <? 0 then i + len s else i in
  if j <? 0 then Raise IndexError
  else match nth_error s (Z.to_nat j) with
       | Some c => Ok c
       | None => Raise IndexError
       end.

(** Slice bounds are clamped to [0 .. len s]; slicing never raises. *)
Definition clamp (n i : Z) : Z :=
  if i <? 0 then Z.max 0 (i + n) else Z.min i n.

Definition slice (s : str) (lo hi : option Z) : str :=
  let n := len s in
  let a := match lo with Some i => clamp n i | None => 0 end in
  let b := match hi with Some i => clamp n i | None => n end in
  firstn (Z.to_nat (b - a)) (skipn (Z.to_nat a) s).

Fixpoint startswith (s p : str) : bool :=
  match p, s with
  | [], _ => true
  | x :: p', y :: s' => ch_eqb x y && startswith s' p'
  | _ :: _, [] => false
  end.

Definition endswith (s p : str) : bool := startswith (rev s) (rev p).

(** [c in s] for a one-character [c]. *)
Definition contains (c : ascii) (s : str) : bool := existsb (ch_eqb c) s.

(** [x in (a, b, ...)]: membership in a tuple or list of strings. *)
Definition mem (x : str) (xs : list str) : bool := existsb (str_eqb x) xs.

(** [s.split(sep)] for a one-character separator. *)
Fixpoint split_on (sep : ascii) (s : str) : list str :=
  match s with
  | [] => [[]]
  | c :: s' =>
      if ch_eqb c sep then [] :: split_on sep s'
      else match split_on sep s' with
           | [] => [[c]]
           | w :: ws => (c :: w) :: ws
           end
  end.

(** [str.lower] on the code points 0..255: [A-Z] and the upper-case
    Latin-1 letters move up by 32. *)
Definition lower_char (c : ascii) : ascii :=
  let n := N_of_ascii c in
  if ((65 <=? n) && (n <=? 90))%N
     || ((192 <=? n) && (n <=? 222) && negb (n =? 215))%N
  then ascii_of_N (n + 32) else c.

Definition lower (s : str) : str := map lower_char s.

(** [str.isspace] on the code points 0..255. *)
Definition is_space (c : ascii) : bool :=
  let n := N_of_ascii c in
  (((9 <=? n) && (n <=? 13)) || ((28 <=? n) && (n <=? 32))
   || (n =? 133) || (n =? 160))%N.

Fixpoint lstrip (s : str) : str :=
  match s with
  | c :: s' => if is_space c then lstrip s' else s
  | [] => []
  end.

Definition rstrip (s : str) : str := rev (lstrip (rev s)).

Definition strip (s : str) : str := rstrip (lstrip s).

(** [list(s)[i] = letter; "".join(...)]: the list assignment raises
    [IndexError] when [i] is out of range. *)
Definition set_index (s : str) (i : Z) (letter : str) : result str :=
  let j := if i <? 0 then i + len s else i in
  if (j <? 0) || (len s <=? j) then Raise IndexError
  else Ok (firstn (Z.to_nat j) s ++ letter ++ skipn (S (Z.to_nat j)) s).

End PyStr.
Import PyStr.

(** ** [stem.py]: the annotated string *)

Record Stem : Type := mkStem {
  text : str;
  pre : option str;
  inf : option str;
  suf : option str;
  rep : option str;
  dup : option str;
  contraction : option str;
  phoneme_change : option str;
  assimilation : option str;
  vowel_loss : option str;
  metathesis : bool   (* [None] is [false], [True] is [true] *)
}.

(** [Stem(s)]: every annotation defaults to [None]. *)
Definition new_stem (s : str) : Stem :=
  mkStem s None None None None None None None None None false.

(** [Stem(s, **self.__dict__)]: a new string with the annotations of [t]. *)
Definition with_text (t : Stem) (s : str) : Stem :=
  mkStem s (pre t) (inf t) (suf t) (rep t) (dup t) (contraction t)
         (phoneme_change t) (assimilation t) (vowel_loss t) (metathesis t).

Definition set_pre (t : Stem) (v : str) : Stem :=
  mkStem (text t) (Some v) (inf t) (suf t) (rep t) (dup t) (contraction t)
         (phoneme_change t) (assimilation t) (vowel_loss t) (metathesis t).
Definition set_inf (t : Stem) (v : str) : Stem :=
  mkStem (text t) (pre t) (Some v) (suf t) (rep t) (dup t) (contraction t)
         (phoneme_change t) (assimilation t) (vowel_loss t) (metathesis t).
Definition set_suf (t : Stem) (v : str) : Stem :=
  mkStem (text t) (pre t) (inf t) (Some v) (rep t) (dup t) (contraction t)
         (phoneme_change t) (assimilation t) (vowel_loss t) (metathesis t).
Definition set_rep (t : Stem) (v : str) : Stem :=
  mkStem (text t) (pre t) (inf t) (suf t) (Some v) (dup t) (contraction t)
         (phoneme_change t) (assimilation t) (vowel_loss t) (metathesis t).
Definition set_dup (t : Stem) (v : str) : Stem :=
  mkStem (text t) (pre t) (inf t) (suf t) (rep t) (Some v) (contraction t)
         (phoneme_change t) (assimilation t) (vowel_loss t) (metathesis t).
Definition set_contraction (t : Stem) (v : str) : Stem :=
  mkStem (text t) (pre t) (inf t) (suf t) (rep t) (dup t) (Some v)
         (phoneme_change t) (assimilation t) (vowel_loss t) (metathesis t).
Definition set_phoneme_change (t : Stem) (v : str) : Stem :=
  mkStem (text t) (pre t) (inf t) (suf t) (rep t) (dup t) (contraction t)
         (Some v) (assimilation t) (vowel_loss t) (metathesis t).
Definition set_assimilation (t : Stem) (v : str) : Stem :=
  mkStem (text t) (pre t) (inf t) (suf t) (rep t) (dup t) (contraction t)
         (phoneme_change t) (Some v) (vowel_loss t) (metathesis t).
Definition set_vowel_loss (t : Stem) (v : str) : Stem :=
  mkStem (text t) (pre t) (inf t) (suf t) (rep t) (dup t) (contraction t)
         (phoneme_change t) (assimilation t) (Some v) (metathesis t).
Definition set_metathesis (t : Stem) : Stem :=
  mkStem (text t) (pre t) (inf t) (suf t) (rep t) (dup t) (contraction t)
         (phoneme_change t) (assimilation t) (vowel_loss t) true.

(** [len(x or "")] *)
Definition len_or_empty (x : option str) : Z :=
  match x with Some s => len s | None => 0 end.

(** [bool(x)] for an optional string: [None] and [""] are falsy. *)
Definition truthy (x : option str) : bool :=
  match x with Some (_ :: _) => true | _ => false end.

Definition count_affixes (t : Stem) : Z :=
  len_or_empty (pre t) + len_or_empty (inf t) + len_or_empty (suf t).

Definition count_reduplication (t : Stem) : Z :=
  len_or_empty (rep t) + len_or_empty (dup t).

Definition count_transformations (t : Stem) : Z :=
  Z.b2z (truthy (phoneme_change t)) + Z.b2z (truthy (assimilation t))
  + Z.b2z (truthy (vowel_loss t)) + Z.b2z (metathesis t).

(** The overridden [str] methods: each result keeps the annotations of
    the receiver. *)
Definition sgetitem (t : Stem) (i : Z) : result Stem :=
  c <- getitem (text t) i ;; Ok (with_text t [c]).

Definition sslice (t : Stem) (lo hi : option Z) : Stem :=
  with_text t (slice (text t) lo hi).

(** [self + other] *)
Definition sadd (t : Stem) (other : str) : Stem :=
  with_text t (text t ++ other).

(** [other + self] with [other] a plain [str] ([__radd__]). *)
Definition sradd (other : str) (t : Stem) : Stem :=
  with_text t (other ++ text t).

Definition ssplit (t : Stem) (sep : ascii) : list Stem :=
  map (with_text t) (split_on sep (text t)).

(** [==] on [Stem] is [str.__eq__]: the text alone. *)
Definition stem_eqb (a b : Stem) : bool := str_eqb (text a) (text b).

(** ** [helpers/manipulation.py] *)

Definition replace_letter (token : Stem) (index : Z) (letter : str)
  : result Stem :=
  s <- set_index (text token) index letter ;; Ok (with_text token s).

Definition swap_letters (token : Stem) (index1 index2 : Z) : result Stem :=
  index1_letter <- getitem (text token) index1 ;;
  index2_letter <- getitem (text token) index2 ;;
  l1 <- set_index (text token) index1 [index2_letter] ;;
  l2 <- set_index l1 index2 [index1_letter] ;;
  Ok (with_text token l2).

(** ** A Python [set] of [Stem]

    Hashing and equality are those of [str], so a set holds at most one
    record per text, and [add] keeps the record already present. *)

Definition pyset : Type := list Stem.

Definition set_add (s : pyset) (x : Stem) : pyset :=
  if existsb (stem_eqb x) s then s else s ++ [x].

(** [s.update(xs)] *)
Definition set_update (s : pyset) (xs : list Stem) : pyset :=
  fold_left set_add xs s.

(** [set(xs)] *)
Definition set_of_list (xs : list Stem) : pyset := set_update [] xs.

Definition nonempty {A : Type} (l : list A) : bool :=
  match l with [] => false | _ :: _ => true end.

(** Truthiness of a value that is either a [Stem] or [False]: a [Stem]
    is truthy unless it is the empty string. *)
Definition truthy_stem (r : option Stem) : bool :=
  match r with Some t => nonempty (text t) | None => false end.

(** ** [helpers/validation.py] *)

(** [valid_words] is [None] or a list of words; [not valid_words] holds
    for [None] and for the empty list. The result is the token or
    [False] (here [None]). *)
Definition is_valid (token : Stem) (valid_words : option (list str))
  : option Stem :=
  match valid_words with
  | None => Some token
  | Some [] => Some token
  | Some ws => if mem (text token) ws then Some token else None
  end.

(** ** The resources *)

(** Modelled from the spec: the alphabet module and the affix resource
    files are not part of the sources at hand. The spec describes two
    character sets (vowels and consonants of the Tagalog orthography,
    with the letters of loanwords) and three affix lists sorted by
    ascending length. The lists below hold the affixes that the unit
    tests of the repository exercise ([parami], [pamigay], [panamit],
    [pangailangan], [sinulat], [bayaran], [tauhan], [paitin]) and the
    contractions named in [stem_suf]. The general theorems do not depend
    on them; they are used to evaluate the code on concrete words. *)
Module Tagalog.

(** Modelled from the spec: the vowels of the Tagalog orthography. *)
Definition VOWELS : str := py "aeiou".

(** Modelled from the spec: the consonants, with those of loanwords. *)
Definition CONSONANTS : str := py "bcdfghjklmnpqrstvwxyz".

(** Modelled from the spec: prefixes, sorted by ascending length. *)
Definition PREFIXES : list str := map py ["pa"; "pam"; "pan"; "pang"]%string.

(** Modelled from the spec: infixes, sorted by ascending length. *)
Definition INFIXES : list str := map py ["in"; "um"]%string.

(** Modelled from the spec: suffixes and contractions, sorted by
    ascending length. *)
Definition SUFFIXES : list str :=
  map py ["g"; "an"; "in"; "ng"; "'t"; "'y"; "han"; "hin"]%string.

(** One iteration order of a set: the order of insertion. *)
Definition insertion_order (s : pyset) : list Stem := s.

End Tagalog.

Section Stemmer.

(** Modelled from the spec: [helpers/alphabet.py] is not part of the
    sources at hand; the spec describes [VOWELS] and [CONSONANTS] as two
    immutable character sets. *)
Variables VOWELS CONSONANTS : str.

(** Modelled from the spec: the affix lists are read from resource files
    that are not part of the sources at hand; the spec describes them as
    three sequences of strings sorted by ascending length. *)
Variables PREFIXES INFIXES SUFFIXES : list str.

(** The order in which a [set] is iterated. It depends on the hashes of
    the strings; the properties below hold for every order. *)
Variable set_iter : pyset -> list Stem.

Definition is_vowel (substring : str) : bool :=
  forallb (fun letter => contains (lower_char letter) VOWELS) substring.

Definition is_consonant (substring : str) : bool :=
  forallb (fun letter => contains (lower_char letter) CONSONANTS) substring.

Definition is_acceptable (token : Stem) : result (option Stem) :=
  c0 <- getitem (text token) 0 ;;
  let n := len (text token) in
  if is_vowel [c0] then
    if (n =? 2)
       || ((3 <=? n) && existsb (fun c => is_consonant [c]) (text token))
    then Ok (Some token) else Ok None
  else if is_consonant [c0] then
    if (n =? 3)
       || ((4 <=? n) && existsb (fun c => is_vowel [c]) (text token))
    then Ok (Some token) else Ok None
  else Ok None.

(** ** [stemmer.py]: the rules

    For each rule, [*_emit] is the body of the loop over one token (and
    one affix): it returns, in program order, the arguments of the calls
    [stems.add(...)] that the body makes. *)

Definition sort_key (c : Stem) : Z :=
  count_affixes c + count_reduplication c.

(** [sorted(..., key=..., reverse=True)]: stable, by descending key. *)
Fixpoint insert_desc (x : Stem) (l : list Stem) : list Stem :=
  match l with
  | [] => [x]
  | y :: l' =>
      if sort_key y <=? sort_key x then x :: l else y :: insert_desc x l'
  end.

Definition sort_candidates (candidates : list Stem) : list Stem :=
  fold_right insert_desc [] candidates.

(** *** [stem_pre] *)

Definition assimilate (letters : str) (tag : str) (stem : Stem) : list Stem :=
  map (fun l => set_assimilation (sradd [l] stem) (tag ++ [l])) letters.

Definition stem_pre_emit (token : Stem) (prefix : str) : result (list Stem) :=
  if startswith (text token) prefix && (len prefix <? len (text token)) then
    let stem := set_pre (sslice token (Some (len prefix)) None) prefix in
    c0 <- getitem (text stem) 0 ;;
    let stem := if ch_eqb c0 "-" then sslice stem (Some 1) None else stem in
    (* Phoneme change (d/r) *)
    c0 <- getitem (text stem) 0 ;;
    dr <- ch_eqb c0 "r"
          &&& (p <- getitem prefix (-1) ;;
               s1 <- getitem (text stem) 1 ;;
               Ok (is_vowel [p; s1])) ;;
    let stems_dr :=
      if dr then [set_phoneme_change (sradd (py "d") (sslice stem (Some 1) None))
                                     (py "pre: d/r")]
      else [] in
    (* Assimilation *)
    acc <- is_acceptable stem ;;
    asml <- truthy_stem acc
            &&& (c <- getitem (text stem) 0 ;; Ok (is_vowel [c])) ;;
    stems_asml <-
      (if asml then
         if endswith prefix (py "ng") then
           let stem_asml_knull :=
             set_assimilation (sradd (py "k") stem) (py "k/null") in
           ng_rep <- (3 <? len (text stem))
                     &&& (str_eqb (slice (text stem) (Some 1) (Some 3)) (py "ng")
                     &&& (a <- getitem (text stem) 0 ;;
                          b <- getitem (text stem) 3 ;;
                          ch_eqb a b
                          &&& (c <- getitem (text stem) 0 ;; Ok (is_vowel [c])))) ;;
           if ng_rep then
             let stem_ng_rep :=
               set_rep (sslice stem (Some 3) None)
                       (slice (text stem) None (Some 3)) in
             acc' <- is_acceptable stem_ng_rep ;;
             Ok (stem_asml_knull :: stem_ng_rep ::
                 (if truthy_stem acc'
                  then [set_assimilation (sradd (py "k") stem_ng_rep) (py "k/null")]
                  else []))
           else Ok [stem_asml_knull]
         else if endswith prefix (py "m") then
           m_rep <- (2 <? len (text stem))
                    &&& (a <- getitem (text stem) 1 ;;
                         ch_eqb a "m"
                         &&& (a <- getitem (text stem) 0 ;;
                              b <- getitem (text stem) 2 ;;
                              ch_eqb a b
                              &&& (c <- getitem (text stem) 0 ;;
                                   Ok (is_vowel [c])))) ;;
           Ok (assimilate (py "bp") (py "b/p: ") stem
               ++ (if m_rep
                   then assimilate (py "bp") (py "b/p: ")
                                   (sslice stem (Some 2) None)
                   else []))
         else if endswith prefix (py "n") then
           n_rep <- (2 <? len (text stem))
                    &&& (endswith prefix (py "n")
                    &&& (a <- getitem (text stem) 1 ;;
                         ch_eqb a "n"
                         &&& (a <- getitem (text stem) 0 ;;
                              b <- getitem (text stem) 2 ;;
                              ch_eqb a b
                              &&& (c <- getitem (text stem) 0 ;;
                                   Ok (is_vowel [c]))))) ;;
           Ok (assimilate (py "dst") (py "d/s/t: ") stem
               ++ (if n_rep
                   then assimilate (py "dst") (py "d/s/t: ")
                                   (sslice stem (Some 2) None)
                   else []))
         else Ok []
       else Ok []) ;;
    Ok (stem :: stems_dr ++ stems_asml)
  else Ok [].

(** The two nested loops: every emitted stem is added to the set. *)
Definition stem_pre (tokens : pyset) : result pyset :=
  foldM (fun stems token =>
           foldM (fun stems prefix =>
                    out <- stem_pre_emit token prefix ;;
                    Ok (set_update stems out))
                 stems PREFIXES)
        [] (set_iter tokens).

(** *** [stem_inf] *)

(** [if stem: stem.inf = infix; stems.add(stem)] *)
Definition emit_if (stem : option Stem) (tag : Stem -> Stem) : list Stem :=
  match stem with
  | Some s => if nonempty (text s) then [tag s] else []
  | None => []
  end.

Definition stem_inf_emit (token : Stem) (infix : str) : result (list Stem) :=
  let t := text token in
  if len infix + 1 <? len t then
    (* <infix>V... *)
    c1 <- startswith t infix
          &&& (c <- getitem t 2 ;; Ok (is_vowel [c])) ;;
    stem <-
      (if c1 then Ok (Some (sslice token (Some 2) None))
       else
         (* C<infix>V... *)
         c2 <- (3 <? len t)
               &&& (str_eqb (slice t (Some 1) (Some 3)) infix
               &&& (a <- getitem t 0 ;;
                    is_consonant [a]
                    &&& (b <- getitem t 3 ;; Ok (is_vowel [b])))) ;;
         if c2 then
           t0 <- sgetitem token 0 ;;
           Ok (Some (sadd t0 (slice t (Some 3) None)))
         else
           (* CC<infix>V... *)
           c3 <- (4 <? len t)
                 &&& (str_eqb (slice t (Some 2) (Some 4)) infix
                 &&& (is_consonant (slice t None (Some 2))
                 &&& (b <- getitem t 4 ;; Ok (is_vowel [b])))) ;;
           if c3 then
             Ok (Some (sadd (sslice token (Some 0) (Some 2))
                            (slice t (Some 4) None)))
           else
             (* CCC<infix>V... *)
             c4 <- (5 <? len t)
                   &&& (str_eqb (slice t (Some 3) (Some 5)) infix
                   &&& (is_consonant (slice t None (Some 3))
                   &&& (b <- getitem t 5 ;; Ok (is_vowel [b])))) ;;
             if c4 then
               Ok (Some (sadd (sslice token (Some 0) (Some 3))
                              (slice t (Some 5) None)))
             else Ok None) ;;
    Ok (emit_if stem (fun s => set_inf s infix))
  else Ok [].

Definition stem_inf (tokens : pyset) : result pyset :=
  foldM (fun stems token =>
           foldM (fun stems infix =>
                    out <- stem_inf_emit token infix ;;
                    Ok (set_update stems out))
                 stems INFIXES)
        [] (set_iter tokens).

(** *** [stem_vowel_loss] *)

(** [if valid_stem := is_valid(stem, valid_words): ...] *)
Definition emit_valid (stem : Stem) (valid_words : option (list str))
           (vowel : str) : list Stem :=
  match is_valid stem valid_words with
  | Some valid_stem =>
      if nonempty (text valid_stem) then [set_vowel_loss valid_stem vowel]
      else []
  | None => []
  end.

Definition stem_vowel_loss_emit (token : Stem) (vowel : ascii)
           (valid_words : option (list str)) : result (list Stem) :=
  let t := text token in
  let out1 :=
    if 1 <? len t then emit_valid (sadd token [vowel]) valid_words [vowel]
    else [] in
  out2 <-
    (if 2 <? len t then
       last <- getitem t (-1) ;;
       Ok (emit_valid (sadd (sadd (sslice token (Some 0) (Some (-1))) [vowel])
                            [last])
                      valid_words [vowel])
     else Ok []) ;;
  Ok (out1 ++ out2).

Definition stem_vowel_loss (tokens : pyset) (valid_words : option (list str))
  : result pyset :=
  foldM (fun stems token =>
           foldM (fun stems vowel =>
                    out <- stem_vowel_loss_emit token vowel valid_words ;;
                    Ok (set_update stems out))
                 stems VOWELS)
        [] (set_iter tokens).

(** *** [stem_suf] *)

(** The derivations made from a stripped and tagged [stem]. *)
Definition stem_suf_derive (stem : Stem) (suffix : str)
           (valid_words : option (list str)) : result (list Stem) :=
  let s := text stem in
  (* Phoneme change (d/r) *)
  dr <- mem suffix [py "in"; py "an"]
        &&& (c <- getitem s (-1) ;; Ok (ch_eqb c "r")) ;;
  out_dr <-
    (if dr then
       x <- replace_letter stem (-1) (py "d") ;;
       Ok [set_phoneme_change x (py "suf: d/r")]
     else Ok []) ;;
  (* Phoneme change (o/u) *)
  ou1 <- (1 <? len s) &&& (c <- getitem s (-1) ;; Ok (ch_eqb c "u")) ;;
  out_ou <-
    (if ou1 then
       x <- replace_letter stem (-1) (py "o") ;;
       Ok [set_phoneme_change x (py "suf: o/u")]
     else
       ou2 <- (2 <? len s) &&& (c <- getitem s (-2) ;; Ok (ch_eqb c "u")) ;;
       if ou2 then
         x <- replace_letter stem (-2) (py "o") ;;
         Ok [set_phoneme_change x (py "suf: o/u")]
       else Ok []) ;;
  (* Phoneme change (e/i) *)
  ei1 <- (1 <? len s) &&& (c <- getitem s (-1) ;; Ok (ch_eqb c "i")) ;;
  out_ei <-
    (if ei1 then
       x <- replace_letter stem (-1) (py "e") ;;
       Ok [set_phoneme_change x (py "suf: e/i")]
     else
       ei2 <- (2 <? len s) &&& (c <- getitem s (-2) ;; Ok (ch_eqb c "i")) ;;
       if ei2 then
         x <- replace_letter stem (-2) (py "e") ;;
         Ok [set_phoneme_change x (py "suf: e/i")]
       else Ok []) ;;
  cluster <- (2 <? len s)
             &&& (acc <- is_acceptable stem ;;
                  truthy_stem acc
                  &&& Ok (is_consonant (slice s (Some (-2)) None))) ;;
  out_cluster <-
    (if cluster then
       (* Vowel loss *)
       stems_vwls <- stem_vowel_loss [stem] valid_words ;;
       let out_vwls := if nonempty stems_vwls then set_iter stems_vwls else [] in
       (* Metathesis *)
       swapped <- swap_letters stem (-1) (-2) ;;
       let stem_mtts := set_metathesis swapped in
       if truthy_stem (is_valid stem_mtts valid_words) then
         Ok (out_vwls ++ [stem_mtts])
       else
         stems_vwls_mtts <- stem_vowel_loss [stem_mtts] valid_words ;;
         Ok (out_vwls
             ++ (if nonempty stems_vwls_mtts then set_iter stems_vwls_mtts
                 else []))
     else Ok []) ;;
  Ok (out_dr ++ out_ou ++ out_ei ++ out_cluster).

Definition contractions : list str := [py "ng"; py "g"; py "'t"; py "'y"].

(** The stripped stem with its tag, or [None] where the code [continue]s. *)
Definition stem_suf_tag (stem : Stem) (suffix : str) : result (option Stem) :=
  if mem suffix contractions then
    (* 'g' contraction *)
    skip_g <- str_eqb suffix (py "g")
              &&& (c <- getitem (text stem) (-1) ;; Ok (negb (ch_eqb c "n"))) ;;
    if skip_g then Ok None
    else
      (* "'t" or "'y" contraction *)
      skip_ty <- mem suffix [py "'t"; py "'y"]
                 &&& (c <- getitem (text stem) (-1) ;;
                      Ok (negb (is_vowel [c]))) ;;
      if skip_ty then Ok None
      else Ok (Some (set_contraction stem suffix))
  else Ok (Some (set_suf stem suffix)).

Definition stem_suf_emit (token : Stem) (suffix : str)
           (valid_words : option (list str)) : result (list Stem) :=
  let t := text token in
  if endswith t suffix && (len suffix <? len t) then
    tagged <- stem_suf_tag (sslice token (Some 0) (Some (len t - len suffix)))
                           suffix ;;
    match tagged with
    | None => Ok []
    | Some stem =>
        derived <- stem_suf_derive stem suffix valid_words ;;
        Ok (stem :: derived)
    end
  else Ok [].

Definition stem_suf (tokens : pyset) (valid_words : option (list str))
  : result pyset :=
  foldM (fun stems token =>
           foldM (fun stems suffix =>
                    out <- stem_suf_emit token suffix valid_words ;;
                    Ok (set_update stems out))
                 stems SUFFIXES)
        [] (set_iter tokens).

(** *** [stem_rep] *)

(** The conditions of the patterns, as the code tests them. Those of the
    2-consonant and 3-consonant clusters are read under the guards
    [len(token) > 5] and [len(token) > 6]. *)

(* len(token) > 2 and token[0] == token[1] and is_vowel(token[0:2]) *)
Definition test_V_V (t : str) : result bool :=
  (2 <? len t)
  &&& (a <- getitem t 0 ;;
       b <- getitem t 1 ;;
       ch_eqb a b &&& Ok (is_vowel (slice t (Some 0) (Some 2)))).

(* len(token) > 4 and token[0:2] == token[2:4] and is_consonant(token[0]) *)
Definition test_CV_CV (t : str) : result bool :=
  (4 <? len t)
  &&& (str_eqb (slice t (Some 0) (Some 2)) (slice t (Some 2) (Some 4))
  &&& (a <- getitem t 0 ;; Ok (is_consonant [a]))).

(* token[0] == token[2] and token[1] == token[4]
   and is_consonant(token[0]) and is_vowel(token[1]) *)
Definition test_CV_CCV (t : str) : result bool :=
  a <- getitem t 0 ;;
  b <- getitem t 2 ;;
  ch_eqb a b
  &&& (a <- getitem t 1 ;;
       b <- getitem t 4 ;;
       ch_eqb a b
       &&& (a <- getitem t 0 ;;
            is_consonant [a]
            &&& (b <- getitem t 1 ;; Ok (is_vowel [b])))).

(* token[0:2] == token[2:4] and is_consonant(token[0:2]) and is_vowel(token[4]) *)
Definition test_CC_CCV (t : str) : result bool :=
  str_eqb (slice t (Some 0) (Some 2)) (slice t (Some 2) (Some 4))
  &&& (is_consonant (slice t (Some 0) (Some 2))
  &&& (a <- getitem t 4 ;; Ok (is_vowel [a]))).

(* token[0:2] == token[3:5] and is_consonant(token[0:2]) and is_vowel(token[2]) *)
Definition test_CCV_CCV (t : str) : result bool :=
  str_eqb (slice t (Some 0) (Some 2)) (slice t (Some 3) (Some 5))
  &&& (is_consonant (slice t (Some 0) (Some 2))
  &&& (a <- getitem t 2 ;; Ok (is_vowel [a]))).

(* token[0] == token[2] and token[1] == token[5]
   and is_consonant(token[0]) and is_vowel(token[1]) *)
Definition test_CV_CCCV (t : str) : result bool :=
  a <- getitem t 0 ;;
  b <- getitem t 2 ;;
  ch_eqb a b
  &&& (a <- getitem t 1 ;;
       b <- getitem t 5 ;;
       ch_eqb a b
       &&& (a <- getitem t 0 ;;
            is_consonant [a]
            &&& (b <- getitem t 1 ;; Ok (is_vowel [b])))).

(* token[0:2] == token[2:4] and is_consonant(token[0:2]) and is_vowel(token[5]) *)
Definition test_CC_CCCV (t : str) : result bool :=
  str_eqb (slice t (Some 0) (Some 2)) (slice t (Some 2) (Some 4))
  &&& (is_consonant (slice t (Some 0) (Some 2))
  &&& (a <- getitem t 5 ;; Ok (is_vowel [a]))).

(* token[0:2] == token[3:5] and token[2] == token[6]
   and is_consonant(token[0:2]) and is_vowel(token[6]) *)
Definition test_CCV_CCCV (t : str) : result bool :=
  str_eqb (slice t (Some 0) (Some 2)) (slice t (Some 3) (Some 5))
  &&& (a <- getitem t 2 ;;
       b <- getitem t 6 ;;
       ch_eqb a b
       &&& (is_consonant (slice t (Some 0) (Some 2))
       &&& (c <- getitem t 6 ;; Ok (is_vowel [c])))).

(* token[0:3] == token[3:6] and is_consonant(token[0:3]) and is_vowel(token[6]) *)
Definition test_CCC_CCCV (t : str) : result bool :=
  str_eqb (slice t (Some 0) (Some 3)) (slice t (Some 3) (Some 6))
  &&& (is_consonant (slice t (Some 0) (Some 3))
  &&& (a <- getitem t 6 ;; Ok (is_vowel [a]))).

(* token[0:4] == token[4:8] and is_consonant(token[0:3]) and is_vowel(token[3]) *)
Definition test_CCCV_CCCV (t : str) : result bool :=
  str_eqb (slice t (Some 0) (Some 4)) (slice t (Some 4) (Some 8))
  &&& (is_consonant (slice t (Some 0) (Some 3))
  &&& (a <- getitem t 3 ;; Ok (is_vowel [a]))).

(** [stem = token[k:]; stem.rep = str(token[:k])] *)
Definition cut_rep (token : Stem) (k : Z) : Stem :=
  set_rep (sslice token (Some k) None) (slice (text token) None (Some k)).

(** The chain [if V-V / elif CV-CV / elif len(token) > 5: ...]: the value
    of [stem] when the chain is left. *)
Definition stem_rep_first (token : Stem) : result (option Stem) :=
  let t := text token in
  (* V-V *)
  c1 <- test_V_V t ;;
  if c1 then
    (* stem = token[1:]; stem.rep = str(token[0]) *)
    a <- getitem t 0 ;;
    Ok (Some (set_rep (sslice token (Some 1) None) [a]))
  else
    (* CV-CV *)
    c2 <- test_CV_CV t ;;
    if c2 then Ok (Some (cut_rep token 2))
    else if 5 <? len t then
      (* CV-CCV *)
      c3 <- test_CV_CCV t ;;
      if c3 then Ok (Some (cut_rep token 2))
      else
        (* CC-CCV *)
        c4 <- test_CC_CCV t ;;
        if c4 then Ok (Some (cut_rep token 2))
        else
          (* CCV-CCV *)
          c5 <- test_CCV_CCV t ;;
          if c5 then Ok (Some (cut_rep token 3))
          else Ok None
    else Ok None.

(** The separate statement [if len(token) > 6: ...], which assigns
    [stem] again when one of its patterns matches. *)
Definition stem_rep_second (token : Stem) (stem : option Stem)
  : result (option Stem) :=
  let t := text token in
  if 6 <? len t then
    (* CV-CCCV *)
    d1 <- test_CV_CCCV t ;;
    if d1 then Ok (Some (cut_rep token 2))
    else
      (* CC-CCCV *)
      d2 <- test_CC_CCCV t ;;
      if d2 then Ok (Some (cut_rep token 2))
      else
        (* CCV-CCCV *)
        d3 <- test_CCV_CCCV t ;;
        if d3 then Ok (Some (cut_rep token 3))
        else
          (* CCC-CCCV *)
          d4 <- test_CCC_CCCV t ;;
          if d4 then Ok (Some (cut_rep token 3))
          else
            (* CCCV-CCCV *)
            d5 <- test_CCCV_CCCV t ;;
            if d5 then Ok (Some (cut_rep token 4))
            else Ok stem
  else Ok stem.

(** The value of [stem] at the end of the loop body. *)
Definition stem_rep_match (token : Stem) : result (option Stem) :=
  stem <- stem_rep_first token ;;
  stem_rep_second token stem.

(** [if stem: stems.add(stem)] *)
Definition stem_rep_emit (token : Stem) : result (list Stem) :=
  stem <- stem_rep_match token ;;
  Ok (emit_if stem (fun s => s)).

Definition stem_rep (tokens : pyset) : result pyset :=
  foldM (fun stems token =>
           out <- stem_rep_emit token ;;
           Ok (set_update stems out))
        [] (set_iter tokens).

(** *** [stem_dup] *)

Definition dup_ou : str := py "dup: o/u".

Definition stem_dup_parts (first second : Stem) : result (list Stem) :=
  let f := text first in
  let s := text second in
  if (1 <? len f) && (1 <? len s) then
    (* Exact match *)
    if stem_eqb first second then Ok [set_dup first f]
    (* Repeat first 2 syllables *)
    else if (2 <? len f) && (4 <? len s) && startswith s f then
      Ok [set_dup second f]
    else
      (* Phoneme change (o/u) *)
      ou_last <- (2 <? len f)
                 &&& (c <- getitem f (-1) ;;
                      ch_eqb c "u"
                      &&& (x <- replace_letter first (-1) (py "o") ;;
                           Ok (stem_eqb x second))) ;;
      ou <- (if ou_last then Ok true
             else
               c <- getitem f (-2) ;;
               ch_eqb c "u"
               &&& (x <- replace_letter first (-2) (py "o") ;;
                    Ok (stem_eqb x second))) ;;
      if ou then Ok [set_phoneme_change (set_dup second s) dup_ou]
      (* 2-character contractions *)
      else if (3 <? len f)
              && mem (slice f (Some (-2)) None) [py "ng"; py "'t"] then
        if str_eqb (slice f None (Some (-2))) s then
          Ok [set_contraction (set_dup second s) (slice f (Some (-2)) None)]
        else
          ou3 <- (c <- getitem f (-3) ;;
                  ch_eqb c "u"
                  &&& Ok (str_eqb (slice f (Some 0) (Some (-3)) ++ py "o") s)) ;;
          if ou3 then
            Ok [set_contraction (set_dup second s) (slice f (Some (-2)) None)]
          else if str_eqb (slice f (Some (-2)) None) (py "ng") then
            if str_eqb (slice f None (Some (-1))) s then
              c <- getitem f (-1) ;;
              Ok [set_contraction (set_dup second s) [c]]
            else
              ou_n <- (c <- getitem f (-3) ;;
                       ch_eqb c "u"
                       &&& (x <- replace_letter (sslice first None (Some (-1)))
                                               (-2) (py "o") ;;
                            Ok (stem_eqb x second))) ;;
              if ou_n then
                c <- getitem f (-1) ;;
                Ok [set_phoneme_change
                      (set_contraction (set_dup second s) [c]) dup_ou]
              else Ok []
          else Ok []
      (* 1-character contractions *)
      else
        is_t <- (2 <? len f)
                &&& (c <- getitem f (-1) ;; Ok (contains c (py "t"))) ;;
        if is_t then
          if str_eqb (slice f None (Some (-1))) s then
            c <- getitem f (-1) ;;
            Ok [set_contraction (set_dup second s) [c]]
          else
            ou_t <- (c <- getitem f (-2) ;;
                     ch_eqb c "u"
                     &&& Ok (str_eqb (slice f (Some 0) (Some (-2)) ++ py "o") s)) ;;
            if ou_t then
              c <- getitem f (-1) ;;
              Ok [set_phoneme_change
                    (set_contraction (set_dup second s) [c]) dup_ou]
            else Ok []
        else Ok []
  else Ok [].

Definition stem_dup_emit (token : Stem) : result (list Stem) :=
  let t := text token in
  hyphen <- contains "-" t
            &&& (a <- getitem t 0 ;;
                 b <- getitem t (-1) ;;
                 Ok (negb (mem (py "-") [[a]; [b]]))) ;;
  if hyphen then
    (* [len(token.split("-")) == 2] and [first, second = token.split("-")] *)
    match ssplit token "-" with
    | [first; second] => stem_dup_parts first second
    | _ => Ok []
    end
  else Ok [].

Definition stem_dup (tokens : pyset) : result pyset :=
  foldM (fun stems token =>
           out <- stem_dup_emit token ;;
           Ok (set_update stems out))
        [] (set_iter tokens).

(** *** The cascade *)

Inductive rule : Type := Dup | Pre | Rep | Inf | Suf.

(** [f(tokens, valid_words)] if [f in [stem_suf]], else [f(tokens)]. *)
Definition run_rule (f : rule) (tokens : pyset)
           (valid_words : option (list str)) : result pyset :=
  match f with
  | Dup => stem_dup tokens
  | Pre => stem_pre tokens
  | Rep => stem_rep tokens
  | Inf => stem_inf tokens
  | Suf => stem_suf tokens valid_words
  end.

(** [tokens.update(f(tokens))] for each function in turn. *)
Definition apply_stemming (functions : list rule) (tokens : pyset)
           (valid_words : option (list str)) : result pyset :=
  foldM (fun tokens f =>
           new <- run_rule f tokens valid_words ;;
           Ok (set_update tokens (set_iter new)))
        tokens functions.

Definition cascade : list rule := [Dup; Pre; Rep; Inf; Rep; Suf; Dup].

(** [token.strip().lower()] *)
Definition normalise (token : str) : str := lower (strip token).

(** The list comprehension of [get_stem_candidates]. *)
Fixpoint filterM (p : Stem -> result bool) (l : list Stem)
  : result (list Stem) :=
  match l with
  | [] => Ok []
  | x :: l' =>
      b <- p x ;;
      r <- filterM p l' ;;
      Ok (if b then x :: r else r)
  end.

Definition passes (valid_words : option (list str)) (stem : Stem)
  : result bool :=
  truthy_stem (is_valid stem valid_words)
  &&& (a <- is_acceptable stem ;; Ok (truthy_stem a)).

Definition get_stem_candidates (token : str) (valid_words : option (list str))
  : result (list Stem) :=
  let token := new_stem (normalise token) in
  stems <- apply_stemming cascade [token] valid_words ;;
  candidates <- filterM (passes valid_words) (set_iter stems) ;;
  if nonempty candidates then Ok (sort_candidates candidates)
  else Ok [token].

(** [a & b] on sets: CPython walks the smaller operand (the right one when
    the sizes are equal) and keeps its elements found in the other. *)
Definition set_inter (a b : pyset) : pyset :=
  let small := if Nat.ltb (List.length a) (List.length b) then a else b in
  let big := if Nat.ltb (List.length a) (List.length b) then b else a in
  filter (fun x => existsb (stem_eqb x) big) small.

(** [xs[0]] *)
Definition first_item (xs : list Stem) : result Stem :=
  match xs with
  | x :: _ => Ok x
  | [] => Raise IndexError
  end.

Definition get_stem (token : str) (valid_words : option (list str))
  : result Stem :=
  let token := new_stem (normalise token) in
  found <- get_stem_candidates (text token) valid_words ;;
  (* Filter out original token *)
  let candidates := filter (fun c => negb (stem_eqb c token)) found in
  if negb (nonempty candidates) then Ok token
  else
    let no_transformations :=
      filter (fun c => count_transformations c =? 0) candidates in
    let no_contractions :=
      filter (fun c => negb (truthy (contraction c))) candidates in
    let no_tran_cont :=
      set_iter (set_inter (set_of_list no_transformations)
                          (set_of_list no_contractions)) in
    if nonempty no_tran_cont then first_item (sort_candidates no_tran_cont)
    else if nonempty no_contractions then
      first_item (sort_candidates no_contractions)
    else if nonempty no_transformations then
      first_item (sort_candidates no_transformations)
    else first_item (sort_candidates candidates).

(** ** Definitions used to state the properties *)

(** At least one annotation is set (differs from [None]). *)
Definition annotated (c : Stem) : Prop :=
  pre c <> None \/ inf c <> None \/ suf c <> None \/ rep c <> None
  \/ dup c <> None \/ contraction c <> None \/ phoneme_change c <> None
  \/ assimilation c <> None \/ vowel_loss c <> None \/ metathesis c = true.

(** The score of the selector: [|pre| + |inf| + |suf| + |rep| + |dup|]. *)
Definition score (c : Stem) : Z :=
  len_or_empty (pre c) + len_or_empty (inf c) + len_or_empty (suf c)
  + len_or_empty (rep c) + len_or_empty (dup c).

Definition no_transformation (c : Stem) : bool :=
  negb (truthy (phoneme_change c)) && negb (truthy (assimilation c))
  && negb (truthy (vowel_loss c)) && negb (metathesis c).

Definition no_contraction (c : Stem) : bool := negb (truthy (contraction c)).

(** The first non-empty class in the order [T0 ∩ K0], [K0], [T0], all. *)
Definition preferred_class (survivors : list Stem) : list Stem :=
  let t0k0 := filter (fun c => no_transformation c && no_contraction c)
                     survivors in
  let k0 := filter no_contraction survivors in
  let t0 := filter no_transformation survivors in
  if nonempty t0k0 then t0k0
  else if nonempty k0 then k0
  else if nonempty t0 then t0
  else survivors.

(** A character of the alphabet, and strings without any. *)
Definition is_letter (c : ascii) : bool :=
  contains (lower_char c) VOWELS || contains (lower_char c) CONSONANTS.

Definition letterless (s : str) : bool := forallb (fun c => negb (is_letter c)) s.

Definition has_letter (s : str) : bool := existsb is_letter s.

(** *** The patterns of [stem_rep] as the spec lists them

    A pattern is a condition on the text and the number [k] of leading
    characters it removes: the stem is [t[k:]], tagged [rep = t[:k]]. *)

Definition at_ (t : str) (i : Z) : str := slice t (Some i) (Some (i + 1)).

Definition span (t : str) (i j : Z) : str := slice t (Some i) (Some j).

Definition pat_V_V (t : str) : bool :=
  (2 <? len t) && str_eqb (at_ t 0) (at_ t 1) && is_vowel (span t 0 2).
Definition pat_CV_CV (t : str) : bool :=
  (4 <? len t) && str_eqb (span t 0 2) (span t 2 4) && is_consonant (at_ t 0).
Definition pat_CV_CCV (t : str) : bool :=
  (5 <? len t) && str_eqb (at_ t 0) (at_ t 2) && str_eqb (at_ t 1) (at_ t 4)
  && is_consonant (at_ t 0) && is_vowel (at_ t 1).
Definition pat_CC_CCV (t : str) : bool :=
  (5 <? len t) && str_eqb (span t 0 2) (span t 2 4)
  && is_consonant (span t 0 2) && is_vowel (at_ t 4).
Definition pat_CCV_CCV (t : str) : bool :=
  (5 <? len t) && str_eqb (span t 0 2) (span t 3 5)
  && is_consonant (span t 0 2) && is_vowel (at_ t 2).
Definition pat_CV_CCCV (t : str) : bool :=
  (6 <? len t) && str_eqb (at_ t 0) (at_ t 2) && str_eqb (at_ t 1) (at_ t 5)
  && is_consonant (at_ t 0) && is_vowel (at_ t 1).
Definition pat_CC_CCCV (t : str) : bool :=
  (6 <? len t) && str_eqb (span t 0 2) (span t 2 4)
  && is_consonant (span t 0 2) && is_vowel (at_ t 5).
Definition pat_CCV_CCCV (t : str) : bool :=
  (6 <? len t) && str_eqb (span t 0 2) (span t 3 5)
  && str_eqb (at_ t 2) (at_ t 6)
  && is_consonant (span t 0 2) && is_vowel (at_ t 6).
Definition pat_CCC_CCCV (t : str) : bool :=
  (6 <? len t) && str_eqb (span t 0 3) (span t 3 6)
  && is_consonant (span t 0 3) && is_vowel (at_ t 6).
Definition pat_CCCV_CCCV (t : str) : bool :=
  (6 <? len t) && str_eqb (span t 0 4) (span t 4 8)
  && is_consonant (span t 0 3) && is_vowel (at_ t 3).

(** V-V, CV-CV and the patterns on a 2-consonant cluster. *)
Definition patterns_short : list ((str -> bool) * Z) :=
  [(pat_V_V, 1); (pat_CV_CV, 2);
   (pat_CV_CCV, 2); (pat_CC_CCV, 2); (pat_CCV_CCV, 3)].

(** The patterns on a 3-consonant cluster. *)
Definition patterns_long : list ((str -> bool) * Z) :=
  [(pat_CV_CCCV, 2); (pat_CC_CCCV, 2); (pat_CCV_CCCV, 3);
   (pat_CCC_CCCV, 3); (pat_CCCV_CCCV, 4)].

(** The number of characters removed by the first pattern that matches. *)
Definition first_match (patterns : list ((str -> bool) * Z)) (t : str)
  : option Z :=
  option_map snd (find (fun p => fst p t) patterns).

(** What the code selects: a match on a 3-consonant cluster if there is
    one, else the first match among the earlier patterns. *)
Definition rep_choice (t : str) : option Z :=
  match first_match patterns_long t with
  | Some k => Some k
  | None => first_match patterns_short t
  end.

(** *** The stripped stem of [stem_pre] *)

Definition strip_prefix (token : Stem) (prefix : str) : Stem :=
  let stem := set_pre (sslice token (Some (len prefix)) None) prefix in
  match text stem with
  | c0 :: _ => if ch_eqb c0 "-" then sslice stem (Some 1) None else stem
  | [] => stem
  end.



(** The guard [is_acceptable(stem) and is_vowel(stem[0])] as a boolean
    (false on the empty string, where the code raises). *)
Definition acceptable_shape (s : str) : bool :=
  match s with
  | [] => false
  | c0 :: _ =>
      if is_vowel [c0] then
        (len s =? 2) || ((3 <=? len s) && existsb (fun c => is_consonant [c]) s)
      else if is_consonant [c0] then
        (len s =? 3) || ((4 <=? len s) && existsb (fun c => is_vowel [c]) s)
      else false
  end.


(** The head of a list dominates the list. *)
Definition head_is_max (l : list Stem) : Prop :=
  match l with
  | [] => True
  | r :: _ => forall c, In c l -> sort_key c <= sort_key r
  end.

(** ** The other functions of the sources *)

(** [x in s] for two strings: [x] is a contiguous part of [s]. *)
Fixpoint is_substring (x s : str) : bool :=
  startswith s x
  || match s with
     | [] => false
     | _ :: s' => is_substring x s'
     end.

(** [string.punctuation] of the Python standard library. *)
Definition PUNCS : str :=
  "!"%char :: "034"%char :: py "#$%&'()*+,-./:;<=>?@[\]^_`{|}~".

(** A list comprehension whose element expression may raise. *)
Fixpoint mapM {A B : Type} (f : A -> result B) (l : list A) : result (list B) :=
  match l with
  | [] => Ok []
  | x :: l' =>
      y <- f x ;;
      ys <- mapM f l' ;;
      Ok (y :: ys)
  end.

Section Tokens.

(** [nltk.word_tokenize] belongs to a library outside the sources: any
    function from a text to its tokens. *)
Variable word_tokenize : str -> list str.

(** The tokens that [get_stems] stems: with [exclude_punc], those for
    which [token not in PUNCS]. *)
Definition kept_tokens (text : str) (exclude_punc : bool) : list str :=
  let tokens := word_tokenize text in
  if exclude_punc
  then filter (fun token => negb (is_substring token PUNCS)) tokens
  else tokens.

Definition get_stems (text : str) (valid_words : option (list str))
           (exclude_punc : bool) : result (list Stem) :=
  mapM (fun token => get_stem token valid_words)
       (kept_tokens text exclude_punc).

End Tokens.

(** [sorted(..., key=len)]: stable, by ascending length. *)
Fixpoint insert_by_len (x : str) (l : list str) : list str :=
  match l with
  | [] => [x]
  | y :: l' => if len x <=? len y then x :: l else y :: insert_by_len x l'
  end.

Definition sort_by_len (l : list str) : list str :=
  fold_right insert_by_len [] l.

(** [helpers/affixes.py]: [get_affixes] on the lines of its file. *)
Definition get_affixes (lines : list str) : list str :=
  sort_by_len (map strip lines).

(** [helpers/words.py]: [get_words] on the lines of its file. *)
Definition get_words (lines : list str) : list str :=
  map (fun word => lower (strip word)) lines.

(** The index that [s[i]] reads: a negative [i] counts from the end. *)
Definition position (s : str) (i : Z) : Z :=
  if i <? 0 then i + len s else i.

Definition in_range (s : str) (i : Z) : Prop := - len s <= i < len s.

(** [stem_pre] reads [stem[0]] of the stripped stem without a test on its
    length and, when that character is ['r'], [prefix[-1]] and [stem[1]]
    as well: the inputs on which one of these reads is past the end. *)
Definition reads_past_end (stem prefix : str) : bool :=
  match stem with
  | [] => true
  | c :: _ => ch_eqb c "r" && ((len prefix =? 0) || (len stem =? 1))
  end.

(** * Properties *)

(** Whatever the order of iteration, a set yields each of its elements
    once. *)
Hypothesis set_iter_perm : forall s : pyset, Permutation (set_iter s) s.

(** ** Results and loops *)

Lemma bind_ok (A B : Type) (m : result A) (k : A -> result B) (b : B) :
  bind m k = Ok b -> exists a, m = Ok a /\ k a = Ok b.
Proof.
  destruct m as [a|e]; simpl; intro H; [now exists a | discriminate].
Qed.

Lemma foldM_inv (A B : Type) (I : A -> Prop) (f : A -> B -> result A)
      (xs : list B) :
  (forall acc x acc', In x xs -> I acc -> f acc x = Ok acc' -> I acc') ->
  forall acc r, I acc -> foldM f acc xs = Ok r -> I r.
Proof.
  induction xs as [|x xs IH]; simpl; intros Hf acc r Hacc H.
  - now inversion H; subst.
  - apply bind_ok in H as (acc' & H1 & H2).
    apply IH with (acc := acc'); eauto.
Qed.

Lemma foldM_total (A B : Type) (f : A -> B -> result A) (xs : list B) :
  (forall acc x, In x xs -> exists acc', f acc x = Ok acc') ->
  forall acc, exists r, foldM f acc xs = Ok r.
Proof.
  induction xs as [|x xs IH]; simpl; intros Hf acc.
  - now exists acc.
  - destruct (Hf acc x) as (acc' & ->); [now left|]. simpl.
    apply IH. intros; apply Hf; now right.
Qed.

Lemma foldM_raise (A B : Type) (f : A -> B -> result A) (xs : list B) (x : B) :
  In x xs -> (forall acc, f acc x = Raise IndexError) ->
  forall acc, foldM f acc xs = Raise IndexError.
Proof.
  induction xs as [|y xs IH]; simpl; intros Hin Hx acc; [contradiction|].
  destruct Hin as [->|Hin].
  - now rewrite Hx.
  - destruct (f acc y) as [acc'|[]]; simpl; auto.
Qed.

(** ** Strings *)

Lemma ch_eqb_eq (a b : ascii) : ch_eqb a b = true <-> a = b.
Proof. apply Ascii.eqb_eq. Qed.

Lemma ch_eqb_refl (a : ascii) : ch_eqb a a = true.
Proof. now apply ch_eqb_eq. Qed.

Lemma str_eqb_eq (a b : str) : str_eqb a b = true <-> a = b.
Proof.
  revert b; induction a as [|x a IH]; intros [|y b]; simpl;
    try (split; [discriminate|discriminate]); try tauto.
  rewrite andb_true_iff, ch_eqb_eq, IH. split.
  - now intros [-> ->].
  - intro H; now inversion H.
Qed.

Lemma str_eqb_refl (a : str) : str_eqb a a = true.
Proof. now apply str_eqb_eq. Qed.

Lemma str_eqb_neq (a b : str) : str_eqb a b = false <-> a <> b.
Proof.
  rewrite <- str_eqb_eq. destruct (str_eqb a b); split; congruence.
Qed.

Lemma mem_In (x : str) (xs : list str) : mem x xs = true <-> In x xs.
Proof.
  unfold mem. rewrite existsb_exists. split.
  - intros (y & Hy & E). apply str_eqb_eq in E. now subst.
  - intro H. exists x. split; [assumption | apply str_eqb_refl].
Qed.

Lemma len_nonneg (s : str) : 0 <= len s.
Proof. unfold len; lia. Qed.

Lemma len_app (a b : str) : len (a ++ b) = len a + len b.
Proof. unfold len. rewrite length_app. lia. Qed.

Lemma len_nil_iff (s : str) : len s = 0 <-> s = [].
Proof. unfold len. destruct s; simpl; split; intros; try easy; lia. Qed.

(** ** Sets *)


Lemma stem_eqb_eq (a b : Stem) : stem_eqb a b = true <-> text a = text b.
Proof. apply str_eqb_eq. Qed.

Lemma set_add_In (s : pyset) (x y : Stem) :
  In y (set_add s x) -> In y s \/ y = x.
Proof.
  unfold set_add. destruct (existsb (stem_eqb x) s); [now left|].
  rewrite in_app_iff. simpl. intuition.
Qed.

Lemma set_update_In (xs : list Stem) (s : pyset) (y : Stem) :
  In y (set_update s xs) -> In y s \/ In y xs.
Proof.
  unfold set_update. revert s.
  induction xs as [|x xs IH]; simpl; intros s H; [now left|].
  apply IH in H as [H|H]; [|now right; right].
  apply set_add_In in H as [H| ->]; [now left | now right; left].
Qed.

Lemma set_update_keeps (xs : list Stem) (s : pyset) (y : Stem) :
  In y s -> In y (set_update s xs).
Proof.
  unfold set_update. revert s.
  induction xs as [|x xs IH]; simpl; intros s H; [assumption|].
  apply IH. unfold set_add. destruct (existsb (stem_eqb x) s); [assumption|].
  apply in_or_app; now left.
Qed.

Lemma set_update_Forall (P : Stem -> Prop) (xs : list Stem) (s : pyset) :
  Forall P s -> Forall P xs -> Forall P (set_update s xs).
Proof.
  rewrite !Forall_forall. intros Hs Hxs y Hy.
  apply set_update_In in Hy as [Hy|Hy]; auto.
Qed.

Lemma set_add_NoDup (s : pyset) (x : Stem) :
  NoDup (map text s) -> NoDup (map text (set_add s x)).
Proof.
  unfold set_add. intro H. destruct (existsb (stem_eqb x) s) eqn:E; [assumption|].
  rewrite map_app. simpl.
  apply NoDup_rev in H. rewrite <- rev_involutive. apply NoDup_rev.
  rewrite rev_app_distr. simpl. constructor; [|assumption].
  rewrite <- in_rev, in_map_iff. intros (y & Hy & Hin).
  assert (existsb (stem_eqb x) s = true); [|congruence].
  apply existsb_exists. exists y. split; [assumption|]. now apply stem_eqb_eq.
Qed.

Lemma set_update_NoDup (xs : list Stem) (s : pyset) :
  NoDup (map text s) -> NoDup (map text (set_update s xs)).
Proof.
  unfold set_update. revert s.
  induction xs as [|x xs IH]; simpl; intros s H; [assumption|].
  apply IH. now apply set_add_NoDup.
Qed.

Lemma set_iter_In (s : pyset) (x : Stem) : In x (set_iter s) <-> In x s.
Proof.
  split; apply Permutation_in; [apply set_iter_perm|].
  apply Permutation_sym, set_iter_perm.
Qed.

Lemma set_iter_Forall (P : Stem -> Prop) (s : pyset) :
  Forall P s -> Forall P (set_iter s).
Proof.
  rewrite !Forall_forall. intros H x Hx. now apply H, set_iter_In.
Qed.

Lemma set_iter_NoDup (s : pyset) :
  NoDup (map text s) -> NoDup (map text (set_iter s)).
Proof.
  intro H. eapply Permutation_NoDup; [|exact H].
  apply Permutation_map, Permutation_sym, set_iter_perm.
Qed.

(** ** The loops of the rules *)

Lemma add_loop_Forall (B : Type) (P : Stem -> Prop)
      (emit : B -> result (list Stem)) (xs : list B) :
  (forall x out, In x xs -> emit x = Ok out -> Forall P out) ->
  forall stems r,
    Forall P stems ->
    foldM (fun stems x => out <- emit x ;; Ok (set_update stems out)) stems xs
    = Ok r ->
    Forall P r.
Proof.
  intros Hemit. apply foldM_inv. intros acc x acc' Hin Hacc H.
  apply bind_ok in H as (out & Hout & H). inversion H; subst.
  apply set_update_Forall; eauto.
Qed.

Lemma add_loop_NoDup (B : Type) (emit : B -> result (list Stem)) (xs : list B) :
  forall stems r,
    NoDup (map text stems) ->
    foldM (fun stems x => out <- emit x ;; Ok (set_update stems out)) stems xs
    = Ok r ->
    NoDup (map text r).
Proof.
  apply foldM_inv. intros acc x acc' _ Hacc H.
  apply bind_ok in H as (out & Hout & H). inversion H; subst.
  now apply set_update_NoDup.
Qed.

Lemma add_loop_total (B : Type) (emit : B -> result (list Stem)) (xs : list B) :
  (forall x, In x xs -> exists out, emit x = Ok out) ->
  forall stems,
    exists r,
      foldM (fun stems x => out <- emit x ;; Ok (set_update stems out)) stems xs
      = Ok r.
Proof.
  intros Hemit. apply foldM_total. intros acc x Hin.
  destruct (Hemit x Hin) as (out & ->). simpl. eauto.
Qed.

(** When nothing is emitted, the set is left as it is. *)
Lemma add_loop_silent (B : Type) (emit : B -> result (list Stem)) (xs : list B) :
  (forall x, In x xs -> emit x = Ok []) ->
  forall stems,
    foldM (fun stems x => out <- emit x ;; Ok (set_update stems out)) stems xs
    = Ok stems.
Proof.
  induction xs as [|x xs IH]; simpl; intros Hemit stems; [reflexivity|].
  rewrite Hemit by now left. simpl. apply IH. intros; apply Hemit; now right.
Qed.

(** The two nested loops of a rule with affixes. *)
Lemma nested_loop_Forall (B : Type) (P : Stem -> Prop)
      (emit : Stem -> B -> result (list Stem)) (xs : list B)
      (tokens : list Stem) :
  (forall token x out,
      In token tokens -> In x xs -> emit token x = Ok out -> Forall P out) ->
  forall stems r,
    Forall P stems ->
    foldM (fun stems token =>
             foldM (fun stems x =>
                      out <- emit token x ;; Ok (set_update stems out))
                   stems xs)
          stems tokens = Ok r ->
    Forall P r.
Proof.
  intros Hemit stems r Hstems H.
  apply foldM_inv with (I := Forall P) (2 := Hstems) (3 := H).
  intros acc token acc' Hin Hacc H'.
  eapply add_loop_Forall; [|exact Hacc|exact H']. eauto.
Qed.

Lemma nested_loop_NoDup (B : Type)
      (emit : Stem -> B -> result (list Stem)) (xs : list B)
      (tokens : list Stem) :
  forall stems r,
    NoDup (map text stems) ->
    foldM (fun stems token =>
             foldM (fun stems x =>
                      out <- emit token x ;; Ok (set_update stems out))
                   stems xs)
          stems tokens = Ok r ->
    NoDup (map text r).
Proof.
  intros stems r Hstems H.
  apply foldM_inv with (I := fun s => NoDup (map text s)) (2 := Hstems) (3 := H).
  intros acc token acc' Hin Hacc H'.
  eapply add_loop_NoDup; [exact Hacc|exact H'].
Qed.

Lemma nested_loop_silent (B : Type)
      (emit : Stem -> B -> result (list Stem)) (xs : list B)
      (tokens : list Stem) :
  (forall token x, In token tokens -> In x xs -> emit token x = Ok []) ->
  forall stems,
    foldM (fun stems token =>
             foldM (fun stems x =>
                      out <- emit token x ;; Ok (set_update stems out))
                   stems xs)
          stems tokens = Ok stems.
Proof.
  induction tokens as [|t tokens IH]; simpl; intros Hemit stems; [reflexivity|].
  rewrite add_loop_silent by (intros; apply Hemit; auto). simpl.
  apply IH. intros; apply Hemit; auto.
Qed.

Lemma nested_loop_total (B : Type)
      (emit : Stem -> B -> result (list Stem)) (xs : list B)
      (tokens : list Stem) :
  (forall token x, In token tokens -> In x xs -> exists out, emit token x = Ok out) ->
  forall stems,
    exists r,
      foldM (fun stems token =>
               foldM (fun stems x =>
                        out <- emit token x ;; Ok (set_update stems out))
                     stems xs)
            stems tokens = Ok r.
Proof.
  intros Hemit. apply foldM_total. intros acc token Hin.
  apply add_loop_total. eauto.
Qed.

(** ** Every rule annotates what it emits *)

(** One step through the hypotheses of the form [m = Ok _] on monadic
    code. Conditions (of type [result bool]) are left as they are. *)
Ltac not_bool T := lazymatch T with bool => fail | _ => idtac end.

Ltac step :=
  match goal with
  | H : Ok _ = Ok _ |- _ => inversion H; subst; clear H
  | H : Raise _ = Ok _ |- _ => discriminate H
  | H : bind ?m _ = @Ok ?T _ |- _ =>
      not_bool T;
      let E := fresh "E" in
      destruct m eqn:E; cbn [bind] in H; [|discriminate H]
  | H : (if ?b then _ else _) = @Ok ?T _ |- _ =>
      not_bool T;
      let E := fresh "E" in destruct b eqn:E
  | H : match ?x with _ => _ end = @Ok ?T _ |- _ =>
      not_bool T;
      let E := fresh "E" in destruct x eqn:E
  end.

Ltac steps := repeat step.

(** Splits the conditionals left in a goal on emitted lists. *)
Ltac split_ifs :=
  repeat match goal with
         | |- context [if ?b then _ else _] => destruct b
         | |- context [match ?x with _ => _ end] => destruct x
         end.

(** Finds the annotation that a record visibly carries. *)
Ltac find_tag :=
  cbn; first [discriminate | reflexivity | left; discriminate | right; find_tag].

Ltac all_tagged :=
  split_ifs; cbn;
  repeat (first [apply Forall_nil | apply Forall_cons]);
  unfold annotated; find_tag.

Lemma stem_pre_emit_annotated (token : Stem) (prefix : str) (out : list Stem) :
  stem_pre_emit token prefix = Ok out -> Forall annotated out.
Proof.
  unfold stem_pre_emit. intro H. cbv zeta in H. steps.
  all: all_tagged.
Qed.

Lemma stem_inf_emit_annotated (token : Stem) (infix : str) (out : list Stem) :
  stem_inf_emit token infix = Ok out -> Forall annotated out.
Proof.
  unfold stem_inf_emit, emit_if, sgetitem. intro H. cbv zeta in H.
  steps.
  all: all_tagged.
Qed.

Lemma stem_rep_emit_annotated (token : Stem) (out : list Stem) :
  stem_rep_emit token = Ok out -> Forall annotated out.
Proof.
  unfold stem_rep_emit, stem_rep_match, stem_rep_first, stem_rep_second, emit_if,
    cut_rep.
  intro H. cbv zeta in H. steps.
  all: all_tagged.
Qed.

Lemma stem_dup_parts_annotated (first second : Stem) (out : list Stem) :
  stem_dup_parts first second = Ok out -> Forall annotated out.
Proof.
  unfold stem_dup_parts. intro H. cbv zeta in H. steps.
  all: all_tagged.
Qed.

Lemma stem_dup_emit_annotated (token : Stem) (out : list Stem) :
  stem_dup_emit token = Ok out -> Forall annotated out.
Proof.
  unfold stem_dup_emit. intro H. cbv zeta in H. steps.
  all: try (now constructor); eauto using stem_dup_parts_annotated.
Qed.

Lemma stem_vowel_loss_annotated (tokens : pyset)
      (valid_words : option (list str)) (r : pyset) :
  stem_vowel_loss tokens valid_words = Ok r -> Forall annotated r.
Proof.
  unfold stem_vowel_loss. apply nested_loop_Forall; [|constructor].
  intros token vowel out _ _ H.
  unfold stem_vowel_loss_emit, emit_valid in H. cbv zeta in H. steps.
  all: all_tagged.
Qed.

Lemma stem_suf_derive_annotated (stem : Stem) (suffix : str)
      (valid_words : option (list str)) (out : list Stem) :
  stem_suf_derive stem suffix valid_words = Ok out -> Forall annotated out.
Proof.
  unfold stem_suf_derive, replace_letter, swap_letters. intro H.
  cbv zeta in H. steps.
  all: repeat (apply Forall_app; split).
  all: try match goal with
            | |- Forall _ (if nonempty ?l then _ else _) =>
                destruct (nonempty l); [|apply Forall_nil]
            end.
  all: try (apply set_iter_Forall; eapply stem_vowel_loss_annotated; eassumption).
  all: all_tagged.
Qed.

Lemma stem_suf_emit_annotated (token : Stem) (suffix : str)
      (valid_words : option (list str)) (out : list Stem) :
  stem_suf_emit token suffix valid_words = Ok out -> Forall annotated out.
Proof.
  unfold stem_suf_emit, stem_suf_tag. intro H. cbv zeta in H. steps.
  all: try apply Forall_nil.
  all: apply Forall_cons;
    [unfold annotated; find_tag | eapply stem_suf_derive_annotated; eassumption].
Qed.

Lemma run_rule_annotated (f : rule) (tokens : pyset)
      (valid_words : option (list str)) (new : pyset) :
  run_rule f tokens valid_words = Ok new -> Forall annotated new.
Proof.
  destruct f; simpl.
  - unfold stem_dup. apply add_loop_Forall; [|constructor].
    intros x out _. apply stem_dup_emit_annotated.
  - unfold stem_pre. apply nested_loop_Forall; [|constructor].
    intros token x out _ _. apply stem_pre_emit_annotated.
  - unfold stem_rep. apply add_loop_Forall; [|constructor].
    intros x out _. apply stem_rep_emit_annotated.
  - unfold stem_inf. apply nested_loop_Forall; [|constructor].
    intros token x out _ _. apply stem_inf_emit_annotated.
  - unfold stem_suf. apply nested_loop_Forall; [|constructor].
    intros token x out _ _. apply stem_suf_emit_annotated.
Qed.

(** ** The cascade *)

(** A property of the frontier that every stage keeps is kept by the
    cascade. *)
Lemma apply_stemming_inv (I : pyset -> Prop) (functions : list rule)
      (valid_words : option (list str)) :
  (forall f tokens new,
      In f functions -> I tokens -> run_rule f tokens valid_words = Ok new ->
      I (set_update tokens (set_iter new))) ->
  forall tokens r,
    I tokens -> apply_stemming functions tokens valid_words = Ok r -> I r.
Proof.
  intros Hstage tokens r Htokens H. unfold apply_stemming in H.
  apply foldM_inv with (I := I) (2 := Htokens) (3 := H).
  intros acc f acc' Hin Hacc H'.
  apply bind_ok in H' as (new & Hnew & H'). inversion H'; subst. eauto.
Qed.

Lemma apply_stemming_NoDup (functions : list rule) (tokens r : pyset)
      (valid_words : option (list str)) :
  NoDup (map text tokens) ->
  apply_stemming functions tokens valid_words = Ok r ->
  NoDup (map text r).
Proof.
  apply apply_stemming_inv with (I := fun s => NoDup (map text s)).
  intros f s new _ Hs _. now apply set_update_NoDup.
Qed.

(** Every record of the frontier is the input record or carries an
    annotation. *)
Lemma apply_stemming_annotated (functions : list rule) (token : Stem)
      (r : pyset) (valid_words : option (list str)) :
  apply_stemming functions [token] valid_words = Ok r ->
  Forall (fun c => c = token \/ annotated c) r.
Proof.
  apply apply_stemming_inv
    with (I := Forall (fun c => c = token \/ annotated c)).
  - intros f s new _ Hs Hnew. apply set_update_Forall; [assumption|].
    apply set_iter_Forall. apply run_rule_annotated in Hnew.
    eapply Forall_impl; [|exact Hnew]. now right.
  - constructor; [now left | constructor].
Qed.

(** ** Normalisation *)

Lemma is_space_lower (c : ascii) : is_space (lower_char c) = is_space c.
Proof. destruct c as [[] [] [] [] [] [] [] []]; reflexivity. Qed.

Lemma lower_char_idem (c : ascii) : lower_char (lower_char c) = lower_char c.
Proof. destruct c as [[] [] [] [] [] [] [] []]; reflexivity. Qed.

Lemma lower_idem (s : str) : lower (lower s) = lower s.
Proof.
  unfold lower. rewrite map_map. apply map_ext, lower_char_idem.
Qed.

Lemma lstrip_lower (s : str) : lstrip (lower s) = lower (lstrip s).
Proof.
  induction s as [|c s IH]; simpl; [reflexivity|].
  rewrite is_space_lower. now destruct (is_space c).
Qed.

Lemma strip_lower (s : str) : strip (lower s) = lower (strip s).
Proof.
  unfold strip, rstrip, lower. fold (lower s). rewrite lstrip_lower.
  unfold lower. rewrite <- map_rev. fold (lower (rev (lstrip s))).
  rewrite lstrip_lower. unfold lower. now rewrite map_rev.
Qed.

Lemma lstrip_idem (s : str) : lstrip (lstrip s) = lstrip s.
Proof.
  induction s as [|c s IH]; simpl; [reflexivity|].
  destruct (is_space c) eqn:E; [assumption|]. simpl. now rewrite E.
Qed.

(** A string that starts with a non-space keeps its first character
    when its trailing spaces are removed. *)
Lemma lstrip_app_nonspace (s : str) (c : ascii) (t : str) :
  is_space c = false -> lstrip (s ++ c :: t) = lstrip s ++ c :: t \/
                        exists u, lstrip (s ++ c :: t) = u ++ c :: t.
Proof.
  intro Hc. induction s as [|d s IH]; simpl.
  - rewrite Hc. now left.
  - destruct (is_space d); [assumption|]. right. now exists (d :: s).
Qed.

Lemma rstrip_head (c : ascii) (s : str) :
  is_space c = false -> exists u, rstrip (c :: s) = c :: u.
Proof.
  intro Hc. unfold rstrip. simpl.
  assert (exists u, lstrip (rev s ++ [c]) = u ++ [c]) as (u & ->).
  { destruct (lstrip_app_nonspace (rev s) c [] Hc) as [H|H]; eauto. }
  rewrite rev_app_distr. simpl. eauto.
Qed.

Lemma lstrip_head (s : str) (c : ascii) (l : str) :
  lstrip s = c :: l -> is_space c = false.
Proof.
  induction s as [|d s IH]; simpl; [discriminate|].
  destruct (is_space d) eqn:E; [assumption|]. intro H. now inversion H; subst.
Qed.

Lemma strip_idem (s : str) : strip (strip s) = strip s.
Proof.
  unfold strip.
  assert (H : lstrip (rstrip (lstrip s)) = rstrip (lstrip s)).
  { destruct (lstrip s) as [|c l] eqn:E; [reflexivity|].
    apply lstrip_head in E.
    destruct (rstrip_head c l E) as (u & ->). simpl. now rewrite E. }
  rewrite H. unfold rstrip at 1 2. rewrite rev_involutive, lstrip_idem.
  reflexivity.
Qed.

Lemma normalise_idem (token : str) : normalise (normalise token) = normalise token.
Proof.
  unfold normalise. rewrite strip_lower, strip_idem, lower_idem. reflexivity.
Qed.

(** ** Sorting the candidates *)

Lemma sort_key_score (c : Stem) : sort_key c = score c.
Proof.
  unfold sort_key, score, count_affixes, count_reduplication. lia.
Qed.

Lemma insert_desc_perm (x : Stem) (l : list Stem) :
  Permutation (insert_desc x l) (x :: l).
Proof.
  induction l as [|y l IH]; simpl; [reflexivity|].
  destruct (sort_key y <=? sort_key x); [reflexivity|].
  rewrite IH. apply perm_swap.
Qed.

Lemma sort_candidates_perm (l : list Stem) : Permutation (sort_candidates l) l.
Proof.
  induction l as [|x l IH]; simpl; [reflexivity|].
  rewrite insert_desc_perm. now constructor.
Qed.

Lemma sort_candidates_In (l : list Stem) (x : Stem) :
  In x (sort_candidates l) <-> In x l.
Proof.
  split; apply Permutation_in;
    [apply sort_candidates_perm | apply Permutation_sym, sort_candidates_perm].
Qed.

Lemma insert_desc_head (x : Stem) (l : list Stem) :
  head_is_max l -> head_is_max (insert_desc x l).
Proof.
  destruct l as [|y l]; simpl.
  - intros _ c [->|[]]. lia.
  - intro Hy. destruct (sort_key y <=? sort_key x) eqn:E.
    + apply Z.leb_le in E. intros c [->|Hc]; [lia|].
      specialize (Hy c Hc). lia.
    + apply Z.leb_gt in E. intros c [->|Hc]; [lia|].
      apply (Permutation_in _ (insert_desc_perm x l)) in Hc.
      destruct Hc as [->|Hc]; [lia|]. apply Hy. now right.
Qed.

Lemma sort_candidates_head (l : list Stem) : head_is_max (sort_candidates l).
Proof.
  induction l as [|x l IH]; simpl; [exact I|]. now apply insert_desc_head.
Qed.

(** [sort_candidates(l)[0]] on a non-empty list: an element of [l] of
    maximal score. *)
Lemma first_sorted (l : list Stem) :
  l <> [] ->
  exists r, first_item (sort_candidates l) = Ok r
            /\ In r l /\ forall c, In c l -> score c <= score r.
Proof.
  intro Hl. pose proof (sort_candidates_head l) as Hmax.
  pose proof (sort_candidates_perm l) as Hperm.
  destruct (sort_candidates l) as [|r s] eqn:E.
  - apply Permutation_nil in Hperm. contradiction.
  - exists r. split; [reflexivity|]. split.
    + apply sort_candidates_In. rewrite E. now left.
    + intros c Hc. rewrite <- !sort_key_score. apply Hmax.
      apply sort_candidates_In in Hc. now rewrite E in Hc.
Qed.

(** ** Lists without two records of equal text *)

Lemma nonempty_true (A : Type) (l : list A) : nonempty l = true <-> l <> [].
Proof. destruct l; simpl; split; congruence. Qed.

Lemma nonempty_false (A : Type) (l : list A) : nonempty l = false <-> l = [].
Proof. destruct l; simpl; split; congruence. Qed.

Lemma nonempty_In (A : Type) (l : list A) :
  nonempty l = true <-> exists x, In x l.
Proof.
  destruct l as [|x l]; simpl; split; try congruence.
  - intros (x & []).
  - intros _. exists x. now left.
Qed.

Lemma NoDup_text_filter (f : Stem -> bool) (l : list Stem) :
  NoDup (map text l) -> NoDup (map text (filter f l)).
Proof.
  induction l as [|x l IH]; simpl; intro H; [constructor|].
  inversion H as [|? ? Hx Hl]; subst.
  destruct (f x); simpl; [constructor|]; auto.
  rewrite in_map_iff in *. intros (y & Hy & Hin). apply Hx.
  exists y. split; [assumption|]. now apply filter_In in Hin.
Qed.

Lemma NoDup_text_inj (l : list Stem) (x y : Stem) :
  NoDup (map text l) -> In x l -> In y l -> text x = text y -> x = y.
Proof.
  induction l as [|z l IH]; simpl; intros H Hx Hy E; [contradiction|].
  inversion H as [|? ? Hz Hl]; subst.
  destruct Hx as [->|Hx], Hy as [->|Hy]; auto.
  - exfalso. apply Hz. rewrite E. now apply in_map.
  - exfalso. apply Hz. rewrite <- E. now apply in_map.
Qed.

Lemma set_update_fresh (xs : list Stem) (s : pyset) :
  NoDup (map text (s ++ xs)) -> set_update s xs = s ++ xs.
Proof.
  unfold set_update. revert s.
  induction xs as [|x xs IH]; simpl; intros s H; [now rewrite app_nil_r|].
  assert (E : existsb (stem_eqb x) s = false).
  { apply not_true_is_false. intro E. apply existsb_exists in E as (y & Hy & E).
    apply stem_eqb_eq in E. rewrite map_app in H. simpl in H.
    apply NoDup_remove_2 in H. apply H. apply in_or_app. left.
    rewrite E. now apply in_map. }
  unfold set_add at 2. rewrite E. rewrite IH; rewrite <- app_assoc; auto.
Qed.

Lemma set_of_list_fresh (xs : list Stem) :
  NoDup (map text xs) -> set_of_list xs = xs.
Proof. intro H. unfold set_of_list. now rewrite set_update_fresh. Qed.

(** On two sublists of a list without duplicate texts, the intersection
    of sets holds the records that are in both. *)
Lemma set_inter_In (l a b : list Stem) (x : Stem) :
  NoDup (map text l) -> incl a l -> incl b l ->
  In x (set_inter a b) <-> In x a /\ In x b.
Proof.
  intros Hl Ha Hb. unfold set_inter.
  destruct (Nat.ltb (List.length a) (List.length b));
    rewrite filter_In, existsb_exists; split.
  - intros (Hx & y & Hy & E). split; [assumption|]. apply stem_eqb_eq in E.
    assert (x = y) by (eapply NoDup_text_inj; eauto). now subst.
  - intros (Hxa & Hxb). split; [assumption|]. exists x. split; [assumption|].
    now apply stem_eqb_eq.
  - intros (Hx & y & Hy & E). split; [|assumption]. apply stem_eqb_eq in E.
    assert (x = y) by (eapply NoDup_text_inj; eauto). now subst.
  - intros (Hxa & Hxb). split; [assumption|]. exists x. split; [assumption|].
    now apply stem_eqb_eq.
Qed.

Lemma no_transformation_count (c : Stem) :
  (count_transformations c =? 0) = no_transformation c.
Proof.
  unfold count_transformations, no_transformation.
  destruct (truthy (phoneme_change c)), (truthy (assimilation c)),
    (truthy (vowel_loss c)), (metathesis c); reflexivity.
Qed.

(** ** The candidates *)

Lemma filterM_In (p : Stem -> result bool) (l r : list Stem) (x : Stem) :
  filterM p l = Ok r -> In x r <-> In x l /\ p x = Ok true.
Proof.
  revert r. induction l as [|y l IH]; simpl; intros r H.
  - inversion H; subst. simpl. tauto.
  - apply bind_ok in H as (b & Hb & H). apply bind_ok in H as (r' & Hr' & H).
    inversion H; subst. specialize (IH r' Hr').
    destruct b; simpl; rewrite IH; split.
    + intros [->|[? ?]]; auto.
    + intros [[->|?] ?]; auto.
    + intros [? ?]; auto.
    + intros [[->|?] ?]; [congruence | auto].
Qed.

Lemma filterM_NoDup (p : Stem -> result bool) (l r : list Stem) :
  filterM p l = Ok r -> NoDup (map text l) -> NoDup (map text r).
Proof.
  revert r. induction l as [|y l IH]; simpl; intros r H Hl.
  - inversion H; subst. constructor.
  - apply bind_ok in H as (b & Hb & H). apply bind_ok in H as (r' & Hr' & H).
    inversion H; subst. inversion Hl as [|? ? Hy Hl']; subst.
    destruct b; [|auto]. simpl. constructor; [|auto].
    rewrite in_map_iff in *. intros (z & Hz & Hin). apply Hy.
    exists z. split; [assumption|]. now apply (filterM_In p l z Hr').
Qed.

(** What [get_stem_candidates] returns, when it returns: the sorted
    survivors of the two filters, or else the input alone. *)
Lemma get_stem_candidates_spec (token : str) (valid_words : option (list str))
      (found : list Stem) :
  get_stem_candidates token valid_words = Ok found ->
  let tok := new_stem (normalise token) in
  NoDup (map text found)
  /\ found <> []
  /\ Forall (fun c => c = tok \/ annotated c) found
  /\ ((forall c, In c found -> passes valid_words c = Ok true)
      \/ found = [tok]).
Proof.
  unfold get_stem_candidates. intro H. cbv zeta in H.
  apply bind_ok in H as (stems & Hstems & H).
  apply bind_ok in H as (candidates & Hcand & H).
  pose proof (apply_stemming_annotated _ _ _ Hstems) as Hann.
  assert (Hnd : NoDup (map text stems)).
  { eapply apply_stemming_NoDup; [|exact Hstems]. simpl.
    constructor; [intros []|constructor]. }
  destruct (nonempty candidates) eqn:E; inversion H; subst; clear H.
  - split; [|split; [|split]].
    + eapply Permutation_NoDup.
      * apply Permutation_map, Permutation_sym, sort_candidates_perm.
      * eapply filterM_NoDup; [exact Hcand|]. now apply set_iter_NoDup.
    + apply nonempty_true in E. intro H. apply E.
      pose proof (sort_candidates_perm candidates) as P. rewrite H in P.
      now apply Permutation_nil in P.
    + apply Forall_forall. intros c Hc. apply (proj1 (sort_candidates_In _ _)) in Hc.
      apply (proj1 (filterM_In _ _ c Hcand)) in Hc as [Hc _].
      apply (proj1 (set_iter_In _ _)) in Hc. rewrite Forall_forall in Hann. auto.
    + left. intros c Hc. apply (proj1 (sort_candidates_In _ _)) in Hc.
      now apply (proj1 (filterM_In _ _ c Hcand)) in Hc.
  - split; [|split; [|split]].
    + simpl. constructor; [intros []|constructor].
    + discriminate.
    + constructor; [now left|constructor].
    + now right.
Qed.

(** ** The selector *)

Lemma filter_incl (A : Type) (f : A -> bool) (l : list A) : incl (filter f l) l.
Proof. intros x Hx. now apply filter_In in Hx. Qed.

(** The list on which the code takes its first sorted item has the
    elements of the preferred class. *)
Lemma get_stem_selects (token : str) (valid_words : option (list str))
      (found : list Stem) :
  get_stem_candidates (normalise token) valid_words = Ok found ->
  let tok := new_stem (normalise token) in
  let survivors := filter (fun c => negb (stem_eqb c tok)) found in
  exists r,
    get_stem token valid_words = Ok r
    /\ (survivors = [] -> r = tok)
    /\ (survivors <> [] ->
        In r (preferred_class survivors)
        /\ forall c, In c (preferred_class survivors) -> score c <= score r).
Proof.
  intros Hfound tok survivors.
  destruct (get_stem_candidates_spec _ _ Hfound) as (Hnd & _).
  assert (Hs : NoDup (map text survivors)) by now apply NoDup_text_filter.
  unfold get_stem. cbv zeta. cbn [text new_stem]. rewrite Hfound. cbn [bind].
  fold tok. fold survivors.
  destruct (nonempty survivors) eqn:E; cbn [negb].
  2:{ apply nonempty_false in E. exists tok. repeat split; congruence. }
  apply nonempty_true in E.
  rewrite (filter_ext _ _ no_transformation_count).
  fold no_contraction.
  change (filter (fun c => negb (truthy (contraction c))) survivors)
    with (filter no_contraction survivors).
  set (T0 := filter no_transformation survivors).
  set (K0 := filter no_contraction survivors).
  set (T0K0 := filter (fun c => no_transformation c && no_contraction c)
                      survivors).
  assert (Hin : forall x,
             In x (set_iter (set_inter (set_of_list T0) (set_of_list K0)))
             <-> In x T0K0).
  { intro x. rewrite set_iter_In.
    rewrite !set_of_list_fresh by now apply NoDup_text_filter.
    rewrite (@set_inter_In survivors T0 K0 x Hs (@filter_incl _ _ _) (@filter_incl _ _ _)).
    unfold T0, K0, T0K0. rewrite !filter_In, andb_true_iff. tauto. }
  set (L := set_iter (set_inter (set_of_list T0) (set_of_list K0))) in *.
  assert (HL : nonempty L = nonempty T0K0).
  { destruct (nonempty T0K0) eqn:E1.
    - apply nonempty_In in E1 as (x & Hx). apply nonempty_In. exists x.
      now apply Hin.
    - apply not_true_is_false. intro E2. apply nonempty_In in E2 as (x & Hx).
      apply Hin in Hx. apply nonempty_false in E1. rewrite E1 in Hx.
      contradiction. }
  unfold preferred_class. fold T0K0 K0 T0. rewrite HL.
  assert (Hpick : forall l : list Stem,
             l <> [] ->
             exists r, first_item (sort_candidates l) = Ok r
                       /\ (survivors = [] -> r = tok)
                       /\ (survivors <> [] ->
                           In r l /\ forall c, In c l -> score c <= score r)).
  { intros l Hl. destruct (first_sorted Hl) as (r & Hr & Hrl & Hmax).
    exists r. repeat split; auto. congruence. }
  destruct (nonempty T0K0) eqn:E1.
  - assert (HLne : L <> []) by (apply nonempty_true; congruence).
    destruct (first_sorted HLne) as (r & Hr & Hrl & Hmax).
    exists r. split; [exact Hr|]. split; [congruence|]. intros _. split.
    + now apply Hin.
    + intros c Hc. apply Hmax. now apply Hin.
  - destruct (nonempty K0) eqn:E2; [apply Hpick; now apply nonempty_true|].
    destruct (nonempty T0) eqn:E3; [apply Hpick; now apply nonempty_true|].
    now apply Hpick.
Qed.

Lemma preferred_class_incl (survivors : list Stem) :
  incl (preferred_class survivors) survivors.
Proof.
  unfold preferred_class. cbv zeta.
  repeat match goal with
         | |- context [if ?b then _ else _] => destruct b
         end; auto using filter_incl, incl_refl.
Qed.

(** What [get_stem] returns is the input record or one of the candidates
    with another text. *)
Lemma get_stem_result (token : str) (valid_words : option (list str))
      (found : list Stem) :
  get_stem_candidates (normalise token) valid_words = Ok found ->
  let tok := new_stem (normalise token) in
  exists r,
    get_stem token valid_words = Ok r
    /\ ((forall c, In c found -> text c = normalise token) -> r = tok)
    /\ ((exists c, In c found /\ text c <> normalise token) ->
        In r found /\ text r <> normalise token).
Proof.
  intros Hfound tok.
  destruct (@get_stem_selects token valid_words found Hfound) as (r & Hr & Hnil & Hcons).
  fold tok in Hnil, Hcons. exists r. split; [exact Hr|]. split.
  - intro Hall. apply Hnil.
    destruct (filter _ found) as [|c l] eqn:E; [reflexivity|].
    assert (Hc : In c (filter (fun c => negb (stem_eqb c tok)) found))
      by (rewrite E; now left).
    apply filter_In in Hc as [Hc Hne]. apply Hall in Hc.
    apply negb_true_iff, not_true_iff_false in Hne.
    exfalso. apply Hne. now apply stem_eqb_eq.
  - intros (c & Hc & Hne).
    assert (Hin : In c (filter (fun c => negb (stem_eqb c tok)) found)).
    { apply filter_In. split; [assumption|]. apply negb_true_iff.
      apply not_true_is_false. intro E. now apply stem_eqb_eq in E. }
    destruct Hcons as [Hr' _]; [intro E; now rewrite E in Hin|].
    apply preferred_class_incl, filter_In in Hr' as [Hr' Hne'].
    split; [assumption|]. apply negb_true_iff in Hne'.
    intro E. apply not_true_iff_false in Hne'. apply Hne'.
    now apply stem_eqb_eq.
Qed.

(** C1. After the original token is filtered out, [get_stem] returns a
    candidate of the first non-empty class among: no transformation and
    no contraction; no contraction; no transformation; all survivors. The
    returned candidate has the maximum score of that class, the score
    being the sum of the lengths of [pre], [inf], [suf], [rep] and [dup]
    (0 when absent). When no candidate survives, the token is returned. *)
Theorem get_stem_preference_and_score
        (token : str) (valid_words : option (list str)) (found : list Stem) :
  get_stem_candidates (normalise token) valid_words = Ok found ->
  let tok := new_stem (normalise token) in
  let survivors := filter (fun c => negb (stem_eqb c tok)) found in
  let t0k0 :=
    filter (fun c => no_transformation c && no_contraction c) survivors in
  let k0 := filter no_contraction survivors in
  let t0 := filter no_transformation survivors in
  let best_of (class : list Stem) (r : Stem) :=
    In r class /\ forall c, In c class -> score c <= score r in
  exists r,
    get_stem token valid_words = Ok r
    /\ (survivors = [] -> r = tok)
    /\ (t0k0 <> [] -> best_of t0k0 r)
    /\ (t0k0 = [] -> k0 <> [] -> best_of k0 r)
    /\ (t0k0 = [] -> k0 = [] -> t0 <> [] -> best_of t0 r)
    /\ (t0k0 = [] -> k0 = [] -> t0 = [] -> survivors <> [] ->
        best_of survivors r).
Proof.
  intros Hfound tok survivors t0k0 k0 t0 best_of.
  destruct (@get_stem_selects token valid_words found Hfound) as (r & Hr & Hnil & Hcons).
  fold tok in Hnil, Hcons. fold survivors in Hnil, Hcons.
  exists r. split; [exact Hr|]. split; [exact Hnil|].
  assert (Hsub : forall (f : Stem -> bool), filter f survivors <> [] ->
                                            survivors <> []).
  { intros f H E. apply H. now rewrite E. }
  unfold preferred_class in Hcons. cbv zeta in Hcons.
  fold t0k0 k0 t0 in Hcons.
  split; [|split; [|split]].
  - intro H. pose proof H as H'. apply nonempty_true in H'.
    rewrite H' in Hcons. apply Hcons. eapply Hsub, H.
  - intros H1 H2. pose proof H2 as H'. apply nonempty_true in H'.
    rewrite H1, H' in Hcons. apply Hcons. eapply Hsub, H2.
  - intros H1 H2 H3. pose proof H3 as H'. apply nonempty_true in H'.
    rewrite H1, H2, H' in Hcons. apply Hcons. eapply Hsub, H3.
  - intros H1 H2 H3 H4. rewrite H1, H2, H3 in Hcons. now apply Hcons.
Qed.


(** C9. With the empty list as lexicon, [is_valid] accepts every token
    (it returns the token), exactly as with an absent lexicon. *)
Theorem is_valid_empty_lexicon (token : Stem) :
  is_valid token (Some []) = Some token
  /\ is_valid token (Some []) = is_valid token None.
Proof. split; reflexivity. Qed.

Lemma passes_valid (lexicon : list str) (c : Stem) :
  lexicon <> [] -> passes (Some lexicon) c = Ok true -> In (text c) lexicon.
Proof.
  intros Hne H. unfold passes, is_valid in H.
  destruct lexicon as [|x l]; [contradiction|].
  destruct (mem (text c) (x :: l)) eqn:E; [now apply mem_In|].
  simpl in H. discriminate.
Qed.

(** C4 (amended). For a normalised word [w] of the lexicon on which the
    generation of candidates returns, [get_stem] returns a word of the
    lexicon: [w] itself when [get_stem_candidates] holds no candidate of
    another text, and otherwise one of the candidates of another text. *)
Theorem stem_of_lexicon_word
        (w : str) (lexicon : list str) (found : list Stem) :
  In w lexicon ->
  normalise w = w ->
  get_stem_candidates w (Some lexicon) = Ok found ->
  exists r,
    get_stem w (Some lexicon) = Ok r
    /\ In (text r) lexicon
    /\ ((forall c, In c found -> text c = w) -> r = new_stem w)
    /\ ((exists c, In c found /\ text c <> w) -> In r found /\ text r <> w).
Proof.
  intros Hw Hnorm Hfound. rewrite <- Hnorm in Hfound.
  destruct (@get_stem_result w (Some lexicon) found Hfound)
    as (r & Hr & Hsame & Hother).
  destruct (@get_stem_selects w (Some lexicon) found Hfound)
    as (r' & Hr' & Hnil & Hcons).
  rewrite Hr in Hr'. inversion Hr'; subst r'. clear Hr'.
  destruct (get_stem_candidates_spec _ _ Hfound) as (_ & _ & _ & Hpass).
  rewrite normalise_idem in Hpass. rewrite Hnorm in *.
  exists r. split; [exact Hr|]. split; [|split; assumption].
  destruct (filter (fun c => negb (stem_eqb c (new_stem w))) found)
    as [|c l] eqn:E.
  - rewrite Hnil by reflexivity. exact Hw.
  - destruct Hcons as [Hin _]; [discriminate|].
    apply preferred_class_incl in Hin. rewrite <- E in Hin.
    apply filter_In in Hin as [Hin Hne].
    destruct Hpass as [Hpass| ->].
    + apply passes_valid; [|auto]. intro H. now rewrite H in Hw.
    + destruct Hin as [<-|[]]. unfold stem_eqb in Hne.
      now rewrite str_eqb_refl in Hne.
Qed.

(** ** Indexing *)

Lemma getitem_last (s : str) (c : ascii) : getitem (s ++ [c]) (-1) = Ok c.
Proof.
  unfold getitem. cbn [Z.ltb Z.compare]. rewrite len_app.
  change (len [c]) with 1. replace (-1 + (len s + 1)) with (len s) by lia.
  pose proof (len_nonneg s) as H. destruct (Z.ltb_spec (len s) 0); [lia|].
  unfold len. rewrite Nat2Z.id, nth_error_app2, Nat.sub_diag by lia.
  reflexivity.
Qed.

Lemma getitem_head (c : ascii) (s : str) : getitem (c :: s) 0 = Ok c.
Proof. reflexivity. Qed.

Lemma getitem_nil (i : Z) : getitem [] i = Raise IndexError.
Proof.
  unfold getitem. change (len []) with 0.
  destruct (i <? 0); destruct (_ <? 0); try reflexivity;
    now destruct (Z.to_nat _).
Qed.

Lemma startswith_app (p s : str) : startswith (p ++ s) p = true.
Proof.
  induction p as [|x p IH]; simpl; [now destruct s|].
  now rewrite ch_eqb_refl.
Qed.

Lemma slice_from_app (a b : str) : slice (a ++ b) (Some (len a)) None = b.
Proof.
  unfold slice, clamp. pose proof (len_nonneg a) as Ha.
  pose proof (len_nonneg b) as Hb. rewrite len_app.
  destruct (Z.ltb_spec (len a) 0); [lia|].
  rewrite Z.min_l by lia. unfold len. rewrite Nat2Z.id.
  rewrite skipn_app, skipn_all, Nat.sub_diag. simpl.
  replace (Z.of_nat (List.length a) + Z.of_nat (List.length b)
           - Z.of_nat (List.length a)) with (Z.of_nat (List.length b)) by lia.
  rewrite Nat2Z.id. apply firstn_all.
Qed.

(** ** Accesses that cannot raise *)

Lemma getitem_ok (s : str) (i : Z) :
  - len s <= i < len s -> exists c, getitem s i = Ok c.
Proof.
  intro Hi. unfold getitem.
  set (j := if i <? 0 then i + len s else i).
  assert (Hj : 0 <= j < len s).
  { subst j. destruct (Z.ltb_spec i 0); lia. }
  destruct (Z.ltb_spec j 0); [lia|].
  destruct (nth_error s (Z.to_nat j)) as [c|] eqn:E; [now exists c|].
  apply nth_error_None in E. unfold len in Hj. lia.
Qed.

Lemma set_index_ok (s : str) (i : Z) (c : ascii) :
  - len s <= i < len s ->
  exists r, set_index s i [c] = Ok r /\ len r = len s.
Proof.
  intro Hi. unfold set_index.
  set (j := if i <? 0 then i + len s else i).
  assert (Hj : 0 <= j < len s).
  { subst j. destruct (Z.ltb_spec i 0); lia. }
  destruct (Z.ltb_spec j 0); [lia|].
  destruct (Z.leb_spec (len s) j); [lia|]. cbn [orb].
  eexists. split; [reflexivity|].
  unfold len in *. rewrite !length_app, length_firstn, length_skipn.
  simpl. lia.
Qed.

Lemma swap_letters_ok (t : Stem) (i j : Z) :
  - len (text t) <= i < len (text t) ->
  - len (text t) <= j < len (text t) ->
  exists r, swap_letters t i j = Ok r.
Proof.
  intros Hi Hj. unfold swap_letters.
  destruct (getitem_ok (text t) Hi) as (a & ->).
  destruct (getitem_ok (text t) Hj) as (b & ->). cbn [bind].
  destruct (set_index_ok (text t) b Hi) as (l1 & -> & Hl1). cbn [bind].
  rewrite <- Hl1 in Hj.
  destruct (set_index_ok l1 a Hj) as (l2 & -> & _). cbn [bind].
  now eexists.
Qed.

Lemma is_acceptable_ok (t : Stem) :
  text t <> [] -> exists r, is_acceptable t = Ok r.
Proof.
  intro Ht. unfold is_acceptable. destruct (text t) as [|c s]; [contradiction|].
  rewrite getitem_head. cbn [bind]. cbv zeta.
  repeat match goal with
         | |- context [if ?b then _ else _] => destruct b
         end; now eexists.
Qed.

Lemma stem_vowel_loss_emit_ok (token : Stem) (vowel : ascii)
      (valid_words : option (list str)) :
  exists out, stem_vowel_loss_emit token vowel valid_words = Ok out.
Proof.
  unfold stem_vowel_loss_emit. cbv zeta.
  destruct (Z.ltb_spec 2 (len (text token))) as [H|H].
  - destruct (@getitem_ok (text token) (-1)) as (c & ->); [lia|].
    cbn [bind]. now eexists.
  - cbn [bind]. now eexists.
Qed.

Lemma stem_vowel_loss_ok (tokens : pyset) (valid_words : option (list str)) :
  exists r, stem_vowel_loss tokens valid_words = Ok r.
Proof.
  unfold stem_vowel_loss. apply nested_loop_total.
  intros token vowel _ _. apply stem_vowel_loss_emit_ok.
Qed.

(** Forward evaluation of monadic code in a goal [exists out, m = Ok out]:
    known results are substituted, conditions are split. *)
Ltac run :=
  repeat (cbn [bind and_then];
          match goal with
          | |- exists _, Ok _ = Ok _ => eexists; reflexivity
          | H : ?m = Ok _ |- context [?m] => rewrite H
          | |- context [stem_vowel_loss ?t ?v] =>
              let r := fresh "r" in
              let E := fresh "E" in
              destruct (stem_vowel_loss_ok t v) as (r & E); rewrite E
          | |- context [and_then ?a _] => destruct a eqn:?
          | |- context [if ?b then _ else _] => destruct b eqn:?
          end).

Lemma set_index_any (s : str) (i : Z) (letter : str) :
  - len s <= i < len s -> exists r, set_index s i letter = Ok r.
Proof.
  intro Hi. unfold set_index.
  set (j := if i <? 0 then i + len s else i).
  assert (Hj : 0 <= j < len s).
  { subst j. destruct (Z.ltb_spec i 0); lia. }
  destruct (Z.ltb_spec j 0); [lia|].
  destruct (Z.leb_spec (len s) j); [lia|]. cbn [orb]. now eexists.
Qed.

(** The derivations of [stem_suf] never raise on a non-empty stem. *)
Lemma stem_suf_derive_ok (stem : Stem) (suffix : str)
      (valid_words : option (list str)) :
  text stem <> [] ->
  exists out, stem_suf_derive stem suffix valid_words = Ok out.
Proof.
  intro Hne. unfold stem_suf_derive, replace_letter. cbv zeta.
  assert (H1 : 1 <= len (text stem)).
  { pose proof (len_nil_iff (text stem)). pose proof (len_nonneg (text stem)).
    destruct (Z.eq_dec (len (text stem)) 0); [tauto | lia]. }
  destruct (@getitem_ok (text stem) (-1)) as (c1 & Hc1); [lia|].
  destruct (@set_index_any (text stem) (-1) (py "d")) as (x1 & Hx1); [lia|].
  destruct (@set_index_any (text stem) (-1) (py "o")) as (x2 & Hx2); [lia|].
  destruct (@set_index_any (text stem) (-1) (py "e")) as (x3 & Hx3); [lia|].
  destruct (is_acceptable_ok stem Hne) as (acc & Hacc).
  destruct (Z.ltb_spec 2 (len (text stem))) as [H2|H2].
  - destruct (@getitem_ok (text stem) (-2)) as (c2 & Hc2); [lia|].
    destruct (@set_index_any (text stem) (-2) (py "o")) as (x4 & Hx4); [lia|].
    destruct (@set_index_any (text stem) (-2) (py "e")) as (x5 & Hx5); [lia|].
    destruct (@swap_letters_ok stem (-1) (-2)) as (sw & Hsw); [lia|lia|].
    run.
  - run.
Qed.

Lemma len_slice_to (t : str) (k : Z) :
  0 <= k <= len t -> len (slice t (Some 0) (Some k)) = k.
Proof.
  intro Hk. unfold slice, clamp. cbn [Z.ltb Z.compare].
  destruct (Z.ltb_spec k 0); [lia|].
  rewrite Z.min_l by lia. rewrite Z.min_l by lia.
  unfold len in *. rewrite length_firstn. simpl skipn. lia.
Qed.

(** C3 (amended). In [stem_suf], for a candidate [t] that ends in the
    suffix [g] with [|t| > 1], the stripped form [s = t[:-1]] is emitted,
    tagged [contraction = "g"], exactly when [s[-1] == 'n']; when
    [s[-1] != 'n'] the suffix is skipped: nothing is emitted for it. *)
Theorem g_contraction_needs_n (token : Stem) (valid_words : option (list str)) :
  endswith (text token) (py "g") = true ->
  1 < len (text token) ->
  let s := sslice token (Some 0) (Some (len (text token) - 1)) in
  exists c,
    getitem (text s) (-1) = Ok c
    /\ (c = "n"%char ->
        exists derived,
          stem_suf_emit token (py "g") valid_words
          = Ok (set_contraction s (py "g") :: derived))
    /\ (c <> "n"%char -> stem_suf_emit token (py "g") valid_words = Ok []).
Proof.
  intros Hend Hlen s.
  assert (Hs : len (text s) = len (text token) - 1).
  { unfold s, sslice. cbn [text with_text]. apply len_slice_to. lia. }
  destruct (@getitem_ok (text s) (-1)) as (c & Hc); [lia|].
  exists c. split; [exact Hc|].
  unfold stem_suf_emit. cbv zeta. rewrite Hend.
  change (len (py "g")) with 1.
  replace (1 <? len (text token)) with true by (symmetry; now apply Z.ltb_lt).
  cbn [andb]. fold s. unfold stem_suf_tag.
  change (mem (py "g") contractions) with true. cbv iota.
  change (str_eqb (py "g") (py "g")) with true. cbn [and_then].
  rewrite Hc. cbn [bind]. split.
  - intros ->. change (negb (ch_eqb "n" "n")) with false. cbv iota.
    change (mem (py "g") [py "'t"; py "'y"]) with false. cbn [and_then bind].
    destruct (@stem_suf_derive_ok (set_contraction s (py "g")) (py "g")
                                  valid_words)
      as (derived & Hd).
    + cbn [text set_contraction]. intro E. rewrite E in Hs.
      change (len []) with 0 in Hs. lia.
    + rewrite Hd. cbn [bind]. now exists derived.
  - intro Hn. replace (ch_eqb c "n") with false; [reflexivity|].
    symmetry. apply not_true_is_false. intro E. now apply ch_eqb_eq in E.
Qed.

(** ** The patterns of [stem_rep] *)

(** Within the string, [t[i]] is the character of the slice [t[i:i+1]]. *)
Lemma getitem_at (t : str) (i : Z) :
  0 <= i < len t -> exists c, getitem t i = Ok c /\ at_ t i = [c].
Proof.
  intro Hi. unfold getitem, at_, slice, clamp. cbv zeta.
  assert (Hf : (i <? 0) = false) by (apply Z.ltb_ge; lia).
  assert (Hf' : (i + 1 <? 0) = false) by (apply Z.ltb_ge; lia).
  rewrite Hf, Hf'. cbv iota. rewrite Hf.
  rewrite !Z.min_l by lia. replace (i + 1 - i) with 1 by lia.
  destruct (nth_error t (Z.to_nat i)) as [c|] eqn:E.
  - exists c. split; [reflexivity|].
    apply nth_error_split in E as (l1 & l2 & -> & Hl).
    rewrite <- Hl, skipn_app, skipn_all, Nat.sub_diag. reflexivity.
  - apply nth_error_None in E. unfold len in Hi. lia.
Qed.

Lemma slice_head (t : str) (c : ascii) :
  getitem t 0 = Ok c -> slice t None (Some 1) = [c].
Proof.
  destruct t as [|a t]; [now rewrite getitem_nil|].
  rewrite getitem_head. intro H. inversion H; subst.
  unfold slice, clamp. cbn [Z.ltb Z.compare].
  assert (1 <= len (c :: t)) by (unfold len; cbn [List.length]; lia).
  rewrite Z.min_l by lia. reflexivity.
Qed.

(** Substitutes the characters of [t] that exist. *)
Ltac chars t k :=
  let c := fresh "c" in
  let Hg := fresh "Hg" in
  let Ha := fresh "Ha" in
  destruct (@getitem_at t k) as (c & Hg & Ha); [lia|];
  rewrite ?Hg, ?Ha.

(** A condition that is not itself made of conditions. *)
Ltac atomic b :=
  lazymatch b with
  | andb _ _ => fail
  | orb _ _ => fail
  | negb _ => fail
  | true => fail
  | false => fail
  | (if _ then _ else _) => fail
  | _ => idtac
  end.

Ltac crunch :=
  repeat (cbn [bind and_then andb option_map find fst snd str_eqb];
          try reflexivity;
          match goal with
          | |- context [andb ?b _] => atomic b; destruct b
          | |- context [and_then ?b _] => atomic b; destruct b
          | |- context [if ?b then _ else _] => atomic b; destruct b
          end).

Lemma test_V_V_pat (t : str) : test_V_V t = Ok (pat_V_V t).
Proof.
  unfold test_V_V, pat_V_V, span.
  destruct (Z.ltb_spec 2 (len t)); [|reflexivity].
  chars t 0. chars t 1. crunch.
Qed.

Lemma test_CV_CV_pat (t : str) : test_CV_CV t = Ok (pat_CV_CV t).
Proof.
  unfold test_CV_CV, pat_CV_CV, span.
  destruct (Z.ltb_spec 4 (len t)); [|reflexivity].
  chars t 0. crunch.
Qed.

Lemma test_CV_CCV_pat (t : str) :
  5 < len t -> test_CV_CCV t = Ok (pat_CV_CCV t).
Proof.
  intro H. unfold test_CV_CCV, pat_CV_CCV, span.
  destruct (Z.ltb_spec 5 (len t)); [|lia].
  chars t 0. chars t 1. chars t 2. chars t 4. crunch.
Qed.

Lemma test_CC_CCV_pat (t : str) :
  5 < len t -> test_CC_CCV t = Ok (pat_CC_CCV t).
Proof.
  intro H. unfold test_CC_CCV, pat_CC_CCV, span.
  destruct (Z.ltb_spec 5 (len t)); [|lia].
  chars t 4. crunch.
Qed.

Lemma test_CCV_CCV_pat (t : str) :
  5 < len t -> test_CCV_CCV t = Ok (pat_CCV_CCV t).
Proof.
  intro H. unfold test_CCV_CCV, pat_CCV_CCV, span.
  destruct (Z.ltb_spec 5 (len t)); [|lia].
  chars t 2. crunch.
Qed.

Lemma test_CV_CCCV_pat (t : str) :
  6 < len t -> test_CV_CCCV t = Ok (pat_CV_CCCV t).
Proof.
  intro H. unfold test_CV_CCCV, pat_CV_CCCV, span.
  destruct (Z.ltb_spec 6 (len t)); [|lia].
  chars t 0. chars t 1. chars t 2. chars t 5. crunch.
Qed.

Lemma test_CC_CCCV_pat (t : str) :
  6 < len t -> test_CC_CCCV t = Ok (pat_CC_CCCV t).
Proof.
  intro H. unfold test_CC_CCCV, pat_CC_CCCV, span.
  destruct (Z.ltb_spec 6 (len t)); [|lia].
  chars t 5. crunch.
Qed.

Lemma test_CCV_CCCV_pat (t : str) :
  6 < len t -> test_CCV_CCCV t = Ok (pat_CCV_CCCV t).
Proof.
  intro H. unfold test_CCV_CCCV, pat_CCV_CCCV, span.
  destruct (Z.ltb_spec 6 (len t)); [|lia].
  chars t 2. chars t 6. crunch.
Qed.

Lemma test_CCC_CCCV_pat (t : str) :
  6 < len t -> test_CCC_CCCV t = Ok (pat_CCC_CCCV t).
Proof.
  intro H. unfold test_CCC_CCCV, pat_CCC_CCCV, span.
  destruct (Z.ltb_spec 6 (len t)); [|lia].
  chars t 6. crunch.
Qed.

Lemma test_CCCV_CCCV_pat (t : str) :
  6 < len t -> test_CCCV_CCCV t = Ok (pat_CCCV_CCCV t).
Proof.
  intro H. unfold test_CCCV_CCCV, pat_CCCV_CCCV, span.
  destruct (Z.ltb_spec 6 (len t)); [|lia].
  chars t 3. crunch.
Qed.

(** Below the guard of its group, a pattern does not match. *)
Lemma short_patterns_guard (t : str) :
  len t <= 5 ->
  pat_CV_CCV t = false /\ pat_CC_CCV t = false /\ pat_CCV_CCV t = false.
Proof.
  intro H. unfold pat_CV_CCV, pat_CC_CCV, pat_CCV_CCV.
  destruct (Z.ltb_spec 5 (len t)); [lia|]. now repeat split.
Qed.

Lemma long_patterns_guard (t : str) :
  len t <= 6 -> first_match patterns_long t = None.
Proof.
  intro H. unfold first_match, patterns_long, pat_CV_CCCV, pat_CC_CCCV,
    pat_CCV_CCCV, pat_CCC_CCCV, pat_CCCV_CCCV. cbn [find fst].
  destruct (Z.ltb_spec 6 (len t)); [lia|]. reflexivity.
Qed.

Lemma stem_rep_first_choice (token : Stem) :
  stem_rep_first token
  = Ok (option_map (cut_rep token) (first_match patterns_short (text token))).
Proof.
  unfold stem_rep_first, first_match, patterns_short. cbv zeta.
  set (t := text token). cbn [find fst].
  rewrite test_V_V_pat. cbn [bind].
  destruct (pat_V_V t) eqn:E1.
  { unfold pat_V_V in E1. destruct (Z.ltb_spec 2 (len t)); [|discriminate].
    chars t 0. cbn [bind option_map snd]. unfold cut_rep. fold t.
    now rewrite (slice_head t Hg). }
  rewrite test_CV_CV_pat. cbn [bind].
  destruct (pat_CV_CV t); [reflexivity|].
  destruct (Z.ltb_spec 5 (len t)).
  - rewrite test_CV_CCV_pat by assumption. cbn [bind].
    destruct (pat_CV_CCV t); [reflexivity|].
    rewrite test_CC_CCV_pat by assumption. cbn [bind].
    destruct (pat_CC_CCV t); [reflexivity|].
    rewrite test_CCV_CCV_pat by assumption. cbn [bind].
    destruct (pat_CCV_CCV t); reflexivity.
  - destruct (short_patterns_guard t) as (-> & -> & ->); [lia|]. reflexivity.
Qed.

Lemma stem_rep_second_choice (token : Stem) (stem : option Stem) :
  stem_rep_second token stem
  = Ok (match first_match patterns_long (text token) with
        | Some k => Some (cut_rep token k)
        | None => stem
        end).
Proof.
  unfold stem_rep_second. cbv zeta. set (t := text token).
  destruct (Z.ltb_spec 6 (len t)).
  - unfold first_match, patterns_long. cbn [find fst].
    rewrite test_CV_CCCV_pat by assumption. cbn [bind].
    destruct (pat_CV_CCCV t); [reflexivity|].
    rewrite test_CC_CCCV_pat by assumption. cbn [bind].
    destruct (pat_CC_CCCV t); [reflexivity|].
    rewrite test_CCV_CCCV_pat by assumption. cbn [bind].
    destruct (pat_CCV_CCCV t); [reflexivity|].
    rewrite test_CCC_CCCV_pat by assumption. cbn [bind].
    destruct (pat_CCC_CCCV t); [reflexivity|].
    rewrite test_CCCV_CCCV_pat by assumption. cbn [bind].
    destruct (pat_CCCV_CCCV t); reflexivity.
  - now rewrite long_patterns_guard.
Qed.

(** What [stem_rep] computes for one token: a match on a 3-consonant
    cluster has the last word, also over an earlier match. *)
Lemma stem_rep_match_choice (token : Stem) :
  stem_rep_match token
  = Ok (option_map (cut_rep token) (rep_choice (text token))).
Proof.
  unfold stem_rep_match, rep_choice.
  rewrite stem_rep_first_choice. cbn [bind].
  rewrite stem_rep_second_choice.
  now destruct (first_match patterns_long (text token)).
Qed.



(** ** The prefix rule *)

Lemma is_acceptable_shape (t : Stem) :
  text t <> [] ->
  exists acc, is_acceptable t = Ok acc
              /\ truthy_stem acc = acceptable_shape (text t).
Proof.
  intro Ht. unfold is_acceptable, acceptable_shape.
  destruct (text t) as [|c s] eqn:E; [contradiction|].
  rewrite getitem_head. cbn [bind]. cbv zeta.
  assert (Hn : nonempty (text t) = true) by now rewrite E.
  repeat match goal with
         | |- context [if ?b then _ else _] => destruct b
         end; eexists; (split; [reflexivity|]); simpl; auto.
Qed.






(** ** Tokens without any letter of the alphabet *)

Lemma letterless_app (a b : str) :
  letterless (a ++ b) = letterless a && letterless b.
Proof. unfold letterless. apply forallb_app. Qed.

Lemma letterless_has_letter (s : str) :
  letterless s = true -> has_letter s = false.
Proof.
  unfold letterless, has_letter. induction s as [|c s IH]; simpl; [reflexivity|].
  intro H. apply andb_true_iff in H as [Hc Hs].
  apply negb_true_iff in Hc. rewrite Hc. auto.
Qed.

Lemma startswith_split (s p : str) :
  startswith s p = true -> exists r, s = p ++ r.
Proof.
  revert s. induction p as [|x p IH]; intros s H.
  - now exists s.
  - destruct s as [|y s]; [discriminate|]. simpl in H.
    apply andb_true_iff in H as [E H]. apply ch_eqb_eq in E. subst y.
    destruct (IH s H) as (r & ->). now exists r.
Qed.

Lemma startswith_letterless (s p : str) :
  letterless s = true -> has_letter p = true -> startswith s p = false.
Proof.
  intros Hs Hp. apply not_true_is_false. intro H.
  apply startswith_split in H as (r & ->).
  rewrite letterless_app in Hs. apply andb_true_iff in Hs as [Hs _].
  apply letterless_has_letter in Hs. congruence.
Qed.

Lemma letterless_rev (s : str) : letterless (rev s) = letterless s.
Proof.
  unfold letterless. induction s as [|c s IH]; simpl; [reflexivity|].
  rewrite forallb_app, IH. simpl. rewrite andb_true_r. apply andb_comm.
Qed.

Lemma has_letter_rev (s : str) : has_letter (rev s) = has_letter s.
Proof.
  unfold has_letter. induction s as [|c s IH]; simpl; [reflexivity|].
  rewrite existsb_app, IH. simpl. rewrite orb_false_r. apply orb_comm.
Qed.

Lemma endswith_letterless (s p : str) :
  letterless s = true -> has_letter p = true -> endswith s p = false.
Proof.
  intros Hs Hp. unfold endswith. apply startswith_letterless.
  - now rewrite letterless_rev.
  - now rewrite has_letter_rev.
Qed.

Lemma letterless_firstn (n : nat) (s : str) :
  letterless s = true -> letterless (firstn n s) = true.
Proof.
  intro H. rewrite <- (firstn_skipn n s), letterless_app in H.
  now apply andb_true_iff in H as [H _].
Qed.

Lemma letterless_skipn (n : nat) (s : str) :
  letterless s = true -> letterless (skipn n s) = true.
Proof.
  intro H. rewrite <- (firstn_skipn n s), letterless_app in H.
  now apply andb_true_iff in H as [_ H].
Qed.

Lemma letterless_slice (s : str) (lo hi : option Z) :
  letterless s = true -> letterless (slice s lo hi) = true.
Proof.
  intro H. unfold slice. cbv zeta. now apply letterless_firstn, letterless_skipn.
Qed.

Lemma str_eqb_letterless (a x : str) :
  letterless a = true -> has_letter x = true -> str_eqb a x = false.
Proof.
  intros Ha Hx. apply str_eqb_neq. intros ->.
  apply letterless_has_letter in Ha. congruence.
Qed.

(** A non-empty string without letters is neither made of vowels nor
    made of consonants. *)
Lemma letterless_class (c : ascii) (s : str) :
  letterless (c :: s) = true ->
  is_vowel (c :: s) = false /\ is_consonant (c :: s) = false.
Proof.
  unfold letterless, is_vowel, is_consonant, is_letter. simpl. intro H.
  apply andb_true_iff in H as [H _]. apply negb_true_iff in H.
  apply orb_false_iff in H as [-> ->]. now split.
Qed.

Lemma slice_from_start (c : ascii) (s : str) (k : Z) :
  0 < k -> exists r, slice (c :: s) (Some 0) (Some k) = c :: r.
Proof.
  intro Hk. unfold slice, clamp. cbn [Z.ltb Z.compare].
  destruct (Z.ltb_spec k 0); [lia|].
  assert (Hn : 1 <= len (c :: s)) by (unfold len; cbn [List.length]; lia).
  rewrite (Z.min_l 0) by lia. cbn [Z.to_nat skipn].
  destruct (Z.to_nat (Z.min k (len (c :: s)) - 0)) as [|n] eqn:E; [lia|].
  simpl. eauto.
Qed.

Lemma letterless_leading (t : str) (k : Z) :
  letterless t = true -> 0 < k -> t <> [] ->
  is_vowel (slice t (Some 0) (Some k)) = false
  /\ is_consonant (slice t (Some 0) (Some k)) = false.
Proof.
  intros Ht Hk Hne. destruct t as [|c s]; [contradiction|].
  destruct (@slice_from_start c s k Hk) as (r & E).
  pose proof (@letterless_slice (c :: s) (Some 0) (Some k) Ht) as Hl. rewrite E in *.
  now apply letterless_class.
Qed.

(** No pattern of [stem_rep] matches a token without letters. *)
Lemma rep_choice_letterless (t : str) : letterless t = true -> rep_choice t = None.
Proof.
  intro Ht. destruct t as [|c s]; [reflexivity|].
  set (t := c :: s) in *.
  assert (Hne : t <> []) by discriminate.
  destruct (@letterless_leading t 1 Ht) as (V1 & C1); [lia|assumption|].
  destruct (@letterless_leading t 2 Ht) as (V2 & C2); [lia|assumption|].
  destruct (@letterless_leading t 3 Ht) as (V3 & C3); [lia|assumption|].
  unfold rep_choice, first_match, patterns_long, patterns_short.
  cbn [find fst snd].
  unfold pat_V_V, pat_CV_CV, pat_CV_CCV, pat_CC_CCV, pat_CCV_CCV,
    pat_CV_CCCV, pat_CC_CCCV, pat_CCV_CCCV, pat_CCC_CCCV, pat_CCCV_CCCV,
    span, at_.
  change (0 + 1) with 1. rewrite V2, C1, C2, C3.
  repeat (rewrite ?andb_false_r; cbn [andb option_map]). reflexivity.
Qed.

Lemma stem_pre_emit_letterless (token : Stem) (prefix : str) :
  letterless (text token) = true -> has_letter prefix = true ->
  stem_pre_emit token prefix = Ok [].
Proof.
  intros Ht Hp. unfold stem_pre_emit.
  now rewrite startswith_letterless.
Qed.

Lemma stem_suf_emit_letterless (token : Stem) (suffix : str)
      (valid_words : option (list str)) :
  letterless (text token) = true -> has_letter suffix = true ->
  stem_suf_emit token suffix valid_words = Ok [].
Proof.
  intros Ht Hp. unfold stem_suf_emit. cbv zeta.
  now rewrite endswith_letterless.
Qed.

Lemma stem_inf_emit_letterless (token : Stem) (infix : str) :
  letterless (text token) = true -> has_letter infix = true ->
  stem_inf_emit token infix = Ok [].
Proof.
  intros Ht Hp. unfold stem_inf_emit. cbv zeta.
  destruct (len infix + 1 <? len (text token)); [|reflexivity].
  rewrite startswith_letterless by assumption.
  rewrite !str_eqb_letterless by (auto using letterless_slice).
  cbn [and_then bind].
  destruct (3 <? len (text token)), (4 <? len (text token)),
    (5 <? len (text token)); reflexivity.
Qed.

Lemma stem_rep_emit_letterless (token : Stem) :
  letterless (text token) = true -> stem_rep_emit token = Ok [].
Proof.
  intro Ht. unfold stem_rep_emit.
  rewrite stem_rep_match_choice, rep_choice_letterless by assumption.
  reflexivity.
Qed.

(** ** Full reduplication never raises *)

Lemma len_slice_but_last (f : str) :
  1 <= len f -> len (slice f None (Some (-1))) = len f - 1.
Proof.
  intro H. unfold slice, clamp. cbn [Z.ltb Z.compare].
  rewrite Z.max_r by lia. unfold len in *.
  rewrite length_firstn. cbn [Z.to_nat skipn]. lia.
Qed.

Lemma stem_dup_parts_ok (first second : Stem) :
  exists out, stem_dup_parts first second = Ok out.
Proof.
  unfold stem_dup_parts, replace_letter. cbv zeta.
  destruct (Z.ltb_spec 1 (len (text first))); cbn [andb];
    [|now eexists].
  destruct (Z.ltb_spec 1 (len (text second))); [|now eexists].
  destruct (@getitem_ok (text first) (-1)) as (c1 & Hc1); [lia|].
  destruct (@getitem_ok (text first) (-2)) as (c2 & Hc2); [lia|].
  destruct (@set_index_any (text first) (-1) (py "o")) as (x1 & Hx1); [lia|].
  destruct (@set_index_any (text first) (-2) (py "o")) as (x2 & Hx2); [lia|].
  destruct (Z.ltb_spec 3 (len (text first))).
  - destruct (@getitem_ok (text first) (-3)) as (c3 & Hc3); [lia|].
    destruct (@set_index_any (text (sslice first None (Some (-1)))) (-2)
                             (py "o")) as (x3 & Hx3).
    { unfold sslice. cbn [text with_text].
      rewrite len_slice_but_last by lia. lia. }
    cbn [andb]. run.
  - cbn [andb]. run.
Qed.

Lemma stem_dup_emit_ok (token : Stem) :
  exists out, stem_dup_emit token = Ok out.
Proof.
  unfold stem_dup_emit. cbv zeta.
  destruct (contains "-" (text token)) eqn:E; cbn [and_then].
  - assert (Hne : 1 <= len (text token)).
    { destruct (text token); [discriminate|]. unfold len.
      cbn [List.length]. lia. }
    destruct (@getitem_ok (text token) 0) as (a & ->); [lia|].
    destruct (@getitem_ok (text token) (-1)) as (b & ->); [lia|].
    cbn [bind]. destruct (negb _); [|now eexists].
    destruct (ssplit token "-") as [|f [|s [|x l]]]; try now eexists.
    apply stem_dup_parts_ok.
  - cbn [bind]. now eexists.
Qed.

Lemma stem_dup_ok (tokens : pyset) : exists r, stem_dup tokens = Ok r.
Proof.
  unfold stem_dup. apply add_loop_total. intros x _. apply stem_dup_emit_ok.
Qed.

(** ** A prefix followed by a bare hyphen or a bare [r] *)

Lemma stem_pre_emit_bare_hyphen (p : str) :
  stem_pre_emit (new_stem (p ++ py "-")) p = Raise IndexError.
Proof.
  unfold stem_pre_emit. cbv zeta. cbn [text new_stem].
  rewrite startswith_app, len_app. change (len (py "-")) with 1.
  replace (len p <? len p + 1) with true by (symmetry; apply Z.ltb_lt; lia).
  cbn [andb]. unfold sslice. cbn [text set_pre with_text new_stem].
  rewrite slice_from_app. reflexivity.
Qed.

Lemma stem_pre_emit_bare_r (p : str) :
  p <> [] -> stem_pre_emit (new_stem (p ++ py "r")) p = Raise IndexError.
Proof.
  intro Hp. unfold stem_pre_emit. cbv zeta. cbn [text new_stem].
  rewrite startswith_app, len_app. change (len (py "r")) with 1.
  replace (len p <? len p + 1) with true by (symmetry; apply Z.ltb_lt; lia).
  cbn [andb]. unfold sslice. cbn [text set_pre with_text new_stem].
  rewrite slice_from_app. change (py "r") with ["r"%char].
  rewrite getitem_head. cbn [bind].
  change (ch_eqb "r" "-") with false. cbv iota. cbn [text set_pre with_text].
  rewrite getitem_head. cbn [bind].
  change (ch_eqb "r" "r") with true. cbn [and_then].
  destruct (rev p) as [|c r] eqn:E.
  { apply (f_equal (@rev ascii)) in E. rewrite rev_involutive in E.
    contradiction. }
  apply (f_equal (@rev ascii)) in E. rewrite rev_involutive in E.
  simpl in E. rewrite E, getitem_last. reflexivity.
Qed.

(** The cascade raises as soon as [stem_pre] raises on the input token
    with one prefix of the list: the input stays in the frontier, and
    the full reduplication before it cannot raise. *)
Lemma cascade_raises_in_stem_pre (token : Stem) (p : str)
      (valid_words : option (list str)) :
  In p PREFIXES ->
  stem_pre_emit token p = Raise IndexError ->
  apply_stemming cascade [token] valid_words = Raise IndexError.
Proof.
  intros Hin Hraise. unfold apply_stemming, cascade. cbn [foldM run_rule].
  destruct (stem_dup_ok [token]) as (new & ->). cbn [bind].
  unfold stem_pre.
  rewrite foldM_raise with (x := token); [reflexivity| |].
  - apply set_iter_In, set_update_keeps. now left.
  - intro acc. apply foldM_raise with (x := p); [assumption|].
    intro acc'. now rewrite Hraise.
Qed.

(** C2. Runtime stemming raises: for every non-empty prefix [p] of the
    prefix list, [get_stem] on [p] followed only by a hyphen, or only by
    [r], raises [IndexError] (the claim says that it never raises). *)
Theorem get_stem_raises_after_prefix
        (p : str) (c : ascii) (valid_words : option (list str)) :
  In p PREFIXES -> p <> [] ->
  c = "-"%char \/ c = "r"%char ->
  normalise (p ++ [c]) = p ++ [c] ->
  get_stem (p ++ [c]) valid_words = Raise IndexError.
Proof.
  intros Hin Hp Hc Hnorm. unfold get_stem, get_stem_candidates. cbv zeta.
  cbn [text new_stem]. rewrite !Hnorm.
  rewrite cascade_raises_in_stem_pre with (p := p); [reflexivity|assumption|].
  destruct Hc as [-> | ->].
  - apply stem_pre_emit_bare_hyphen.
  - now apply stem_pre_emit_bare_r.
Qed.

(** C10. [get_stem_candidates] does not return a list on every input:
    on a non-empty prefix followed by a hyphen it raises [IndexError]. *)
Theorem get_stem_candidates_raises_on_bare_hyphen
        (p : str) (valid_words : option (list str)) :
  In p PREFIXES ->
  normalise (p ++ py "-") = p ++ py "-" ->
  get_stem_candidates (p ++ py "-") valid_words = Raise IndexError.
Proof.
  intros Hin Hnorm. unfold get_stem_candidates. cbv zeta.
  rewrite Hnorm.
  rewrite cascade_raises_in_stem_pre with (p := p); [reflexivity|assumption|].
  apply stem_pre_emit_bare_hyphen.
Qed.

Lemma stem_dup_parts_texts (first second : Stem) (out : list Stem) :
  stem_dup_parts first second = Ok out ->
  Forall (fun x => text x = text first \/ text x = text second) out.
Proof.
  unfold stem_dup_parts. intro H. cbv zeta in H. steps.
  all: repeat (first [apply Forall_nil | apply Forall_cons]); cbn; auto.
Qed.

Lemma split_on_letterless (sep : ascii) (t : str) :
  letterless t = true ->
  Forall (fun w => letterless w = true) (split_on sep t).
Proof.
  induction t as [|c t IH]; simpl; intro H; [repeat constructor|].
  unfold letterless in H. simpl in H. apply andb_true_iff in H as [Hc Ht].
  specialize (IH Ht).
  destruct (ch_eqb c sep); [now constructor|].
  destruct (split_on sep t) as [|w ws]; [repeat constructor; simpl|].
  - unfold letterless. simpl. now rewrite Hc.
  - inversion IH; subst. constructor; [|assumption].
    unfold letterless in *. simpl. now rewrite Hc.
Qed.

Lemma stem_dup_emit_letterless (token : Stem) (out : list Stem) :
  letterless (text token) = true ->
  stem_dup_emit token = Ok out ->
  Forall (fun c => letterless (text c) = true) out.
Proof.
  intros Ht H. unfold stem_dup_emit in H. cbv zeta in H.
  pose proof (@split_on_letterless "-" (text token) Ht) as Hsplit.
  unfold ssplit in H.
  apply bind_ok in H as (hyphen & _ & H).
  destruct hyphen; [|inversion H; constructor].
  destruct (split_on "-" (text token)) as [|f [|s [|x l]]];
    simpl in H; try (inversion H; constructor).
  apply stem_dup_parts_texts in H. cbn [text with_text] in H.
  inversion Hsplit as [|? ? Hf Hrest]; subst.
  inversion Hrest as [|? ? Hs _]; subst.
  eapply Forall_impl; [|exact H]. intros x [-> | ->]; assumption.
Qed.

(** On a frontier without letters, no rule raises, and only the full
    reduplication emits, stems without letters again. *)
Section Letterless.

Hypothesis prefixes_have_letters :
  forall p, In p PREFIXES -> has_letter p = true.
Hypothesis infixes_have_letters :
  forall x, In x INFIXES -> has_letter x = true.
Hypothesis suffixes_have_letters :
  forall f, In f SUFFIXES -> has_letter f = true.

Lemma run_rule_letterless (f : rule) (tokens : pyset)
      (valid_words : option (list str)) :
  Forall (fun c => letterless (text c) = true) tokens ->
  exists new,
    run_rule f tokens valid_words = Ok new
    /\ Forall (fun c => letterless (text c) = true) new.
Proof.
  intro Ht. apply set_iter_Forall in Ht. rewrite Forall_forall in Ht.
  destruct f; simpl.
  - destruct (stem_dup_ok tokens) as (new & Hnew). exists new.
    split; [assumption|]. unfold stem_dup in Hnew.
    eapply add_loop_Forall; [|constructor|exact Hnew].
    intros x out Hx. apply stem_dup_emit_letterless. auto.
  - exists []. split; [|constructor]. unfold stem_pre.
    apply nested_loop_silent. intros token p Hin Hp.
    apply stem_pre_emit_letterless; auto.
  - exists []. split; [|constructor]. unfold stem_rep.
    apply add_loop_silent. intros token Hin.
    apply stem_rep_emit_letterless; auto.
  - exists []. split; [|constructor]. unfold stem_inf.
    apply nested_loop_silent. intros token p Hin Hp.
    apply stem_inf_emit_letterless; auto.
  - exists []. split; [|constructor]. unfold stem_suf.
    apply nested_loop_silent. intros token p Hin Hp.
    apply stem_suf_emit_letterless; auto.
Qed.

Lemma apply_stemming_letterless (functions : list rule) (tokens : pyset)
      (valid_words : option (list str)) :
  Forall (fun c => letterless (text c) = true) tokens ->
  exists r,
    apply_stemming functions tokens valid_words = Ok r
    /\ Forall (fun c => letterless (text c) = true) r.
Proof.
  unfold apply_stemming. revert tokens.
  induction functions as [|f fs IH]; intros tokens Ht; simpl.
  - now exists tokens.
  - destruct (@run_rule_letterless f tokens valid_words Ht) as (new & -> & Hnew).
    cbn [bind]. apply IH. apply set_update_Forall; [assumption|].
    now apply set_iter_Forall.
Qed.

Lemma passes_letterless (valid_words : option (list str)) (c : Stem) :
  letterless (text c) = true -> passes valid_words c = Ok false.
Proof.
  intro Hc. unfold passes.
  destruct (truthy_stem (is_valid c valid_words)) eqn:E; [|reflexivity].
  cbn [and_then]. unfold is_acceptable.
  assert (Hne : exists a s, text c = a :: s).
  { unfold is_valid in E.
    destruct valid_words as [[|w ws]|]; try destruct (mem _ _);
      simpl in E; try discriminate; destruct (text c); try discriminate; eauto. }
  destruct Hne as (a & s & Ea). rewrite Ea in *. rewrite getitem_head.
  cbn [bind]. cbv zeta.
  assert (Ha : letterless [a] = true).
  { unfold letterless in *. simpl in *.
    apply andb_true_iff in Hc as [-> _]. reflexivity. }
  destruct (@letterless_class a [] Ha) as [-> ->]. reflexivity.
Qed.

Lemma filterM_none (p : Stem -> result bool) (l : list Stem) :
  (forall x, In x l -> p x = Ok false) -> filterM p l = Ok [].
Proof.
  induction l as [|x l IH]; simpl; intro H; [reflexivity|].
  rewrite H by now left. cbn [bind]. rewrite IH by (intros; apply H; now right).
  reflexivity.
Qed.

(** C7 (amended). When every affix holds a letter of the alphabet, a
    token that holds no character of the alphabet (after normalisation)
    is its own stem: for every lexicon, present or absent, [get_stem]
    returns the normalised token. *)
Theorem letterless_token_is_its_own_stem
        (token : str) (valid_words : option (list str)) :
  letterless (normalise token) = true ->
  get_stem token valid_words = Ok (new_stem (normalise token)).
Proof.
  intro Ht. unfold get_stem, get_stem_candidates. cbv zeta.
  cbn [text new_stem]. rewrite normalise_idem.
  destruct (@apply_stemming_letterless cascade [new_stem (normalise token)]
                                       valid_words)
    as (stems & -> & Hstems).
  { constructor; [exact Ht|constructor]. }
  cbn [bind]. rewrite filterM_none.
  2:{ intros x Hx. apply passes_letterless.
      apply (proj1 (set_iter_In _ _)) in Hx.
      rewrite Forall_forall in Hstems. auto. }
  cbn [bind nonempty filter]. unfold stem_eqb.
  rewrite str_eqb_refl. reflexivity.
Qed.

End Letterless.

(** * Further properties of the code *)

(** ** Sorting *)

Lemma insert_desc_sorted (x : Stem) (l : list Stem) :
  StronglySorted (fun a b => score b <= score a) l ->
  StronglySorted (fun a b => score b <= score a) (insert_desc x l).
Proof.
  induction l as [|y l IH]; simpl; intro H.
  - repeat constructor.
  - inversion H as [|? ? Hl Hy]; subst.
    destruct (sort_key y <=? sort_key x) eqn:E.
    + apply Z.leb_le in E. rewrite !sort_key_score in E.
      constructor; [assumption|]. constructor; [assumption|].
      rewrite Forall_forall in *. intros z Hz. specialize (Hy z Hz). lia.
    + apply Z.leb_gt in E. rewrite !sort_key_score in E.
      constructor; [now apply IH|]. rewrite Forall_forall in *.
      intros z Hz. apply (Permutation_in _ (insert_desc_perm x l)) in Hz.
      destruct Hz as [<-|Hz]; [lia | auto].
Qed.

Lemma insert_desc_stable (k : Z) (x : Stem) (l : list Stem) :
  filter (fun c => score c =? k) (insert_desc x l)
  = filter (fun c => score c =? k) (x :: l).
Proof.
  induction l as [|y l IH]; [reflexivity|]. cbn [insert_desc].
  destruct (sort_key y <=? sort_key x) eqn:E; [reflexivity|].
  apply Z.leb_gt in E. rewrite !sort_key_score in E.
  cbn [filter] in *. rewrite IH.
  destruct (score x =? k) eqn:Ex; [|reflexivity].
  apply Z.eqb_eq in Ex. replace (score y =? k) with false; [reflexivity|].
  symmetry. apply Z.eqb_neq. lia.
Qed.

Lemma sort_candidates_sorted (l : list Stem) :
  StronglySorted (fun a b => score b <= score a) (sort_candidates l).
Proof.
  induction l as [|x l IH]; simpl; [constructor|].
  now apply insert_desc_sorted.
Qed.

(** [sort_candidates] returns its argument reordered by descending
    score, and candidates of equal score keep their order. *)
Theorem sort_candidates_sorted_stable (l : list Stem) :
  Permutation (sort_candidates l) l
  /\ StronglySorted (fun a b => score b <= score a) (sort_candidates l)
  /\ forall k, filter (fun c => score c =? k) (sort_candidates l)
               = filter (fun c => score c =? k) l.
Proof.
  split; [apply sort_candidates_perm|]. split.
  - apply sort_candidates_sorted.
  - intro k. induction l as [|x l IH]; [reflexivity|].
    cbn [sort_candidates fold_right]. rewrite insert_desc_stable.
    cbn [filter]. fold (sort_candidates l). now rewrite IH.
Qed.

(** ** The input and the result of [get_stem] *)

(** Stemming ignores the case of the input and the white space around
    it: the normalised token has the same candidates and the same stem. *)
Theorem get_stem_ignores_case_and_space
        (token : str) (valid_words : option (list str)) :
  get_stem (normalise token) valid_words = get_stem token valid_words
  /\ get_stem_candidates (normalise token) valid_words
     = get_stem_candidates token valid_words.
Proof.
  unfold get_stem, get_stem_candidates. cbv zeta. cbn [text new_stem].
  now rewrite !normalise_idem.
Qed.

Lemma passes_true (valid_words : option (list str)) (c : Stem) :
  passes valid_words c = Ok true ->
  is_valid c valid_words = Some c /\ acceptable_shape (text c) = true.
Proof.
  unfold passes. intro H.
  destruct (truthy_stem (is_valid c valid_words)) eqn:E; [|discriminate H].
  cbn [and_then] in H.
  assert (Hv : is_valid c valid_words = Some c).
  { unfold is_valid in *. destruct valid_words as [[|w ws]|]; try reflexivity.
    destruct (mem (text c) (w :: ws)); [reflexivity | discriminate E]. }
  split; [exact Hv|]. rewrite Hv in E. cbn [truthy_stem] in E.
  assert (Hne : text c <> []) by (intro E'; now rewrite E' in E).
  destruct (is_acceptable_shape c Hne) as (acc & Hacc & <-).
  rewrite Hacc in H. cbn [bind] in H. now inversion H.
Qed.

(** [get_stem] returns the normalised token itself, or a candidate of
    another text that the lexicon accepts and that is acceptable. *)
Theorem get_stem_token_or_accepted
        (token : str) (valid_words : option (list str)) (r : Stem) :
  get_stem token valid_words = Ok r ->
  r = new_stem (normalise token)
  \/ (text r <> normalise token
      /\ is_valid r valid_words = Some r
      /\ acceptable_shape (text r) = true).
Proof.
  intro Hr.
  destruct (get_stem_candidates (normalise token) valid_words)
    as [found|e] eqn:Hfound.
  2:{ unfold get_stem in Hr. cbv zeta in Hr. cbn [text new_stem] in Hr.
      rewrite Hfound in Hr. discriminate. }
  destruct (get_stem_candidates_spec _ _ Hfound) as (_ & _ & _ & Hpass).
  rewrite normalise_idem in Hpass.
  destruct (@get_stem_selects token valid_words found Hfound)
    as (r' & Hr' & Hnil & Hcons).
  rewrite Hr in Hr'. inversion Hr'; subst r'. clear Hr'.
  destruct (filter (fun c => negb (stem_eqb c (new_stem (normalise token))))
                   found) as [|c l] eqn:E.
  - left. now apply Hnil.
  - right. destruct Hcons as [Hin _]; [discriminate|].
    apply preferred_class_incl in Hin. rewrite <- E in Hin.
    apply filter_In in Hin as [Hin Hne].
    apply negb_true_iff in Hne.
    assert (Htext : text r <> normalise token).
    { intro E'. apply not_true_iff_false in Hne. apply Hne.
      now apply stem_eqb_eq. }
    split; [exact Htext|]. destruct Hpass as [Hpass| ->].
    + now apply passes_true, Hpass.
    + destruct Hin as [<-|[]]. now contradiction Htext.
Qed.

(** What [get_stem_candidates] returns, when it returns, is not empty,
    holds no two candidates of equal text and is ordered by descending
    score; it is the input alone, or every candidate in it is accepted
    by the lexicon and acceptable. *)
Theorem get_stem_candidates_shape
        (token : str) (valid_words : option (list str)) (found : list Stem) :
  get_stem_candidates token valid_words = Ok found ->
  found <> []
  /\ NoDup (map text found)
  /\ StronglySorted (fun a b => score b <= score a) found
  /\ (found = [new_stem (normalise token)]
      \/ forall c, In c found ->
                   is_valid c valid_words = Some c
                   /\ acceptable_shape (text c) = true).
Proof.
  intro H.
  destruct (get_stem_candidates_spec _ _ H) as (Hnd & Hne & _ & Hpass).
  split; [exact Hne|]. split; [exact Hnd|]. split.
  - unfold get_stem_candidates in H. cbv zeta in H.
    apply bind_ok in H as (stems & _ & H).
    apply bind_ok in H as (candidates & _ & H).
    destruct (nonempty candidates); inversion H; subst.
    + apply sort_candidates_sorted.
    + repeat constructor.
  - destruct Hpass as [Hpass|Hone]; [right | now left].
    intros c Hc. now apply passes_true, Hpass.
Qed.

(** ** The frontier *)

Lemma set_iter_empty : set_iter [] = [].
Proof. apply Permutation_nil, Permutation_sym, set_iter_perm. Qed.

Lemma set_iter_one (x : Stem) : set_iter [x] = [x].
Proof. apply Permutation_length_1_inv, Permutation_sym, set_iter_perm. Qed.

(** The cascade never removes a record from the frontier and never
    replaces it by another record of the same text; the texts of the
    frontier stay distinct. *)
Theorem apply_stemming_only_adds
        (functions : list rule) (tokens r : pyset)
        (valid_words : option (list str)) :
  apply_stemming functions tokens valid_words = Ok r ->
  (forall x, In x tokens -> In x r)
  /\ (NoDup (map text tokens) -> NoDup (map text r)).
Proof.
  intro H. split.
  - intros x Hx. revert H.
    apply apply_stemming_inv with (I := fun s => In x s); [|exact Hx].
    intros f s new _ Hs _. now apply set_update_keeps.
  - intro Hnd. eapply apply_stemming_NoDup; eassumption.
Qed.

(** ** Rules that never raise *)

Lemma stem_rep_emit_ok (token : Stem) : exists out, stem_rep_emit token = Ok out.
Proof.
  unfold stem_rep_emit. rewrite stem_rep_match_choice. cbn [bind]. now eexists.
Qed.

Lemma stem_suf_tag_ok (stem : Stem) (suffix : str) :
  text stem <> [] ->
  exists r, stem_suf_tag stem suffix = Ok r
            /\ forall tagged, r = Some tagged -> text tagged = text stem.
Proof.
  intro Hne. unfold stem_suf_tag.
  assert (H1 : 1 <= len (text stem)).
  { pose proof (len_nil_iff (text stem)). pose proof (len_nonneg (text stem)).
    destruct (Z.eq_dec (len (text stem)) 0); [tauto | lia]. }
  destruct (@getitem_ok (text stem) (-1)) as (c & Hc); [lia|].
  rewrite Hc. cbn [bind].
  destruct (mem suffix contractions).
  - destruct (str_eqb suffix (py "g")); cbn [and_then bind];
      destruct (mem suffix [py "'t"; py "'y"]); cbn [and_then bind];
      repeat match goal with
             | |- context [if ?b then _ else _] => destruct b
             end.
    all: eexists; (split; [reflexivity|]); intros tagged E;
      inversion E; reflexivity.
  - eexists; (split; [reflexivity|]); intros tagged E; inversion E; reflexivity.
Qed.

Lemma stem_suf_emit_ok (token : Stem) (suffix : str)
      (valid_words : option (list str)) :
  exists out, stem_suf_emit token suffix valid_words = Ok out.
Proof.
  unfold stem_suf_emit. cbv zeta.
  destruct (endswith (text token) suffix); cbn [andb]; [|now eexists].
  destruct (Z.ltb_spec (len suffix) (len (text token))); [|now eexists].
  set (stem := sslice token (Some 0) (Some (len (text token) - len suffix))).
  assert (Hne : text stem <> []).
  { intro E. apply len_nil_iff in E. unfold stem, sslice in E.
    cbn [text with_text] in E. pose proof (len_nonneg suffix).
    rewrite len_slice_to in E; lia. }
  destruct (@stem_suf_tag_ok stem suffix Hne) as (r & -> & Hr). cbn [bind].
  destruct r as [tagged|]; [|now eexists].
  destruct (@stem_suf_derive_ok tagged suffix valid_words) as (d & ->).
  - now rewrite (Hr tagged eq_refl).
  - cbn [bind]. now eexists.
Qed.

Lemma stem_rep_ok (tokens : pyset) : exists r, stem_rep tokens = Ok r.
Proof.
  unfold stem_rep. apply add_loop_total. intros x _. apply stem_rep_emit_ok.
Qed.

Lemma stem_suf_ok (tokens : pyset) (valid_words : option (list str)) :
  exists r, stem_suf tokens valid_words = Ok r.
Proof.
  unfold stem_suf. apply nested_loop_total.
  intros token suffix _ _. apply stem_suf_emit_ok.
Qed.

(** The partial and the full reduplication, the suffix rule and the
    vowel loss never raise, whatever the tokens, the suffixes and the
    lexicon: every index they read is guarded by a test on a length. *)
Theorem rules_that_never_raise
        (tokens : pyset) (valid_words : option (list str)) :
  (exists r, stem_rep tokens = Ok r)
  /\ (exists r, stem_dup tokens = Ok r)
  /\ (exists r, stem_suf tokens valid_words = Ok r)
  /\ (exists r, stem_vowel_loss tokens valid_words = Ok r).
Proof.
  split; [apply stem_rep_ok|]. split; [apply stem_dup_ok|].
  split; [apply stem_suf_ok | apply stem_vowel_loss_ok].
Qed.

(** ** The infix rule *)

Lemma getitem_beyond (s : str) (i : Z) :
  len s <= i -> getitem s i = Raise IndexError.
Proof.
  intro H. unfold getitem. pose proof (len_nonneg s).
  destruct (Z.ltb_spec i 0); [lia|]. destruct (Z.ltb_spec i 0); [lia|].
  destruct (nth_error s (Z.to_nat i)) eqn:E; [|reflexivity].
  assert (Hlt : (Z.to_nat i < List.length s)%nat).
  { apply nth_error_Some. congruence. }
  unfold len in H. lia.
Qed.

(** Records the characters of [s] that a length makes available. *)
Ltac have_char s k :=
  try (let c := fresh "c" in
       let H := fresh "Hchar" in
       destruct (@getitem_ok s k) as (c & H); [lia|]).

Lemma stem_inf_emit_ok (token : Stem) (infix : str) :
  3 <= len (text token) \/ len infix + 1 >= len (text token) ->
  exists out, stem_inf_emit token infix = Ok out.
Proof.
  intro H. unfold stem_inf_emit, sgetitem. cbv zeta.
  destruct (Z.ltb_spec (len infix + 1) (len (text token))); [|now eexists].
  assert (H3 : 3 <= len (text token)) by lia.
  have_char (text token) 0. have_char (text token) 2.
  destruct (Z.ltb_spec 3 (len (text token)));
    destruct (Z.ltb_spec 4 (len (text token)));
    destruct (Z.ltb_spec 5 (len (text token))); try lia.
  all: have_char (text token) 3; have_char (text token) 4;
    have_char (text token) 5.
  all: run.
Qed.

(** [stem_inf] raises on one kind of input only: an empty infix (a blank
    line of the infix file) met with a token of two characters, where
    [token[2]] is read. *)
Theorem stem_inf_emit_raises_iff (token : Stem) (infix : str) :
  stem_inf_emit token infix = Raise IndexError
  <-> infix = [] /\ len (text token) = 2.
Proof.
  split.
  - intro Hraise. pose proof (len_nonneg infix) as Hi.
    destruct (Z_le_gt_dec 3 (len (text token))) as [H3|H3].
    { destruct (@stem_inf_emit_ok token infix) as (out & E); [now left|].
      congruence. }
    destruct (Z_le_gt_dec (len (text token)) (len infix + 1)) as [H2|H2].
    { destruct (@stem_inf_emit_ok token infix) as (out & E); [right; lia|].
      congruence. }
    split; [|lia]. apply len_nil_iff. lia.
  - intros [-> Hlen]. unfold stem_inf_emit. cbv zeta.
    change (len []) with 0. rewrite Hlen. cbn [Z.add Z.ltb Z.compare Pos.compare Pos.compare_cont].
    rewrite getitem_beyond by lia. now destruct (text token).
Qed.

Lemma stem_inf_ok (tokens : pyset) :
  (forall x, In x INFIXES -> x <> []) -> exists r, stem_inf tokens = Ok r.
Proof.
  intro Hne. unfold stem_inf. apply nested_loop_total.
  intros token infix _ Hin. apply stem_inf_emit_ok.
  assert (Hlen : len infix <> 0).
  { intro E. apply len_nil_iff in E. now apply Hne in Hin. }
  pose proof (len_nonneg infix). lia.
Qed.

(** ** The prefix rule *)

Lemma len_slice_from (t : str) (k : Z) :
  0 <= k <= len t -> len (slice t (Some k) None) = len t - k.
Proof.
  intro Hk. unfold slice, clamp. destruct (Z.ltb_spec k 0); [lia|].
  rewrite Z.min_l by lia. unfold len in *.
  rewrite length_firstn, length_skipn. lia.
Qed.

Lemma stem_pre_emit_matched (token : Stem) (prefix : str) :
  startswith (text token) prefix = true ->
  len prefix < len (text token) ->
  if reads_past_end (text (strip_prefix token prefix)) prefix
  then stem_pre_emit token prefix = Raise IndexError
  else exists out, stem_pre_emit token prefix = Ok out.
Proof.
  intros Hsw Hlen. unfold stem_pre_emit. rewrite Hsw.
  replace (len prefix <? len (text token)) with true
    by (symmetry; now apply Z.ltb_lt).
  cbn [andb]. cbv zeta. unfold strip_prefix. cbv zeta.
  set (stem0 := set_pre (sslice token (Some (len prefix)) None) prefix).
  destruct (text stem0) as [|c0 r0] eqn:E0.
  { rewrite E0. reflexivity. }
  rewrite getitem_head. cbn [bind].
  generalize (if ch_eqb c0 "-" then sslice stem0 (Some 1) None else stem0).
  clear. intro s.
  pose proof (len_nonneg prefix) as Hp.
  destruct (text s) as [|c rest] eqn:Es.
  { cbn [reads_past_end]. now rewrite getitem_nil. }
  cbn [reads_past_end]. rewrite <- Es.
  assert (Hne : text s <> []) by (rewrite Es; discriminate).
  assert (Hls : len (text s) = 1 + len rest).
  { rewrite Es. unfold len. cbn [List.length]. lia. }
  pose proof (len_nonneg rest) as Hrest.
  assert (Hg0 : getitem (text s) 0 = Ok c) by (rewrite Es; apply getitem_head).
  rewrite Hg0. cbn [bind].
  destruct (is_acceptable_ok s Hne) as (acc & Hacc).
  destruct (ch_eqb c "r") eqn:Ecr; cbn [andb and_then].
  - destruct (Z.eqb_spec (len prefix) 0) as [Hp0|Hp0]; cbn [orb].
    { apply len_nil_iff in Hp0. subst prefix. now rewrite getitem_nil. }
    have_char prefix (-1). rewrite Hchar. cbn [bind].
    destruct (Z.eqb_spec (len (text s)) 1) as [Hr0|Hr0].
    { rewrite getitem_beyond by lia. reflexivity. }
    have_char (text s) 1.
    destruct (Z.ltb_spec 2 (len (text s)));
      destruct (Z.ltb_spec 3 (len (text s))); try lia.
    all: have_char (text s) 2; have_char (text s) 3.
    all: try (destruct (@is_acceptable_ok
                          (set_rep (sslice s (Some 3) None)
                                   (slice (text s) None (Some 3))))
               as (acc' & Hacc');
              [ cbn [text set_rep sslice with_text]; intro E;
                apply len_nil_iff in E; rewrite len_slice_from in E; lia |]).
    all: run.
  - destruct (Z.ltb_spec 1 (len (text s)));
      destruct (Z.ltb_spec 2 (len (text s)));
      destruct (Z.ltb_spec 3 (len (text s))); try lia.
    all: have_char (text s) 1; have_char (text s) 2; have_char (text s) 3.
    all: try (destruct (@is_acceptable_ok
                          (set_rep (sslice s (Some 3) None)
                                   (slice (text s) None (Some 3))))
               as (acc' & Hacc');
              [ cbn [text set_rep sslice with_text]; intro E;
                apply len_nil_iff in E; rewrite len_slice_from in E; lia |]).
    all: run.
Qed.

Lemma stem_pre_emit_unmatched (token : Stem) (prefix : str) :
  startswith (text token) prefix = false \/ len (text token) <= len prefix ->
  stem_pre_emit token prefix = Ok [].
Proof.
  unfold stem_pre_emit. intros [->|H]; [reflexivity|].
  replace (len prefix <? len (text token)) with false
    by (symmetry; now apply Z.ltb_ge).
  now rewrite andb_false_r.
Qed.

(** [stem_pre] raises [IndexError] on a token and a prefix exactly when
    the prefix matches, is shorter than the token, and the stripped stem
    is empty (the token was the prefix and a hyphen) or begins with ['r']
    and either the prefix is empty or the stem has one character. *)
Theorem stem_pre_emit_raises_iff (token : Stem) (prefix : str) :
  stem_pre_emit token prefix = Raise IndexError
  <-> startswith (text token) prefix = true
      /\ len prefix < len (text token)
      /\ reads_past_end (text (strip_prefix token prefix)) prefix = true.
Proof.
  split.
  - intro Hraise.
    destruct (startswith (text token) prefix) eqn:Hsw;
      [|unfold stem_pre_emit in Hraise; rewrite Hsw in Hraise; discriminate].
    destruct (Z.ltb_spec (len prefix) (len (text token))) as [Hlen|Hlen].
    + pose proof (stem_pre_emit_matched token prefix Hsw Hlen) as H.
      destruct (reads_past_end _ _); [auto|].
      destruct H as (out & E). congruence.
    + unfold stem_pre_emit in Hraise.
      replace (len prefix <? len (text token)) with false in Hraise
        by (symmetry; now apply Z.ltb_ge).
      rewrite andb_false_r in Hraise. discriminate.
  - intros (Hsw & Hlen & Hread).
    pose proof (stem_pre_emit_matched token prefix Hsw Hlen) as H.
    now rewrite Hread in H.
Qed.

(** ** Where [get_stem] raises *)

Lemma passes_ok (valid_words : option (list str)) (c : Stem) :
  exists b, passes valid_words c = Ok b.
Proof.
  unfold passes.
  destruct (truthy_stem (is_valid c valid_words)) eqn:E; [|now eexists].
  cbn [and_then].
  assert (Hne : text c <> []).
  { unfold is_valid in E.
    destruct valid_words as [[|w ws]|]; try destruct (mem _ _);
      simpl in E; try discriminate; destruct (text c); discriminate. }
  destruct (is_acceptable_ok c Hne) as (r & ->). cbn [bind]. now eexists.
Qed.

Lemma filterM_total (p : Stem -> result bool) (l : list Stem) :
  (forall x, exists b, p x = Ok b) -> exists r, filterM p l = Ok r.
Proof.
  intro Hp. induction l as [|x l (r & IH)]; simpl; [now eexists|].
  destruct (Hp x) as (b & ->). rewrite IH. cbn [bind]. now eexists.
Qed.

Lemma run_rule_ok (f : rule) (tokens : pyset) (valid_words : option (list str)) :
  f <> Pre -> (forall x, In x INFIXES -> x <> []) ->
  exists r, run_rule f tokens valid_words = Ok r.
Proof.
  intros Hf Hinf. destruct f; cbn [run_rule].
  - apply stem_dup_ok.
  - congruence.
  - apply stem_rep_ok.
  - now apply stem_inf_ok.
  - apply stem_suf_ok.
Qed.

Lemma apply_stemming_ok (functions : list rule) (tokens : pyset)
      (valid_words : option (list str)) :
  ~ In Pre functions -> (forall x, In x INFIXES -> x <> []) ->
  exists r, apply_stemming functions tokens valid_words = Ok r.
Proof.
  intros Hf Hinf. unfold apply_stemming. apply foldM_total.
  intros acc f Hin.
  destruct (@run_rule_ok f acc valid_words) as (new & ->); [congruence|assumption|].
  cbn [bind]. now eexists.
Qed.

Lemma contains_app (c : ascii) (a b : str) :
  contains c (a ++ b) = contains c a || contains c b.
Proof. unfold contains. apply existsb_app. Qed.

(** Without a hyphen in the token, the stripped stem is the rest of the
    token after the prefix. *)
Lemma strip_prefix_plain (tok prefix : str) :
  contains "-" tok = false -> startswith tok prefix = true ->
  text (strip_prefix (new_stem tok) prefix) = slice tok (Some (len prefix)) None.
Proof.
  intros Hh Hsw. apply startswith_split in Hsw as (r & ->).
  rewrite contains_app in Hh. apply orb_false_iff in Hh as [_ Hr].
  unfold strip_prefix. cbv zeta.
  change (text (set_pre (sslice (new_stem (prefix ++ r)) (Some (len prefix)) None)
                        prefix))
    with (slice (prefix ++ r) (Some (len prefix)) None).
  rewrite slice_from_app. destruct r as [|c0 r]; [apply slice_from_app|].
  unfold contains in Hr. cbn [existsb] in Hr.
  apply orb_false_iff in Hr as [Hc _].
  destruct (ch_eqb c0 "-") eqn:E.
  - apply ch_eqb_eq in E. subst c0. now rewrite ch_eqb_refl in Hc.
  - apply slice_from_app.
Qed.

Lemma stem_dup_plain (tok : str) :
  contains "-" tok = false -> stem_dup [new_stem tok] = Ok [].
Proof.
  intro Hh. unfold stem_dup. rewrite set_iter_one. cbn [foldM].
  unfold stem_dup_emit. cbv zeta. cbn [text new_stem]. rewrite Hh.
  reflexivity.
Qed.

Lemma apply_stemming_cons (f : rule) (functions : list rule) (tokens : pyset)
      (valid_words : option (list str)) :
  apply_stemming (f :: functions) tokens valid_words
  = (new <- run_rule f tokens valid_words ;;
     apply_stemming functions (set_update tokens (set_iter new)) valid_words).
Proof.
  unfold apply_stemming. cbn [foldM].
  now destruct (run_rule f tokens valid_words).
Qed.

Lemma get_stem_candidates_plain
      (tok : str) (valid_words : option (list str)) :
  contains "-" tok = false ->
  (forall x, In x INFIXES -> x <> []) ->
  (forall p, In p PREFIXES -> startswith tok p = true -> len p < len tok ->
             reads_past_end (slice tok (Some (len p)) None) p = false) ->
  normalise tok = tok ->
  exists found, get_stem_candidates tok valid_words = Ok found.
Proof.
  intros Hh Hinf Hpre Hnorm. unfold get_stem_candidates. cbv zeta.
  rewrite Hnorm. unfold cascade. rewrite apply_stemming_cons.
  cbn [run_rule]. rewrite (@stem_dup_plain tok Hh). cbn [bind].
  rewrite set_iter_empty.
  change (set_update [new_stem tok] []) with [new_stem tok].
  rewrite apply_stemming_cons. cbn [run_rule].
  assert (Hp : exists r, stem_pre [new_stem tok] = Ok r).
  { unfold stem_pre. apply nested_loop_total. intros token p Htok Hin.
    rewrite set_iter_one in Htok. destruct Htok as [<-|[]].
    destruct (startswith tok p) eqn:Hsw;
      [|exists []; apply stem_pre_emit_unmatched; now left].
    destruct (Z_lt_ge_dec (len p) (len tok)) as [Hlen|Hlen];
      [|exists []; apply stem_pre_emit_unmatched; right; cbn [text new_stem]; lia].
    pose proof (@stem_pre_emit_matched (new_stem tok) p Hsw Hlen) as Hm.
    rewrite strip_prefix_plain in Hm by assumption.
    now rewrite Hpre in Hm by assumption. }
  destruct Hp as (r & ->). cbn [bind].
  destruct (@apply_stemming_ok [Rep; Inf; Rep; Suf; Dup]
              (set_update [new_stem tok] (set_iter r)) valid_words)
    as (stems & Hstems).
  { cbn [In]. intuition discriminate. }
  { assumption. }
  rewrite Hstems. cbn [bind].
  destruct (@filterM_total (passes valid_words) (set_iter stems))
    as (candidates & ->); [apply passes_ok|].
  cbn [bind]. destruct (nonempty candidates); now eexists.
Qed.

(** On a token without hyphen, and with no blank line in the infix file,
    [get_stem] raises [IndexError] exactly when some prefix of the list
    matches the normalised token and leaves a stem that [stem_pre] reads
    past its end; on every other such token it returns a stem. *)
Theorem get_stem_raises_iff (token : str) (valid_words : option (list str)) :
  let tok := normalise token in
  contains "-" tok = false ->
  (forall x, In x INFIXES -> x <> []) ->
  (get_stem token valid_words = Raise IndexError
   <-> exists p, In p PREFIXES /\ startswith tok p = true /\ len p < len tok
                 /\ reads_past_end (slice tok (Some (len p)) None) p = true)
  /\ ((exists r, get_stem token valid_words = Ok r)
      <-> forall p, In p PREFIXES -> startswith tok p = true -> len p < len tok ->
                    reads_past_end (slice tok (Some (len p)) None) p = false).
Proof.
  intros tok Hh Hinf.
  assert (Hraise : forall p,
             In p PREFIXES -> startswith tok p = true -> len p < len tok ->
             reads_past_end (slice tok (Some (len p)) None) p = true ->
             get_stem token valid_words = Raise IndexError).
  { intros p Hin Hsw Hlen Hread.
    unfold get_stem, get_stem_candidates. cbv zeta. cbn [text new_stem].
    rewrite normalise_idem. fold tok.
    rewrite cascade_raises_in_stem_pre with (p := p); [reflexivity|assumption|].
    pose proof (@stem_pre_emit_matched (new_stem tok) p Hsw Hlen) as Hm.
    rewrite strip_prefix_plain in Hm by assumption. now rewrite Hread in Hm. }
  assert (Hok : (forall p, In p PREFIXES -> startswith tok p = true ->
                           len p < len tok ->
                           reads_past_end (slice tok (Some (len p)) None) p = false) ->
                exists r, get_stem token valid_words = Ok r).
  { intro Hpre.
    destruct (@get_stem_candidates_plain tok valid_words Hh Hinf Hpre)
      as (found & Hfound); [apply normalise_idem|].
    destruct (@get_stem_selects token valid_words found Hfound) as (r & Hr & _).
    eauto. }
  set (bad := fun p => startswith tok p && (len p <? len tok)
                       && reads_past_end (slice tok (Some (len p)) None) p).
  assert (Hbad : forall p, bad p = true <->
                           startswith tok p = true /\ len p < len tok
                           /\ reads_past_end (slice tok (Some (len p)) None) p = true).
  { intro p. unfold bad. rewrite !andb_true_iff, Z.ltb_lt. tauto. }
  destruct (existsb bad PREFIXES) eqn:E.
  - apply existsb_exists in E as (p & Hin & Hp). apply Hbad in Hp as (Hsw & Hlen & Hread).
    pose proof (Hraise p Hin Hsw Hlen Hread) as HR.
    split; split.
    + intros _. eauto 6.
    + intros _. exact HR.
    + intros (r & Hr). congruence.
    + intro Hall. rewrite (Hall p Hin Hsw Hlen) in Hread. discriminate.
  - assert (Hall : forall p, In p PREFIXES -> startswith tok p = true ->
                             len p < len tok ->
                             reads_past_end (slice tok (Some (len p)) None) p = false).
    { intros p Hin Hsw Hlen.
      destruct (reads_past_end _ _) eqn:Hread; [|reflexivity].
      assert (Hb : existsb bad PREFIXES = true).
      { apply existsb_exists. exists p. split; [assumption|]. now apply Hbad. }
      congruence. }
    destruct (Hok Hall) as (r & Hr).
    split; split.
    + intro HR. congruence.
    + intros (p & Hin & Hsw & Hlen & Hread).
      rewrite (Hall p Hin Hsw Hlen) in Hread. discriminate.
    + intros _. exact Hall.
    + intros _. eauto.
Qed.

(** ** The resource files *)

Lemma insert_by_len_perm (x : str) (l : list str) :
  Permutation (insert_by_len x l) (x :: l).
Proof.
  induction l as [|y l IH]; simpl; [reflexivity|].
  destruct (len x <=? len y); [reflexivity|].
  rewrite IH. apply perm_swap.
Qed.

Lemma sort_by_len_perm (l : list str) : Permutation (sort_by_len l) l.
Proof.
  induction l as [|x l IH]; simpl; [reflexivity|].
  rewrite insert_by_len_perm. now constructor.
Qed.

Lemma insert_by_len_sorted (x : str) (l : list str) :
  StronglySorted (fun a b => len a <= len b) l ->
  StronglySorted (fun a b => len a <= len b) (insert_by_len x l).
Proof.
  induction l as [|y l IH]; simpl; intro H.
  - repeat constructor.
  - inversion H as [|? ? Hl Hy]; subst.
    destruct (Z.leb_spec (len x) (len y)) as [E|E].
    + constructor; [assumption|]. constructor; [assumption|].
      rewrite Forall_forall in *. intros z Hz. specialize (Hy z Hz). lia.
    + constructor; [now apply IH|]. rewrite Forall_forall in *.
      intros z Hz. apply (Permutation_in _ (insert_by_len_perm x l)) in Hz.
      destruct Hz as [<-|Hz]; [lia | auto].
Qed.

Lemma insert_by_len_stable (k : Z) (x : str) (l : list str) :
  filter (fun a => len a =? k) (insert_by_len x l)
  = filter (fun a => len a =? k) (x :: l).
Proof.
  induction l as [|y l IH]; [reflexivity|]. cbn [insert_by_len].
  destruct (Z.leb_spec (len x) (len y)) as [E|E]; [reflexivity|].
  cbn [filter] in *. rewrite IH.
  destruct (len x =? k) eqn:Ex; [|reflexivity].
  apply Z.eqb_eq in Ex. replace (len y =? k) with false; [reflexivity|].
  symmetry. apply Z.eqb_neq. lia.
Qed.

Lemma sort_by_len_sorted (l : list str) :
  StronglySorted (fun a b => len a <= len b) (sort_by_len l).
Proof.
  induction l as [|x l IH]; simpl; [constructor|].
  now apply insert_by_len_sorted.
Qed.

Lemma sort_by_len_stable (k : Z) (l : list str) :
  filter (fun a => len a =? k) (sort_by_len l) = filter (fun a => len a =? k) l.
Proof.
  induction l as [|x l IH]; [reflexivity|].
  cbn [sort_by_len fold_right]. rewrite insert_by_len_stable.
  cbn [filter]. fold (sort_by_len l). now rewrite IH.
Qed.

(** [get_affixes] returns the lines of the file, each without the white
    space around it, by ascending length, lines of equal length in the
    order of the file. A blank line is kept, as the empty affix. *)
Theorem get_affixes_sorted_stable (lines : list str) :
  Permutation (get_affixes lines) (map strip lines)
  /\ StronglySorted (fun a b => len a <= len b) (get_affixes lines)
  /\ (forall k, filter (fun a => len a =? k) (get_affixes lines)
                = filter (fun a => len a =? k) (map strip lines))
  /\ (forall a, In a (get_affixes lines) -> strip a = a)
  /\ (In [] (get_affixes lines) <-> exists line, In line lines /\ strip line = []).
Proof.
  unfold get_affixes. split; [apply sort_by_len_perm|].
  assert (Hin : forall a, In a (sort_by_len (map strip lines))
                          <-> exists line, In line lines /\ strip line = a).
  { intro a. split.
    - intro H. apply (Permutation_in _ (sort_by_len_perm _)) in H.
      apply in_map_iff in H as (line & E & H). eauto.
    - intros (line & H & E).
      apply (Permutation_in _ (Permutation_sym (sort_by_len_perm _))).
      apply in_map_iff. eauto. }
  split; [|split; [|split]].
  - apply sort_by_len_sorted.
  - intro k. apply sort_by_len_stable.
  - intros a Ha. apply Hin in Ha as (line & _ & <-). apply strip_idem.
  - apply Hin.
Qed.

(** [get_words] returns one word per line of the file, in the order of
    the file, and every word is normalised as [get_stem] normalises its
    token: a line of the file is found in the lexicon under its
    normalised form. *)
Theorem get_words_normalised (lines : list str) :
  List.length (get_words lines) = List.length lines
  /\ (forall w, In w (get_words lines) -> normalise w = w)
  /\ (forall line, In line lines -> In (normalise line) (get_words lines)).
Proof.
  unfold get_words. split; [apply length_map|]. split.
  - intros w H. apply in_map_iff in H as (line & <- & _).
    apply normalise_idem.
  - intros line H. apply in_map_iff. now exists line.
Qed.

(** ** The classes of letters *)

(** [is_vowel] and [is_consonant] take any number of strings and test
    their concatenation: the call on several strings holds when it holds
    on each, the case of the letters is ignored, and the call on the
    empty string holds. *)
Theorem is_vowel_is_consonant_compose (a b : str) :
  is_vowel (a ++ b) = is_vowel a && is_vowel b
  /\ is_consonant (a ++ b) = is_consonant a && is_consonant b
  /\ is_vowel (lower a) = is_vowel a
  /\ is_consonant (lower a) = is_consonant a
  /\ is_vowel [] = true /\ is_consonant [] = true.
Proof.
  unfold is_vowel, is_consonant.
  split; [apply forallb_app|]. split; [apply forallb_app|].
  split; [|split; [|split; reflexivity]].
  - induction a as [|c a IH]; [reflexivity|]. cbn [lower map forallb].
    unfold lower in IH. now rewrite IH, lower_char_idem.
  - induction a as [|c a IH]; [reflexivity|]. cbn [lower map forallb].
    unfold lower in IH. now rewrite IH, lower_char_idem.
Qed.

(** [is_acceptable] raises [IndexError] on the empty string and on no
    other; what it accepts is its argument, has two characters or more
    and begins with a vowel, or has three or more and begins with a
    consonant. *)
Theorem is_acceptable_cases (token : Stem) :
  (is_acceptable token = Raise IndexError <-> text token = [])
  /\ (forall r, is_acceptable token = Ok (Some r) ->
                r = token
                /\ exists c rest,
                    text token = c :: rest
                    /\ ((is_vowel [c] = true /\ 2 <= len (text token))
                        \/ (is_vowel [c] = false /\ is_consonant [c] = true
                            /\ 3 <= len (text token)))).
Proof.
  unfold is_acceptable. destruct (text token) as [|c rest] eqn:E.
  - rewrite getitem_nil. cbn [bind]. split; [tauto|]. discriminate.
  - rewrite getitem_head. cbn [bind]. cbv zeta. split.
    + split; [|discriminate].
      repeat match goal with
             | |- context [if ?b then _ else _] => destruct b
             end; discriminate.
    + intros r H.
      destruct (is_vowel [c]) eqn:Hv.
      * destruct (Z.eqb_spec (len (c :: rest)) 2);
          destruct (Z.leb_spec 3 (len (c :: rest)));
          cbn [orb andb] in H;
          try destruct (existsb _ _); inversion H; subst;
          (split; [reflexivity|]); exists c, rest;
          (split; [reflexivity|]); left; split; (assumption || lia).
      * destruct (is_consonant [c]) eqn:Hc; [|discriminate].
        destruct (Z.eqb_spec (len (c :: rest)) 3);
          destruct (Z.leb_spec 4 (len (c :: rest)));
          cbn [orb andb] in H;
          try destruct (existsb _ _); inversion H; subst;
          (split; [reflexivity|]); exists c, rest;
          (split; [reflexivity|]); right; (split; [|split]); (assumption || lia).
Qed.

(** ** [helpers/manipulation.py] *)

Lemma position_in_range (s : str) (i : Z) :
  in_range s i <-> 0 <= position s i < len s.
Proof.
  unfold in_range, position. pose proof (len_nonneg s).
  destruct (Z.ltb_spec i 0); lia.
Qed.

Lemma getitem_nth (s : str) (i : Z) :
  in_range s i ->
  getitem s i = match nth_error s (Z.to_nat (position s i)) with
                | Some c => Ok c
                | None => Raise IndexError
                end.
Proof.
  intro H. apply position_in_range in H. unfold getitem. cbv zeta.
  fold (position s i). destruct (Z.ltb_spec (position s i) 0); [lia|].
  reflexivity.
Qed.

Lemma getitem_out (s : str) (i : Z) :
  ~ in_range s i -> getitem s i = Raise IndexError.
Proof.
  intro H. rewrite position_in_range in H. unfold getitem. cbv zeta.
  fold (position s i). destruct (Z.ltb_spec (position s i) 0); [reflexivity|].
  destruct (nth_error s (Z.to_nat (position s i))) eqn:E; [|reflexivity].
  assert (Hlt : (Z.to_nat (position s i) < List.length s)%nat).
  { apply nth_error_Some. congruence. }
  unfold len in H. lia.
Qed.

Lemma set_index_out (s : str) (i : Z) (letter : str) :
  ~ in_range s i -> set_index s i letter = Raise IndexError.
Proof.
  intro H. rewrite position_in_range in H. unfold set_index. cbv zeta.
  fold (position s i).
  destruct (Z.ltb_spec (position s i) 0); [reflexivity|].
  destruct (Z.leb_spec (len s) (position s i)); [reflexivity | lia].
Qed.

(** The list assignment: the character at the position is replaced, the
    others stay. *)
Lemma set_index_nth (s : str) (i : Z) (c : ascii) :
  in_range s i ->
  exists r,
    set_index s i [c] = Ok r
    /\ len r = len s
    /\ forall n, nth_error r n
                 = if Nat.eqb n (Z.to_nat (position s i)) then Some c
                   else nth_error s n.
Proof.
  intro H. apply position_in_range in H. unfold set_index. cbv zeta.
  fold (position s i). set (j := position s i) in *.
  destruct (Z.ltb_spec j 0); [lia|].
  destruct (Z.leb_spec (len s) j); [lia|]. cbn [orb].
  eexists. split; [reflexivity|].
  assert (Hj : (Z.to_nat j < List.length s)%nat) by (unfold len in *; lia).
  split.
  - unfold len in *. rewrite !length_app, length_firstn, length_skipn.
    simpl. lia.
  - intro n. destruct (Nat.eqb_spec n (Z.to_nat j)) as [->|Hn].
    + rewrite nth_error_app2 by (rewrite length_firstn; lia).
      rewrite length_firstn, Nat.min_l by lia.
      now rewrite Nat.sub_diag.
    + destruct (Nat.lt_ge_cases n (Z.to_nat j)) as [Hlt|Hge].
      * rewrite nth_error_app1 by (rewrite length_firstn; lia).
        rewrite nth_error_firstn.
        destruct (Nat.ltb_spec n (Z.to_nat j)); [reflexivity | lia].
      * rewrite nth_error_app2 by (rewrite length_firstn; lia).
        rewrite length_firstn, Nat.min_l by lia.
        destruct (n - Z.to_nat j)%nat as [|m] eqn:E; [lia|].
        cbn [app nth_error]. rewrite nth_error_skipn. f_equal. lia.
Qed.

Lemma position_len (s r : str) (i : Z) :
  len r = len s -> position r i = position s i /\ (in_range r i <-> in_range s i).
Proof. unfold position, in_range. intros ->. tauto. Qed.

Lemma with_text_same (t : Stem) : with_text t (text t) = t.
Proof. now destruct t. Qed.

Lemma getitem_some (s : str) (i : Z) :
  in_range s i ->
  exists c, getitem s i = Ok c
            /\ nth_error s (Z.to_nat (position s i)) = Some c.
Proof.
  intro H. rewrite (getitem_nth H). apply position_in_range in H.
  destruct (nth_error s (Z.to_nat (position s i))) as [c|] eqn:E; [eauto|].
  apply nth_error_None in E. unfold len in H. lia.
Qed.

Lemma replace_letter_raises (token : Stem) (index : Z) (letter : str) :
  replace_letter token index letter = Raise IndexError
  <-> ~ in_range (text token) index.
Proof.
  unfold replace_letter. split.
  - intros H Hi. apply position_in_range in Hi. unfold set_index in H.
    cbv zeta in H. fold (position (text token) index) in H.
    destruct (Z.ltb_spec (position (text token) index) 0); [lia|].
    destruct (Z.leb_spec (len (text token)) (position (text token) index));
      [lia | discriminate].
  - intro H. now rewrite set_index_out.
Qed.

(** [replace_letter] raises [IndexError] exactly when the index is out
    of range. In range, with a letter of one character, it returns a
    string of the same length and the same annotations, with the letter
    at the index and every other character unchanged. *)
Theorem replace_letter_spec (token : Stem) (index : Z) (letter : str) (c : ascii) :
  (replace_letter token index letter = Raise IndexError
   <-> ~ in_range (text token) index)
  /\ (in_range (text token) index ->
      exists r,
        replace_letter token index [c] = Ok r
        /\ with_text r (text token) = token
        /\ len (text r) = len (text token)
        /\ getitem (text r) index = Ok c
        /\ forall j, in_range (text token) j ->
                     position (text token) j <> position (text token) index ->
                     getitem (text r) j = getitem (text token) j).
Proof.
  split; [apply replace_letter_raises|].
  intro Hi. unfold replace_letter.
  destruct (@set_index_nth (text token) index c Hi) as (r & -> & Hlen & Hnth).
  cbn [bind].
  eexists. split; [reflexivity|].
  split; [now destruct token|]. cbn [text with_text].
  split; [exact Hlen|].
  destruct (@position_len (text token) r index Hlen) as (Hp & Hr).
  split.
  - rewrite getitem_nth by now apply Hr. rewrite Hp, Hnth.
    now rewrite Nat.eqb_refl.
  - intros j Hj Hne.
    destruct (@position_len (text token) r j Hlen) as (Hpj & Hrj).
    rewrite !getitem_nth by (assumption || now apply Hrj).
    rewrite Hpj, Hnth.
    apply position_in_range in Hi. apply position_in_range in Hj.
    destruct (Nat.eqb_spec (Z.to_nat (position (text token) j))
                           (Z.to_nat (position (text token) index)));
      [lia | reflexivity].
Qed.

Lemma swap_letters_nth (token : Stem) (index1 index2 : Z) :
  in_range (text token) index1 -> in_range (text token) index2 ->
  exists r,
    swap_letters token index1 index2 = Ok r
    /\ len (text r) = len (text token)
    /\ with_text r (text token) = token
    /\ forall n,
        nth_error (text r) n
        = if Nat.eqb n (Z.to_nat (position (text token) index2))
          then nth_error (text token) (Z.to_nat (position (text token) index1))
          else if Nat.eqb n (Z.to_nat (position (text token) index1))
               then nth_error (text token)
                              (Z.to_nat (position (text token) index2))
               else nth_error (text token) n.
Proof.
  intros H1 H2. unfold swap_letters.
  destruct (getitem_some H1) as (a & -> & Ha).
  destruct (getitem_some H2) as (b & -> & Hb). cbn [bind].
  destruct (@set_index_nth (text token) index1 b H1) as (l1 & -> & Hl1 & Hn1).
  cbn [bind].
  destruct (@position_len (text token) l1 index2 Hl1) as (Hp2 & Hr2).
  destruct (@set_index_nth l1 index2 a (proj2 Hr2 H2)) as (l2 & -> & Hl2 & Hn2).
  cbn [bind]. eexists. split; [reflexivity|].
  split; [cbn [text with_text]; congruence|].
  split; [now destruct token|].
  intro n. cbn [text with_text]. rewrite Hn2, Hp2, Hn1, Ha, Hb.
  reflexivity.
Qed.

Lemma same_annotations (a b c : Stem) :
  with_text a (text b) = b -> with_text b (text c) = c -> text a = text c ->
  a = c.
Proof.
  destruct a, b, c. unfold with_text. cbn. intros H1 H2 H3.
  inversion H1; inversion H2; subst. reflexivity.
Qed.

(** [swap_letters] raises [IndexError] exactly when one of the two
    indices is out of range. In range, it returns a string of the same
    length and annotations in which the characters at the two indices
    have changed places and the others are unchanged; swapping the same
    indices again gives the token back. *)
Theorem swap_letters_spec (token : Stem) (index1 index2 : Z) :
  (swap_letters token index1 index2 = Raise IndexError
   <-> ~ in_range (text token) index1 \/ ~ in_range (text token) index2)
  /\ (in_range (text token) index1 -> in_range (text token) index2 ->
      exists r,
        swap_letters token index1 index2 = Ok r
        /\ len (text r) = len (text token)
        /\ getitem (text r) index1 = getitem (text token) index2
        /\ getitem (text r) index2 = getitem (text token) index1
        /\ (forall j, in_range (text token) j ->
                      position (text token) j <> position (text token) index1 ->
                      position (text token) j <> position (text token) index2 ->
                      getitem (text r) j = getitem (text token) j)
        /\ swap_letters r index1 index2 = Ok token).
Proof.
  split.
  - split.
    + intro H.
      destruct (Z_le_gt_dec (- len (text token)) index1);
        destruct (Z_lt_ge_dec index1 (len (text token)));
        try (left; unfold in_range; lia).
      destruct (Z_le_gt_dec (- len (text token)) index2);
        destruct (Z_lt_ge_dec index2 (len (text token)));
        try (right; unfold in_range; lia).
      destruct (@swap_letters_nth token index1 index2) as (r & Hr & _);
        [unfold in_range; lia ..|]. congruence.
    + unfold swap_letters. intros [H|H].
      * now rewrite (getitem_out H).
      * rewrite (getitem_out H). destruct (getitem (text token) index1) as [a|[]]; reflexivity.
  - intros H1 H2.
    destruct (@swap_letters_nth token index1 index2 H1 H2)
      as (r & Hr & Hlen & Hann & Hnth).
    exists r. split; [exact Hr|]. split; [exact Hlen|].
    destruct (@position_len (text token) (text r) index1 Hlen) as (Hp1 & Hr1).
    destruct (@position_len (text token) (text r) index2 Hlen) as (Hp2 & Hr2).
    pose proof (proj1 (position_in_range _ _) H1) as Hb1.
    pose proof (proj1 (position_in_range _ _) H2) as Hb2.
    split; [|split; [|split]].
    + rewrite !getitem_nth by (assumption || tauto). rewrite Hp1, Hnth.
      rewrite Nat.eqb_refl.
      destruct (Nat.eqb_spec (Z.to_nat (position (text token) index1))
                             (Z.to_nat (position (text token) index2))) as [E|E];
        [now rewrite E | reflexivity].
    + rewrite !getitem_nth by (assumption || tauto). rewrite Hp2, Hnth.
      now rewrite Nat.eqb_refl.
    + intros j Hj Hn1 Hn2.
      destruct (@position_len (text token) (text r) j Hlen) as (Hpj & Hrj).
      pose proof (proj1 (position_in_range _ _) Hj) as Hbj.
      rewrite !getitem_nth by (assumption || tauto). rewrite Hpj, Hnth.
      destruct (Nat.eqb_spec (Z.to_nat (position (text token) j))
                             (Z.to_nat (position (text token) index2))); [lia|].
      destruct (Nat.eqb_spec (Z.to_nat (position (text token) j))
                             (Z.to_nat (position (text token) index1))); [lia|].
      reflexivity.
    + destruct (@swap_letters_nth r index1 index2)
        as (r' & Hr' & Hlen' & Hann' & Hnth'); [tauto | tauto |].
      rewrite Hr'. f_equal.
      apply (@same_annotations r' r token Hann' Hann).
      apply nth_error_ext. intro n. rewrite Hnth', Hp1, Hp2, !Hnth.
      rewrite !Nat.eqb_refl.
      generalize (Z.to_nat (position (text token) index1)).
      generalize (Z.to_nat (position (text token) index2)).
      intros p2 p1.
      destruct (Nat.eqb_spec n p2); destruct (Nat.eqb_spec n p1);
        destruct (Nat.eqb_spec p1 p2); subst; try reflexivity; congruence.
Qed.

(** ** [stem_vowel_loss] *)

Lemma emit_valid_lexicon (stem : Stem) (lexicon : list str) (vowel : str)
      (x : Stem) :
  lexicon <> [] ->
  In x (emit_valid stem (Some lexicon) vowel) ->
  x = set_vowel_loss stem vowel /\ In (text stem) lexicon.
Proof.
  intro Hne. unfold emit_valid, is_valid.
  destruct lexicon as [|w ws]; [contradiction|].
  destruct (mem (text stem) (w :: ws)) eqn:E; [|intros []].
  destruct (nonempty (text stem)); [|intros []].
  intros [<-|[]]. split; [reflexivity|]. now apply mem_In.
Qed.

(** With a lexicon, [stem_vowel_loss] returns words of the lexicon only;
    each is a token of two characters or more with one vowel of the
    alphabet put back, at the end or (for a token of three characters or
    more) before the last character, and carries that vowel as its
    [vowel_loss] annotation. *)
Theorem stem_vowel_loss_lexicon
        (tokens : pyset) (lexicon : list str) (r : pyset) :
  lexicon <> [] ->
  stem_vowel_loss tokens (Some lexicon) = Ok r ->
  forall x, In x r ->
    In (text x) lexicon
    /\ exists token v,
        In token tokens /\ In v VOWELS
        /\ vowel_loss x = Some [v]
        /\ with_text x (text token) = set_vowel_loss token [v]
        /\ 1 < len (text token)
        /\ (text x = text token ++ [v]
            \/ (2 < len (text token)
                /\ exists last,
                    getitem (text token) (-1) = Ok last
                    /\ text x
                       = (slice (text token) (Some 0) (Some (-1)) ++ [v])
                           ++ [last])).
Proof.
  intros Hne H. unfold stem_vowel_loss in H.
  apply Forall_forall.
  eapply nested_loop_Forall; [|apply Forall_nil|exact H].
  intros token v out Htok Hv Hout. apply (proj1 (set_iter_In _ _)) in Htok.
  apply Forall_forall. intros x Hx.
  unfold stem_vowel_loss_emit in Hout. cbv zeta in Hout.
  apply bind_ok in Hout as (out2 & Hout2 & Hout). inversion Hout; subst out.
  clear Hout. apply in_app_or in Hx as [Hx|Hx].
  - destruct (Z.ltb_spec 1 (len (text token))) as [H1|H1]; [|destruct Hx].
    apply (@emit_valid_lexicon _ lexicon _ x Hne) in Hx as [-> Hin].
    split; [exact Hin|]. exists token, v.
    split; [assumption|]. split; [assumption|]. split; [reflexivity|].
    split; [now destruct token|]. split; [assumption|]. now left.
  - destruct (Z.ltb_spec 2 (len (text token))) as [H2|H2];
      [|inversion Hout2; subst; destruct Hx].
    apply bind_ok in Hout2 as (last & Hlast & Hout2).
    inversion Hout2; subst out2. clear Hout2.
    apply (@emit_valid_lexicon _ lexicon _ x Hne) in Hx as [-> Hin].
    split; [exact Hin|]. exists token, v.
    split; [assumption|]. split; [assumption|]. split; [reflexivity|].
    split; [now destruct token|]. split; [lia|]. right.
    split; [assumption|]. exists last. split; [assumption | reflexivity].
Qed.

(** ** [stem_dup] on an exact reduplication *)

Lemma ch_eqb_swap (a b : ascii) : ch_eqb a b = ch_eqb b a.
Proof.
  destruct (ch_eqb a b) eqn:E.
  - apply ch_eqb_eq in E. subst. now rewrite ch_eqb_refl.
  - destruct (ch_eqb b a) eqn:E'; [|reflexivity].
    apply ch_eqb_eq in E'. subst. now rewrite ch_eqb_refl in E.
Qed.

Lemma split_on_plain (sep : ascii) (s : str) :
  contains sep s = false -> split_on sep s = [s].
Proof.
  unfold contains. induction s as [|c s IH]; [reflexivity|].
  cbn [existsb split_on]. intro H. apply orb_false_iff in H as [Hc Hs].
  rewrite ch_eqb_swap, Hc. now rewrite (IH Hs).
Qed.

Lemma split_on_sep (sep : ascii) (a b : str) :
  contains sep a = false ->
  split_on sep (a ++ sep :: b) = a :: split_on sep b.
Proof.
  unfold contains. induction a as [|c a IH]; cbn [existsb app split_on].
  - intros _. now rewrite ch_eqb_refl.
  - intro H. apply orb_false_iff in H as [Hc Ha].
    rewrite ch_eqb_swap, Hc. now rewrite (IH Ha).
Qed.

(** On a token made of a word, a hyphen and the same word again, the
    word being free of hyphens and of two characters or more,
    [stem_dup] returns the word alone, annotated with itself as [dup]. *)
Theorem stem_dup_exact (token : Stem) (w : str) :
  contains "-" w = false -> 1 < len w ->
  text token = w ++ "-"%char :: w ->
  stem_dup [token] = Ok [set_dup (with_text token w) w].
Proof.
  intros Hw Hlen Htext.
  assert (Hemit : stem_dup_emit token = Ok [set_dup (with_text token w) w]).
  { unfold stem_dup_emit, ssplit. cbv zeta. rewrite Htext.
    rewrite split_on_sep, split_on_plain by assumption.
    assert (Hc : contains "-" (w ++ "-"%char :: w) = true).
    { rewrite contains_app. unfold contains at 2. cbn [existsb].
      rewrite ch_eqb_refl. now rewrite orb_true_r. }
    rewrite Hc. cbn [and_then].
    destruct w as [|a w'] eqn:Ew; [discriminate Hlen|].
    rewrite <- Ew in *.
    assert (Hhead : getitem (w ++ "-"%char :: w) 0 = Ok a).
    { rewrite Ew. apply getitem_head. }
    destruct (@exists_last _ w) as (w'' & b & Eb); [rewrite Ew; discriminate|].
    assert (Hlast : getitem (w ++ "-"%char :: w) (-1) = Ok b).
    { rewrite Eb at 2.
      change (w ++ "-"%char :: w'' ++ [b])
        with (w ++ ("-"%char :: w'') ++ [b]).
      rewrite app_assoc. apply getitem_last. }
    rewrite Hhead, Hlast. cbn [bind].
    assert (Ha : ch_eqb "-" a = false).
    { rewrite Ew in Hw. unfold contains in Hw. cbn [existsb] in Hw.
      now apply orb_false_iff in Hw as [Hw _]. }
    assert (Hb : ch_eqb "-" b = false).
    { rewrite Eb, contains_app in Hw. apply orb_false_iff in Hw as [_ Hw].
      unfold contains in Hw. cbn [existsb] in Hw.
      now apply orb_false_iff in Hw as [Hw _]. }
    unfold mem. cbn [existsb str_eqb py list_ascii_of_string].
    rewrite Ha, Hb. cbn [andb orb negb map].
    unfold stem_dup_parts. cbv zeta. cbn [text with_text].
    replace (1 <? len w) with true by (symmetry; now apply Z.ltb_lt).
    cbn [andb]. unfold stem_eqb. cbn [text with_text].
    now rewrite str_eqb_refl. }
  unfold stem_dup. rewrite set_iter_one. cbn [foldM]. rewrite Hemit.
  reflexivity.
Qed.

(** ** Blank input *)

Lemma apply_stemming_silent (functions : list rule) (tokens : pyset)
      (valid_words : option (list str)) :
  (forall f, In f functions -> run_rule f tokens valid_words = Ok []) ->
  apply_stemming functions tokens valid_words = Ok tokens.
Proof.
  induction functions as [|f functions IH]; intro H; [reflexivity|].
  rewrite apply_stemming_cons, H by now left. cbn [bind].
  rewrite set_iter_empty. apply IH. intros; apply H; now right.
Qed.

Lemma run_rule_blank (f : rule) (valid_words : option (list str)) :
  run_rule f [new_stem []] valid_words = Ok [].
Proof.
  destruct f; cbn [run_rule].
  - unfold stem_dup. now rewrite set_iter_one.
  - unfold stem_pre. apply nested_loop_silent. intros token p Htok _.
    rewrite set_iter_one in Htok. destruct Htok as [<-|[]].
    unfold stem_pre_emit. cbn [text new_stem]. change (len []) with 0.
    pose proof (len_nonneg p).
    destruct (Z.ltb_spec (len p) 0); [lia|]. now rewrite andb_false_r.
  - unfold stem_rep. apply add_loop_silent. intros token Htok.
    rewrite set_iter_one in Htok. destruct Htok as [<-|[]]. reflexivity.
  - unfold stem_inf. apply nested_loop_silent. intros token x Htok _.
    rewrite set_iter_one in Htok. destruct Htok as [<-|[]].
    unfold stem_inf_emit. cbv zeta. cbn [text new_stem]. change (len []) with 0.
    pose proof (len_nonneg x).
    destruct (Z.ltb_spec (len x + 1) 0); [lia | reflexivity].
  - unfold stem_suf. apply nested_loop_silent. intros token x Htok _.
    rewrite set_iter_one in Htok. destruct Htok as [<-|[]].
    unfold stem_suf_emit. cbv zeta. cbn [text new_stem]. change (len []) with 0.
    pose proof (len_nonneg x).
    destruct (Z.ltb_spec (len x) 0); [lia|]. now rewrite andb_false_r.
Qed.

(** On the empty string, and on a token of white space only, [get_stem]
    returns the empty string without annotation and
    [get_stem_candidates] the list of that string alone: no rule applies
    and nothing raises, whatever the affix lists and the lexicon. *)
Theorem get_stem_blank (token : str) (valid_words : option (list str)) :
  normalise token = [] ->
  get_stem token valid_words = Ok (new_stem [])
  /\ get_stem_candidates token valid_words = Ok [new_stem []].
Proof.
  intro Hblank.
  assert (Hc : get_stem_candidates [] valid_words = Ok [new_stem []]).
  { unfold get_stem_candidates. cbv zeta.
    change (normalise []) with (@nil ascii).
    rewrite apply_stemming_silent by (intros; apply run_rule_blank).
    cbn [bind]. rewrite set_iter_one. cbn [filterM].
    replace (passes valid_words (new_stem [])) with (Ok false).
    - reflexivity.
    - unfold passes, is_valid.
      destruct valid_words as [[|w ws]|]; try reflexivity.
      now destruct (mem _ _). }
  split.
  - unfold get_stem. cbv zeta. cbn [text new_stem]. rewrite Hblank, Hc.
    reflexivity.
  - unfold get_stem_candidates in *. cbv zeta in *. rewrite Hblank.
    exact Hc.
Qed.

(** ** [get_stems] *)

Lemma mapM_ok (A B : Type) (f : A -> result B) (l : list A) (r : list B) :
  mapM f l = Ok r <-> Forall2 (fun x y => f x = Ok y) l r.
Proof.
  revert r. induction l as [|x l IH]; intro r; cbn [mapM].
  - split; intro H; inversion H; subst; constructor.
  - split.
    + intro H. apply bind_ok in H as (y & Hy & H).
      apply bind_ok in H as (ys & Hys & H). inversion H; subst.
      constructor; [assumption|]. now apply IH.
    + intro H. inversion H as [|? y ? ys Hy Hys]; subst.
      rewrite Hy. cbn [bind]. apply IH in Hys. rewrite Hys. reflexivity.
Qed.

Lemma mapM_raise (A B : Type) (f : A -> result B) (l : list A) :
  mapM f l = Raise IndexError <-> exists x, In x l /\ f x = Raise IndexError.
Proof.
  induction l as [|x l IH]; cbn [mapM].
  - split; [discriminate | intros (x & [] & _)].
  - destruct (f x) as [y|[]] eqn:E; cbn [bind].
    + destruct (mapM f l) as [ys|[]] eqn:E'; cbn [bind].
      * split; [discriminate|]. intros (z & [<-|Hz] & Hr); [congruence|].
        assert (H : Ok ys = Raise IndexError :> result (list B)).
        { apply (proj2 IH). eauto. }
        discriminate H.
      * split; [|reflexivity]. intros _.
        destruct (proj1 IH eq_refl) as (z & Hz & Hr). exists z.
        split; [now right | assumption].
    + split; [|reflexivity]. intros _. exists x.
      split; [now left | assumption].
Qed.

Lemma is_substring_nil (s : str) : is_substring [] s = true.
Proof. now destruct s. Qed.

Lemma is_substring_char (c : ascii) (s : str) :
  is_substring [c] s = contains c s.
Proof.
  unfold contains. induction s as [|x s IH]; [reflexivity|].
  cbn [is_substring startswith existsb]. rewrite IH.
  destruct s; now rewrite andb_true_r.
Qed.

(** [get_stems] returns the stems of the tokens it keeps, one for each
    and in their order, and raises [IndexError] exactly when [get_stem]
    raises on one of them. With [exclude_punc], it keeps the tokens of
    [word_tokenize] that are no contiguous part of [string.punctuation]:
    the empty token and every token of one punctuation character are
    dropped; without, it keeps them all. *)
Theorem get_stems_spec
        (word_tokenize : str -> list str) (text : str)
        (valid_words : option (list str)) (exclude_punc : bool) :
  let kept := kept_tokens word_tokenize text exclude_punc in
  (forall stems,
      get_stems word_tokenize text valid_words exclude_punc = Ok stems
      <-> Forall2 (fun token stem => get_stem token valid_words = Ok stem)
                  kept stems)
  /\ (get_stems word_tokenize text valid_words exclude_punc = Raise IndexError
      <-> exists token, In token kept
                        /\ get_stem token valid_words = Raise IndexError)
  /\ (forall token,
         In token kept
         <-> In token (word_tokenize text)
             /\ (exclude_punc = true -> is_substring token PUNCS = false))
  /\ (exclude_punc = true ->
      ~ In [] kept /\ forall c, contains c PUNCS = true -> ~ In [c] kept).
Proof.
  intro kept.
  assert (Hkept : forall token,
             In token kept
             <-> In token (word_tokenize text)
                 /\ (exclude_punc = true -> is_substring token PUNCS = false)).
  { intro token. unfold kept, kept_tokens. cbv zeta.
    destruct exclude_punc.
    - rewrite filter_In, negb_true_iff. intuition.
    - intuition discriminate. }
  split; [|split; [|split]].
  - intro stems. apply mapM_ok.
  - apply mapM_raise.
  - exact Hkept.
  - intro Hex. split.
    + intro H. apply Hkept in H as [_ H]. specialize (H Hex).
      now rewrite is_substring_nil in H.
    + intros c Hc H. apply Hkept in H as [_ H]. specialize (H Hex).
      rewrite is_substring_char in H. congruence.
Qed.

(** ** The empty lexicon *)

(** An empty list as lexicon switches validation off, as [None] does:
    the candidates and the stem are those found without lexicon. *)
Theorem empty_lexicon_is_no_lexicon (token : str) :
  get_stem token (Some []) = get_stem token None
  /\ get_stem_candidates token (Some []) = get_stem_candidates token None.
Proof. split; reflexivity. Qed.

(** ** What the affix rules strip *)


Lemma slice_to_app (a b : str) : slice (a ++ b) (Some 0) (Some (len a)) = a.
Proof.
  unfold slice, clamp. cbn [Z.ltb Z.compare]. pose proof (len_nonneg a).
  pose proof (len_nonneg b). rewrite len_app.
  destruct (Z.ltb_spec (len a) 0); [lia|].
  rewrite (Z.min_l 0) by lia. rewrite Z.min_l by lia.
  cbn [Z.to_nat skipn]. rewrite Z.sub_0_r. unfold len. rewrite Nat2Z.id.
  rewrite firstn_app, firstn_all, Nat.sub_diag. cbn [firstn].
  apply app_nil_r.
Qed.


Lemma slice_tail (c : ascii) (s : str) : slice (c :: s) (Some 1) None = s.
Proof. apply (slice_from_app [c] s). Qed.

(** What [stem_pre] emits for a token and a prefix begins with the token
    without the prefix, and without the hyphen that follows the prefix
    if there is one; this stem is not empty, carries the prefix as its
    [pre] and keeps the other annotations of the token. *)
Theorem stem_pre_emit_strips_prefix
        (token : Stem) (prefix : str) (out : list Stem) :
  stem_pre_emit token prefix = Ok out ->
  (out = []
   /\ (startswith (text token) prefix = false
       \/ len (text token) <= len prefix))
  \/ exists s others,
      out = s :: others
      /\ s = strip_prefix token prefix
      /\ text s <> []
      /\ (text token = prefix ++ text s
          \/ text token = prefix ++ "-"%char :: text s)
      /\ with_text s (text token) = set_pre token prefix.
Proof.
  unfold stem_pre_emit. intro H.
  destruct (startswith (text token) prefix) eqn:Hsw; cbn [andb] in H;
    [|inversion H; auto].
  destruct (Z.ltb_spec (len prefix) (len (text token))) as [Hlen|Hlen];
    [|inversion H; auto].
  right. cbv zeta in H. apply startswith_split in Hsw as (r & Hr).
  unfold strip_prefix. cbv zeta.
  set (stem0 := set_pre (sslice token (Some (len prefix)) None) prefix) in *.
  assert (H0 : text stem0 = r).
  { unfold stem0, set_pre, sslice. cbn [text with_text]. rewrite Hr.
    apply slice_from_app. }
  assert (Hw : forall x, with_text (with_text stem0 x) (text token)
                         = set_pre token prefix).
  { intro x. unfold stem0. now destruct token. }
  assert (Hw0 : with_text stem0 (text token) = set_pre token prefix).
  { unfold stem0. now destruct token. }
  destruct (text stem0) as [|c0 r0] eqn:E0; [discriminate H|].
  rewrite getitem_head in H. cbn [bind] in H.
  set (s := if ch_eqb c0 "-" then sslice stem0 (Some 1) None else stem0) in *.
  apply bind_ok in H as (c & Hc & H).
  apply bind_ok in H as (dr & _ & H).
  apply bind_ok in H as (acc & _ & H).
  apply bind_ok in H as (asml & _ & H).
  apply bind_ok in H as (stems_asml & _ & H).
  inversion H; subst out. clear H.
  eexists s, _. split; [reflexivity|]. split; [reflexivity|].
  split; [intro E; rewrite E, getitem_nil in Hc; discriminate|].
  subst s. destruct (ch_eqb c0 "-") eqn:Eh.
  - apply ch_eqb_eq in Eh. subst c0. unfold sslice.
    split; [|apply Hw]. cbn [text with_text].
    rewrite E0, slice_tail. right. now rewrite Hr, <- H0.
  - split; [|apply Hw0]. left. now rewrite E0, H0.
Qed.

Lemma slice_nat (t : str) (i j : Z) :
  0 <= i <= j -> j <= len t ->
  slice t (Some i) (Some j)
  = firstn (Z.to_nat j - Z.to_nat i) (skipn (Z.to_nat i) t).
Proof.
  intros Hi Hj. unfold slice, clamp.
  destruct (Z.ltb_spec i 0); [lia|]. destruct (Z.ltb_spec j 0); [lia|].
  rewrite !Z.min_l by lia. now rewrite Z2Nat.inj_sub by lia.
Qed.

Lemma slice_from_nat (t : str) (i : Z) :
  0 <= i <= len t -> slice t (Some i) None = skipn (Z.to_nat i) t.
Proof.
  intro Hi. unfold slice, clamp. destruct (Z.ltb_spec i 0); [lia|].
  rewrite Z.min_l by lia. apply firstn_all2.
  rewrite length_skipn. unfold len. lia.
Qed.

Lemma slice_none_zero (t : str) (hi : option Z) :
  slice t None hi = slice t (Some 0) hi.
Proof.
  unfold slice, clamp. cbn [Z.ltb Z.compare]. pose proof (len_nonneg t).
  now rewrite (Z.min_l 0) by lia.
Qed.

(** An infix of two characters found at position [k], before the
    character [v]: the string is its first [k] characters, the infix and
    the rest. *)
Lemma infix_at (t : str) (k : Z) (infix : str) (v : ascii) :
  0 <= k ->
  str_eqb (slice t (Some k) (Some (k + 2))) infix = true ->
  getitem t (k + 2) = Ok v ->
  exists rest,
    t = slice t (Some 0) (Some k) ++ infix ++ v :: rest
    /\ slice t (Some (k + 2)) None = v :: rest
    /\ len (slice t (Some 0) (Some k)) = k.
Proof.
  intros Hk Hinf Hv. apply str_eqb_eq in Hinf.
  assert (Hlen : k + 2 < len t).
  { destruct (Z_lt_ge_dec (k + 2) (len t)); [assumption|].
    rewrite getitem_beyond in Hv by lia. discriminate. }
  assert (Hr : in_range t (k + 2)) by (unfold in_range; lia).
  destruct (getitem_some Hr) as (v' & Hv' & Hnth).
  rewrite Hv in Hv'. inversion Hv'; subst v'. clear Hv'.
  unfold position in Hnth. destruct (Z.ltb_spec (k + 2) 0); [lia|].
  apply nth_error_split in Hnth as (l1 & rest & Ht & Hl1).
  exists rest.
  assert (Hskip : skipn (Z.to_nat (k + 2)) t = v :: rest).
  { rewrite Ht, <- Hl1, skipn_app, skipn_all, Nat.sub_diag. reflexivity. }
  rewrite slice_from_nat by lia. split; [|split; [exact Hskip|]].
  - rewrite <- Hinf, <- Hskip.
    rewrite !slice_nat by lia.
    change (Z.to_nat 0) with 0%nat. rewrite Nat.sub_0_r. cbn [skipn].
    replace (Z.to_nat (k + 2)) with (Z.to_nat (k + 2) - Z.to_nat k + Z.to_nat k)%nat
      at 2 by lia.
    rewrite <- skipn_skipn, firstn_skipn, firstn_skipn. reflexivity.
  - rewrite len_slice_to; lia.
Qed.

Lemma emit_if_some (stem : Stem) (tag : Stem -> Stem) (a rest : str) (v : ascii) :
  text stem = a ++ v :: rest -> emit_if (Some stem) tag = [tag stem].
Proof. intro E. unfold emit_if. rewrite E. now destruct a. Qed.

(** For an infix of two characters, what [stem_inf] emits for a token
    and the infix is at most one stem: the token without the infix,
    which stood after at most three characters, all consonants, and
    before a vowel. The stem carries the infix as its [inf] and keeps
    the other annotations of the token. *)
Theorem stem_inf_emit_removes_infix (token : Stem) (infix : str) :
  len infix = 2 ->
  exists out,
    stem_inf_emit token infix = Ok out
    /\ (out = []
        \/ exists s a v rest,
            out = [s]
            /\ text token = a ++ infix ++ v :: rest
            /\ text s = a ++ v :: rest
            /\ len a <= 3
            /\ is_consonant a = true
            /\ is_vowel [v] = true
            /\ with_text s (text token) = set_inf token infix).
Proof.
  intro Hlen2.
  destruct (@stem_inf_emit_ok token infix) as (out & Hout); [lia|].
  exists out. split; [exact Hout|].
  unfold stem_inf_emit in Hout. cbv zeta in Hout.
  destruct (Z.ltb_spec (len infix + 1) (len (text token))) as [Hg|Hg];
    [|inversion Hout; now left].
  apply bind_ok in Hout as (c1 & Hc1 & Hout).
  apply bind_ok in Hout as (stem & Hstem & Hout).
  inversion Hout; subst out; clear Hout.
  destruct c1.
  { (* <infix>V... *)
    inversion Hstem; subst stem; clear Hstem.
    destruct (startswith (text token) infix) eqn:Hsw; cbn [and_then] in Hc1;
      [|discriminate Hc1].
    apply bind_ok in Hc1 as (v & Hv & Hc1). assert (Hvowel : is_vowel [v] = true) by congruence.
    assert (Hinf : str_eqb (slice (text token) (Some 0) (Some (0 + 2))) infix
                   = true).
    { apply startswith_split in Hsw as (r & ->). apply str_eqb_eq.
      cbn [Z.add]. rewrite <- Hlen2. apply slice_to_app. }
    destruct (@infix_at (text token) 0 infix v) as (rest & Ht & Hs & Hla);
      [lia | exact Hinf | exact Hv |].
    cbn [Z.add] in Hs. apply len_nil_iff in Hla. rewrite Hla in Ht.
    right. exists (set_inf (sslice token (Some 2) None) infix), [], v, rest.
    split; [apply emit_if_some with (a := []) (v := v) (rest := rest); exact Hs|].
    split; [exact Ht|]. split; [exact Hs|]. split; [cbn; lia|].
    split; [reflexivity|]. split; [exact Hvowel | now destruct token]. }
  apply bind_ok in Hstem as (c2 & Hc2 & Hstem).
  destruct c2.
  { (* C<infix>V... *)
    destruct (3 <? len (text token)) eqn:H3; cbn [and_then] in Hc2;
      [|discriminate Hc2].
    destruct (str_eqb (slice (text token) (Some 1) (Some 3)) infix) eqn:Hinf;
      cbn [and_then] in Hc2; [|discriminate Hc2].
    apply bind_ok in Hc2 as (a0 & Ha0 & Hc2).
    destruct (is_consonant [a0]) eqn:Hcons; cbn [and_then] in Hc2;
      [|discriminate Hc2].
    apply bind_ok in Hc2 as (v & Hv & Hc2). assert (Hvowel : is_vowel [v] = true) by congruence.
    unfold sgetitem in Hstem. rewrite Ha0 in Hstem. cbn [bind] in Hstem.
    inversion Hstem; subst stem; clear Hstem.
    destruct (@infix_at (text token) 1 infix v) as (rest & Ht & Hs & Hla);
      [lia | exact Hinf | exact Hv |].
    cbn [Z.add Pos.add Pos.succ] in Hs.
    apply Z.ltb_lt in H3.
    destruct (@getitem_at (text token) 0) as (a0' & Ha0' & Hat); [lia|].
    rewrite Ha0 in Ha0'. inversion Ha0'; subst a0'. clear Ha0'.
    change (at_ (text token) 0) with (slice (text token) (Some 0) (Some 1)) in Hat.
    rewrite Hat in Ht, Hla.
    right. eexists _, [a0], v, rest.
    split; [apply emit_if_some with (a := [a0]) (v := v) (rest := rest);
            cbn [text sadd with_text]; now rewrite Hs|].
    split; [exact Ht|].
    split; [cbn [text set_inf sadd with_text]; now rewrite Hs|].
    split; [lia|]. split; [exact Hcons|].
    split; [exact Hvowel | now destruct token]. }
  apply bind_ok in Hstem as (c3 & Hc3 & Hstem).
  destruct c3.
  { (* CC<infix>V... *)
    destruct (4 <? len (text token)) eqn:H4; cbn [and_then] in Hc3;
      [|discriminate Hc3].
    destruct (str_eqb (slice (text token) (Some 2) (Some 4)) infix) eqn:Hinf;
      cbn [and_then] in Hc3; [|discriminate Hc3].
    destruct (is_consonant (slice (text token) None (Some 2))) eqn:Hcons;
      cbn [and_then] in Hc3; [|discriminate Hc3].
    apply bind_ok in Hc3 as (v & Hv & Hc3). assert (Hvowel : is_vowel [v] = true) by congruence.
    inversion Hstem; subst stem; clear Hstem.
    destruct (@infix_at (text token) 2 infix v) as (rest & Ht & Hs & Hla);
      [lia | exact Hinf | exact Hv |].
    cbn [Z.add Pos.add Pos.succ] in Hs. rewrite slice_none_zero in Hcons.
    right. eexists _, (slice (text token) (Some 0) (Some 2)), v, rest.
    split; [eapply emit_if_some; cbn [text sadd sslice with_text];
            now rewrite Hs|].
    split; [exact Ht|].
    split; [cbn [text set_inf sadd sslice with_text]; now rewrite Hs|].
    split; [lia|]. split; [exact Hcons|].
    split; [exact Hvowel | now destruct token]. }
  apply bind_ok in Hstem as (c4 & Hc4 & Hstem).
  destruct c4; [|inversion Hstem; subst stem; now left].
  (* CCC<infix>V... *)
  destruct (5 <? len (text token)) eqn:H5; cbn [and_then] in Hc4;
    [|discriminate Hc4].
  destruct (str_eqb (slice (text token) (Some 3) (Some 5)) infix) eqn:Hinf;
    cbn [and_then] in Hc4; [|discriminate Hc4].
  destruct (is_consonant (slice (text token) None (Some 3))) eqn:Hcons;
    cbn [and_then] in Hc4; [|discriminate Hc4].
  apply bind_ok in Hc4 as (v & Hv & Hc4). assert (Hvowel : is_vowel [v] = true) by congruence.
  inversion Hstem; subst stem; clear Hstem.
  destruct (@infix_at (text token) 3 infix v) as (rest & Ht & Hs & Hla);
    [lia | exact Hinf | exact Hv |].
  cbn [Z.add Pos.add Pos.succ] in Hs. rewrite slice_none_zero in Hcons.
  right. eexists _, (slice (text token) (Some 0) (Some 3)), v, rest.
  split; [eapply emit_if_some; cbn [text sadd sslice with_text];
          now rewrite Hs|].
  split; [exact Ht|].
  split; [cbn [text set_inf sadd sslice with_text]; now rewrite Hs|].
  split; [lia|]. split; [exact Hcons|].
  split; [exact Hvowel | now destruct token].
Qed.

Lemma slice_cut (t : str) (k : Z) :
  0 <= k <= len t ->
  slice t None (Some k) ++ slice t (Some k) None = t
  /\ len (slice t None (Some k)) = k.
Proof.
  intro Hk. rewrite slice_none_zero, slice_from_nat by lia.
  rewrite slice_nat by lia. change (Z.to_nat 0) with 0%nat.
  rewrite Nat.sub_0_r. cbn [skipn]. split; [apply firstn_skipn|].
  unfold len in *. rewrite length_firstn. lia.
Qed.

Lemma first_match_In (patterns : list ((str -> bool) * Z)) (t : str) (k : Z) :
  first_match patterns t = Some k ->
  exists p, In (p, k) patterns /\ p t = true.
Proof.
  unfold first_match. intro H.
  destruct (find (fun p => fst p t) patterns) as [[p k']|] eqn:E;
    [|discriminate]. cbn in H. inversion H; subst k'.
  apply find_some in E as [Hin Hp]. now exists p.
Qed.

(** The patterns read at least three characters, and more than they
    remove. *)
Lemma pattern_length (p : str -> bool) (k : Z) (t : str) :
  In (p, k) (patterns_short ++ patterns_long) -> p t = true ->
  1 <= k <= 4 /\ k < len t /\ 2 < len t.
Proof.
  intros Hin Hp. cbn in Hin.
  repeat match goal with
         | H : _ \/ _ |- _ => destruct H as [H|H]
         | H : (_, _) = (_, _) |- _ => inversion H; subst; clear H
         | H : False |- _ => destruct H
         end.
  all: unfold pat_V_V, pat_CV_CV, pat_CV_CCV, pat_CC_CCV, pat_CCV_CCV,
         pat_CV_CCCV, pat_CC_CCCV, pat_CCV_CCCV, pat_CCC_CCCV, pat_CCCV_CCCV
         in Hp;
    repeat match goal with
           | H : _ && _ = true |- _ => apply andb_true_iff in H as [H _]
           end;
    apply Z.ltb_lt in Hp; lia.
Qed.

(** What [stem_rep] emits for a token is at most one stem: the token
    without its first one to four characters, which the stem carries as
    its [rep]; the stem is not empty and keeps the other annotations of
    the token. Nothing is emitted for a token of less than three
    characters. *)
Theorem stem_rep_emit_strips_syllable (token : Stem) :
  exists out,
    stem_rep_emit token = Ok out
    /\ (out = []
        \/ exists s r,
            out = [s]
            /\ rep s = Some r
            /\ r ++ text s = text token
            /\ 1 <= len r <= 4
            /\ text s <> []
            /\ with_text s (text token) = set_rep token r)
    /\ (len (text token) <= 2 -> out = []).
Proof.
  unfold stem_rep_emit. rewrite stem_rep_match_choice. cbn [bind].
  eexists. split; [reflexivity|].
  destruct (rep_choice (text token)) as [k|] eqn:E; cbn [option_map emit_if];
    [|auto].
  assert (Hk : 1 <= k <= 4 /\ k < len (text token) /\ 2 < len (text token)).
  { unfold rep_choice in E.
    destruct (first_match patterns_long (text token)) as [k'|] eqn:El.
    - inversion E; subst k'.
      apply first_match_In in El as (p & Hin & Hp).
      apply (@pattern_length p k (text token)); [|exact Hp].
      apply in_or_app. now right.
    - apply first_match_In in E as (p & Hin & Hp).
      apply (@pattern_length p k (text token)); [|exact Hp].
      apply in_or_app. now left. }
  destruct (@slice_cut (text token) k) as (Hcut & Hlen); [lia|].
  assert (Hne : text (cut_rep token k) <> []).
  { unfold cut_rep, sslice. cbn [text set_rep with_text]. intro E'.
    apply len_nil_iff in E'. rewrite len_slice_from in E' by lia. lia. }
  replace (nonempty (text (cut_rep token k))) with true
    by (destruct (text (cut_rep token k)); [contradiction | reflexivity]).
  split; [|intro; lia].
  right. exists (cut_rep token k), (slice (text token) None (Some k)).
  split; [reflexivity|]. split; [reflexivity|].
  split; [exact Hcut|]. split; [lia|]. split; [exact Hne|].
  unfold cut_rep. now destruct token.
Qed.

End Stemmer.

(** * The code on concrete words

    The functions are evaluated with the resources of [Tagalog] and with
    sets iterated in the order of insertion. *)

Import Tagalog.

Local Abbreviation tagalog f :=
  (f VOWELS CONSONANTS PREFIXES INFIXES SUFFIXES insertion_order).

Lemma insertion_order_perm (s : pyset) : Permutation (insertion_order s) s.
Proof. apply Permutation_refl. Qed.

Ltac each_affix :=
  let x := fresh "x" in
  let H := fresh "H" in
  intros x H; cbn in H;
  repeat (destruct H as [<-|H]; [reflexivity|]);
  contradiction.

Lemma prefixes_have_letters (p : str) :
  In p PREFIXES -> has_letter VOWELS CONSONANTS p = true.
Proof. revert p. each_affix. Qed.

Lemma infixes_have_letters (x : str) :
  In x INFIXES -> has_letter VOWELS CONSONANTS x = true.
Proof. revert x. each_affix. Qed.

Lemma suffixes_have_letters (f : str) :
  In f SUFFIXES -> has_letter VOWELS CONSONANTS f = true.
Proof. revert f. each_affix. Qed.

(** ** The unit tests of the repository *)

(** [stems[s] in get_stem_candidates(s, valid_words + stems)] *)
Ltac candidate_found := eexists; split; vm_compute; reflexivity.

Example test_stem_pre_parami :
  exists found,
    tagalog get_stem_candidates (py "parami") (Some [py "dami"]) = Ok found
    /\ existsb (fun c => str_eqb (text c) (py "dami")) found = true.
Proof. candidate_found. Qed.

Example test_stem_pre_pangangailangan :
  exists found,
    tagalog get_stem_candidates (py "pangangailangan") (Some [py "kailangan"])
    = Ok found
    /\ existsb (fun c => str_eqb (text c) (py "kailangan")) found = true.
Proof. candidate_found. Qed.

Example test_stem_inf_splinit :
  exists found,
    tagalog get_stem_candidates (py "splinit") (Some [py "split"]) = Ok found
    /\ existsb (fun c => str_eqb (text c) (py "split")) found = true.
Proof. candidate_found. Qed.

Example test_stem_suf_buksan :
  exists found,
    tagalog get_stem_candidates (py "buksan") (Some [py "bukas"]) = Ok found
    /\ existsb (fun c => str_eqb (text c) (py "bukas")) found = true.
Proof. candidate_found. Qed.

Example test_stem_suf_tamnin :
  exists found,
    tagalog get_stem_candidates (py "tamnin") (Some [py "tanim"]) = Ok found
    /\ existsb (fun c => str_eqb (text c) (py "tanim")) found = true.
Proof. candidate_found. Qed.

Example test_stem_rep_splisplit :
  exists found,
    tagalog get_stem_candidates (py "splisplit") (Some [py "split"]) = Ok found
    /\ existsb (fun c => str_eqb (text c) (py "split")) found = true.
Proof. candidate_found. Qed.

Example test_stem_dup_hapung_hapon :
  exists found,
    tagalog get_stem_candidates (py "hapung-hapon") (Some [py "hapon"])
    = Ok found
    /\ existsb (fun c => str_eqb (text c) (py "hapon")) found = true.
Proof. candidate_found. Qed.

Example test_replace_letter :
  option_map text
    (match replace_letter (new_stem (py "word")) 1 (py "u") with
     | Ok x => Some x
     | Raise _ => None
     end)
  = Some (py "wurd").
Proof. reflexivity. Qed.

Example test_swap_letters :
  option_map text
    (match swap_letters (new_stem (py "now")) 0 (-1) with
     | Ok x => Some x
     | Raise _ => None
     end)
  = Some (py "won").
Proof. reflexivity. Qed.

Example test_is_acceptable :
  acceptable_shape VOWELS CONSONANTS (py "word") = true
  /\ acceptable_shape VOWELS CONSONANTS (py "aaa") = false
  /\ acceptable_shape VOWELS CONSONANTS (py "bbbb") = false
  /\ acceptable_shape VOWELS CONSONANTS (py "c") = false.
Proof. repeat split; reflexivity. Qed.

(** ** C1 *)

Lemma get_stem_preference_and_score_witness :
  exists r,
    tagalog get_stem (py "sinulat") (Some [py "sulat"; py "sinulat"]) = Ok r
    /\ text r = py "sulat" /\ score r = 2.
Proof.
  assert (Hf : { found |
                 tagalog get_stem_candidates (normalise (py "sinulat"))
                         (Some [py "sulat"; py "sinulat"]) = Ok found }).
  { eexists. vm_compute. reflexivity. }
  destruct Hf as (found & Hf).
  destruct (@get_stem_preference_and_score
              VOWELS CONSONANTS PREFIXES INFIXES SUFFIXES insertion_order
              insertion_order_perm (py "sinulat")
              (Some [py "sulat"; py "sinulat"]) found Hf)
    as (r & Hr & _).
  exists r. split; [exact Hr|].
  vm_compute in Hr. inversion Hr. split; reflexivity.
Defined.

(** ** C2 and C10 *)

Lemma get_stem_raises_after_prefix_witness :
  tagalog get_stem (py "pa-") None = Raise IndexError
  /\ tagalog get_stem (py "par") None = Raise IndexError.
Proof.
  split.
  - apply (@get_stem_raises_after_prefix
             VOWELS CONSONANTS PREFIXES INFIXES SUFFIXES insertion_order
             insertion_order_perm (py "pa") "-"%char None).
    + left. reflexivity.
    + discriminate.
    + left. reflexivity.
    + reflexivity.
  - apply (@get_stem_raises_after_prefix
             VOWELS CONSONANTS PREFIXES INFIXES SUFFIXES insertion_order
             insertion_order_perm (py "pa") "r"%char None).
    + left. reflexivity.
    + discriminate.
    + right. reflexivity.
    + reflexivity.
Defined.

Lemma get_stem_candidates_raises_on_bare_hyphen_witness :
  tagalog get_stem_candidates (py "pa-") None = Raise IndexError.
Proof.
  apply (@get_stem_candidates_raises_on_bare_hyphen
           VOWELS CONSONANTS PREFIXES INFIXES SUFFIXES insertion_order
           insertion_order_perm (py "pa") None).
  - left. reflexivity.
  - reflexivity.
Defined.

(** A prefix followed only by [r]: [stem[1]] is read on a string of one
    character. With a lexicon the behaviour is the same. *)
Example get_stem_raises_on_bare_r :
  tagalog get_stem (py "par") None = Raise IndexError
  /\ tagalog get_stem (py "par") (Some [py "par"]) = Raise IndexError
  /\ tagalog get_stem (py "pa-") (Some [py "pa-"]) = Raise IndexError.
Proof. repeat split; vm_compute; reflexivity. Qed.

(** ** C3 *)

(** The claim as stated fails both ways: [atin], which ends in [n], is
    emitted with the tag; [aba], which does not, is skipped. *)
Lemma g_contraction_counterexample :
  let ating := new_stem (py "ating") in
  let atin := sslice ating (Some 0) (Some 4) in
  let abag := new_stem (py "abag") in
  let aba := sslice abag (Some 0) (Some 3) in
  (getitem (text atin) (-1) = Ok "n"%char
   /\ exists derived,
       stem_suf_emit VOWELS CONSONANTS insertion_order ating (py "g") None
       = Ok (set_contraction atin (py "g") :: derived))
  /\ (getitem (text aba) (-1) = Ok "a"%char
      /\ stem_suf_emit VOWELS CONSONANTS insertion_order abag (py "g") None
         = Ok []).
Proof.
  cbv zeta. split; split; try reflexivity.
  eexists. vm_compute. reflexivity.
Qed.

Lemma g_contraction_needs_n_witness :
  exists derived,
    stem_suf_emit VOWELS CONSONANTS insertion_order
                  (new_stem (py "ating")) (py "g") None
    = Ok (set_contraction (new_stem (py "atin")) (py "g") :: derived).
Proof.
  destruct (@g_contraction_needs_n VOWELS CONSONANTS insertion_order
                                   (new_stem (py "ating")) None)
    as (c & Hc & Hn & _).
  - reflexivity.
  - reflexivity.
  - vm_compute in Hc. inversion Hc; subst c. exact (Hn eq_refl).
Defined.

(** ** C4 *)

(** [bibili] is in the lexicon, and so is [bili]: the stem of [bibili]
    is [bili], not [bibili]. *)
Lemma idempotence_counterexample :
  let lexicon := [py "bibili"; py "bili"] in
  In (py "bibili") lexicon
  /\ exists r,
      tagalog get_stem (py "bibili") (Some lexicon) = Ok r
      /\ text r = py "bili" /\ text r <> py "bibili".
Proof.
  cbv zeta. split; [now left|]. eexists. split; [vm_compute; reflexivity|].
  split; [reflexivity | discriminate].
Qed.

Lemma stem_of_lexicon_word_witness :
  exists r,
    tagalog get_stem (py "bibili") (Some [py "bibili"; py "bili"]) = Ok r
    /\ In (text r) [py "bibili"; py "bili"].
Proof.
  assert (Hf : { found |
                 tagalog get_stem_candidates (py "bibili")
                         (Some [py "bibili"; py "bili"]) = Ok found }).
  { eexists. vm_compute. reflexivity. }
  destruct Hf as (found & Hf).
  destruct (@stem_of_lexicon_word
              VOWELS CONSONANTS PREFIXES INFIXES SUFFIXES insertion_order
              insertion_order_perm (py "bibili") [py "bibili"; py "bili"]
              found)
    as (r & Hr & Hin & _).
  - now left.
  - reflexivity.
  - exact Hf.
  - exists r. split; assumption.
Defined.

(** ** C5 *)



(** On [bbbbbba], where an earlier pattern and a pattern on a 3-consonant
    cluster both match, one stem is emitted all the same. *)
Example stem_rep_one_stem_on_overlap :
  let token := new_stem (py "bbbbbba") in
  first_match (patterns_short VOWELS CONSONANTS) (text token) <> None
  /\ first_match (patterns_long VOWELS CONSONANTS) (text token) <> None
  /\ stem_rep_emit VOWELS CONSONANTS token = Ok [cut_rep token 3].
Proof. cbv zeta. repeat split; vm_compute; discriminate. Qed.

(** ** C6 *)



(** ** C7 *)

(** [paalis2] holds a digit; with no lexicon the prefix rule applies to
    it and its stem is [alis2]. *)
Lemma foreign_character_counterexample :
  existsb (fun c => negb (is_letter VOWELS CONSONANTS c)) (py "paalis2") = true
  /\ exists r,
      tagalog get_stem (py "paalis2") None = Ok r
      /\ text r = py "alis2" /\ pre r = Some (py "pa").
Proof.
  split; [reflexivity|]. eexists. split; [vm_compute; reflexivity|].
  split; reflexivity.
Qed.

Lemma letterless_token_is_its_own_stem_witness :
  tagalog get_stem (py " 12-12 ") (Some [py "12"])
  = Ok (new_stem (py "12-12")).
Proof.
  apply (@letterless_token_is_its_own_stem
           VOWELS CONSONANTS PREFIXES INFIXES SUFFIXES insertion_order
           insertion_order_perm prefixes_have_letters infixes_have_letters
           suffixes_have_letters (py " 12-12 ") (Some [py "12"])).
  reflexivity.
Defined.

(** ** C8 *)



(** * Further properties on the sample resources *)

Lemma get_stem_token_or_accepted_witness :
  exists r,
    tagalog get_stem (py "sinulat") (Some [py "sulat"; py "sinulat"]) = Ok r
    /\ (r = new_stem (normalise (py "sinulat"))
        \/ (text r <> normalise (py "sinulat")
            /\ is_valid r (Some [py "sulat"; py "sinulat"]) = Some r
            /\ acceptable_shape VOWELS CONSONANTS (text r) = true)).
Proof.
  assert (Hr : { r | tagalog get_stem (py "sinulat")
                             (Some [py "sulat"; py "sinulat"]) = Ok r }).
  { eexists. vm_compute. reflexivity. }
  destruct Hr as (r & Hr). exists r. split; [exact Hr|].
  exact (@get_stem_token_or_accepted
           VOWELS CONSONANTS PREFIXES INFIXES SUFFIXES insertion_order
           insertion_order_perm (py "sinulat")
           (Some [py "sulat"; py "sinulat"]) r Hr).
Defined.

Lemma get_stem_candidates_shape_witness :
  exists found,
    tagalog get_stem_candidates (py "sinulat") (Some [py "sulat"; py "sinulat"])
    = Ok found
    /\ found <> []
    /\ NoDup (map text found)
    /\ StronglySorted (fun a b => score b <= score a) found.
Proof.
  assert (Hf : { found | tagalog get_stem_candidates (py "sinulat")
                                 (Some [py "sulat"; py "sinulat"]) = Ok found }).
  { eexists. vm_compute. reflexivity. }
  destruct Hf as (found & Hf). exists found. split; [exact Hf|].
  destruct (@get_stem_candidates_shape
              VOWELS CONSONANTS PREFIXES INFIXES SUFFIXES insertion_order
              insertion_order_perm (py "sinulat")
              (Some [py "sulat"; py "sinulat"]) found Hf)
    as (Hne & Hnd & Hs & _).
  split; [exact Hne|]. split; [exact Hnd | exact Hs].
Defined.

Lemma apply_stemming_only_adds_witness :
  exists r,
    tagalog apply_stemming cascade [new_stem (py "sinulat")] None = Ok r
    /\ In (new_stem (py "sinulat")) r
    /\ NoDup (map text r).
Proof.
  assert (Hr : { r | tagalog apply_stemming cascade [new_stem (py "sinulat")]
                             None = Ok r }).
  { eexists. vm_compute. reflexivity. }
  destruct Hr as (r & Hr). exists r. split; [exact Hr|].
  destruct (@apply_stemming_only_adds
              VOWELS CONSONANTS PREFIXES INFIXES SUFFIXES insertion_order
              cascade [new_stem (py "sinulat")] r None Hr) as (Hin & Hnd).
  split.
  - apply Hin. now left.
  - apply Hnd. repeat constructor. intros [].
Defined.

Lemma get_stem_raises_iff_witness :
  (exists r, tagalog get_stem (py "Parami ") None = Ok r)
  /\ tagalog get_stem (py "par") None = Raise IndexError.
Proof.
  assert (Hinf : forall x, In x INFIXES -> x <> []).
  { intros x [<-|[<-|[]]]; discriminate. }
  split.
  - apply (proj2 (@get_stem_raises_iff
                    VOWELS CONSONANTS PREFIXES INFIXES SUFFIXES insertion_order
                    insertion_order_perm (py "Parami ") None eq_refl Hinf)).
    intros p [<-|[<-|[<-|[<-|[]]]]] Hsw Hlen;
      first [reflexivity | discriminate Hsw].
  - apply (proj1 (@get_stem_raises_iff
                    VOWELS CONSONANTS PREFIXES INFIXES SUFFIXES insertion_order
                    insertion_order_perm (py "par") None eq_refl Hinf)).
    exists (py "pa"). split; [now left|]. split; [reflexivity|].
    split; [reflexivity | reflexivity].
Defined.

Lemma get_stem_blank_witness :
  tagalog get_stem (py "  ") (Some [py "sulat"]) = Ok (new_stem [])
  /\ tagalog get_stem_candidates (py "  ") (Some [py "sulat"])
     = Ok [new_stem []].
Proof.
  exact (@get_stem_blank
           VOWELS CONSONANTS PREFIXES INFIXES SUFFIXES insertion_order
           insertion_order_perm (py "  ") (Some [py "sulat"]) eq_refl).
Defined.

Lemma stem_dup_exact_witness :
  stem_dup insertion_order [new_stem (py "araw-araw")]
  = Ok [set_dup (new_stem (py "araw")) (py "araw")].
Proof.
  exact (@stem_dup_exact insertion_order insertion_order_perm
                         (new_stem (py "araw-araw")) (py "araw")
                         eq_refl eq_refl eq_refl).
Defined.

Lemma stem_vowel_loss_lexicon_witness :
  exists r,
    stem_vowel_loss VOWELS insertion_order [new_stem (py "bukd")]
                    (Some [py "bukid"]) = Ok r
    /\ In (set_vowel_loss (new_stem (py "bukid")) (py "i")) r
    /\ forall x, In x r -> In (text x) [py "bukid"].
Proof.
  assert (Hr : { r | stem_vowel_loss VOWELS insertion_order
                                     [new_stem (py "bukd")]
                                     (Some [py "bukid"]) = Ok r
                     /\ In (set_vowel_loss (new_stem (py "bukid")) (py "i")) r }).
  { eexists. split; [vm_compute; reflexivity | now left]. }
  destruct Hr as (r & Hr & Hin). exists r. split; [exact Hr|].
  split; [exact Hin|]. intros x Hx.
  assert (Hne : [py "bukid"] <> []) by discriminate.
  exact (proj1 (@stem_vowel_loss_lexicon
                  VOWELS insertion_order insertion_order_perm
                  [new_stem (py "bukd")] [py "bukid"] r Hne Hr x Hx)).
Defined.

Lemma stem_pre_emit_strips_prefix_witness :
  exists s others,
    stem_pre_emit VOWELS CONSONANTS (new_stem (py "pa-alis")) (py "pa")
    = Ok (s :: others)
    /\ text s = py "alis" /\ pre s = Some (py "pa").
Proof.
  assert (Ho : { out | stem_pre_emit VOWELS CONSONANTS
                                     (new_stem (py "pa-alis")) (py "pa")
                       = Ok out }).
  { eexists. vm_compute. reflexivity. }
  destruct Ho as (out & Ho).
  destruct (@stem_pre_emit_strips_prefix
              VOWELS CONSONANTS (new_stem (py "pa-alis")) (py "pa") out Ho)
    as [(_ & [Hsw|Hlen])|(s & others & -> & -> & _)].
  - discriminate Hsw.
  - vm_compute in Hlen. now contradiction Hlen.
  - eexists _, others. split; [exact Ho|]. split; reflexivity.
Defined.

Lemma stem_inf_emit_removes_infix_witness :
  exists out,
    stem_inf_emit VOWELS CONSONANTS (new_stem (py "sinulat")) (py "in") = Ok out
    /\ (out = []
        \/ exists s a v rest,
            out = [s]
            /\ text (new_stem (py "sinulat")) = a ++ py "in" ++ v :: rest
            /\ text s = a ++ v :: rest
            /\ len a <= 3
            /\ is_consonant CONSONANTS a = true
            /\ is_vowel VOWELS [v] = true
            /\ with_text s (text (new_stem (py "sinulat")))
               = set_inf (new_stem (py "sinulat")) (py "in")).
Proof.
  exact (@stem_inf_emit_removes_infix
           VOWELS CONSONANTS (new_stem (py "sinulat")) (py "in") eq_refl).
Defined.

(** [string.punctuation] has 32 characters; a token of several of them
    in a row is dropped as well, a repeated one is kept. *)
Example punctuation_tokens :
  len PUNCS = 32
  /\ is_substring (py "<=>") PUNCS = true
  /\ is_substring (py "...") PUNCS = false.
Proof. repeat split; vm_compute; reflexivity. Qed.

(** The rules on the words of the repository's tests. *)
Example strips_on_test_words :
  stem_inf_emit VOWELS CONSONANTS (new_stem (py "sinulat")) (py "in")
  = Ok [set_inf (new_stem (py "sulat")) (py "in")]
  /\ replace_letter (new_stem (py "tulungan")) (-5) (py "o")
     = Ok (new_stem (py "tulongan"))
  /\ swap_letters (new_stem (py "tanim")) (-1) (-2)
     = Ok (new_stem (py "tanmi"))
  /\ get_affixes [py "pang "; py "pa"; []; py "pam"]
     = [[]; py "pa"; py "pam"; py "pang"].
Proof. repeat split; vm_compute; reflexivity. Qed.
